(** * Obsidian Image Scaler: image-syntax parser, tag rewriter and drag controller

    A shallow embedding of [src/utils] (image-link-utils.ts) and of
    [image-resize-controller.ts] / [image-hover-controller.ts].

    Conventions of the embedding.
    - A JavaScript string is a [list ascii]: one element per code unit, the
      code units being those of the Latin-1 range (0..255).  String literals
      of the source are written with [chars "..."].
    - [undefined] and [null] are [None].
    - The integers the program handles (pixel sizes, zoom percentages,
      offsets) are [N], [Z] or [nat]; they agree with the JavaScript numbers
      as long as these stay below 2^53.  Screen coordinates are rationals.
    - A regular expression literal of the source is a value of type
      [Regex.regex], run by a backtracking matcher that follows the order in
      which the ECMAScript matcher explores alternatives. *)

From Stdlib Require Import List Ascii String Bool Arith NArith ZArith QArith Qround Lia.
From Stdlib Require DecimalString DecimalN DecimalPos.
Import ListNotations.
Close Scope Q_scope.
Local Open Scope list_scope.

(** ** Code units *)

Definition jsstring := list ascii.

Definition chars (s : string) : jsstring := list_ascii_of_string s.

Definition code (c : ascii) : N := N_of_ascii c.

Definition is_char (c : ascii) : ascii -> bool := fun ch => Ascii.eqb ch c.

(** [\s] and [String.prototype.trim]: WhiteSpace and LineTerminator code
    units; below 256 these are TAB, LF, VT, FF, CR, SP and NBSP. *)
Definition is_space (ch : ascii) : bool :=
  let n := code ch in
  ((9 <=? n) && (n <=? 13) || (n =? 32) || (n =? 160))%N.

(** [\d] *)
Definition is_digit (ch : ascii) : bool :=
  let n := code ch in ((48 <=? n) && (n <=? 57))%N.

(** [.] without the [s] flag: anything but a line terminator. *)
Definition is_dot (ch : ascii) : bool :=
  let n := code ch in negb ((n =? 10) || (n =? 13))%N.

(** [[^...]] *)
Definition none_of (l : list ascii) : ascii -> bool :=
  fun ch => negb (existsb (Ascii.eqb ch) l).

(** [[^>\s]] *)
Definition not_gt_space (ch : ascii) : bool :=
  negb (Ascii.eqb ch ">" || is_space ch).

(** Canonicalize of the [i] flag (non-unicode mode): the upper-case mapping
    when it is a single code unit.  In Latin-1, a-z and the letters
    0xE0..0xFE (but 0xF7) move down by 32; 0xB5, 0xDF and 0xFF either map
    outside Latin-1 to a code unit nothing else reaches, or to two code
    units, and so compare equal only to themselves. *)
Definition canonicalize (ch : ascii) : ascii :=
  let n := code ch in
  if ((97 <=? n) && (n <=? 122) || (224 <=? n) && (n <=? 254) && negb (n =? 247))%N
  then ascii_of_N (n - 32) else ch.

Definition is_char_i (c : ascii) : ascii -> bool :=
  fun ch => Ascii.eqb (canonicalize ch) (canonicalize c).

(** [String.prototype.trim] *)
Fixpoint trimStart (s : jsstring) : jsstring :=
  match s with
  | ch :: s' => if is_space ch then trimStart s' else s
  | [] => []
  end.

Definition trim (s : jsstring) : jsstring := rev (trimStart (rev (trimStart s))).

(** [parseInt(s, 10)] on a string that starts with a decimal digit, which
    is what the [\d+] captures handed to it always are: the value of the
    leading run of digits. *)
Definition digit_value (ch : ascii) : N := (code ch - 48)%N.

Fixpoint parseInt_acc (acc : N) (s : jsstring) : N :=
  match s with
  | ch :: s' => if is_digit ch then parseInt_acc (acc * 10 + digit_value ch) s' else acc
  | [] => acc
  end.

Definition parseInt (s : jsstring) : N := parseInt_acc 0 s.

(** Number-to-string conversion of a template literal, for a non-negative
    integer. *)
Definition toString (n : N) : jsstring := chars (DecimalString.NilEmpty.string_of_uint (N.to_uint n)).

(** [String.prototype.split] on a single-character separator. *)
Fixpoint split_acc (sep : ascii) (acc : jsstring) (s : jsstring) : list jsstring :=
  match s with
  | [] => [rev acc]
  | ch :: s' => if Ascii.eqb ch sep then rev acc :: split_acc sep [] s'
                else split_acc sep (ch :: acc) s'
  end.

Definition split (sep : ascii) (s : jsstring) : list jsstring := split_acc sep [] s.

(** Truthiness of a string or of an optional string. *)
Definition truthy (s : jsstring) : bool := match s with [] => false | _ => true end.

Definition truthy_opt (o : option jsstring) : bool :=
  match o with Some s => truthy s | None => false end.

(** [a || b] on optional strings. *)
Definition or_else (a b : option jsstring) : option jsstring :=
  if truthy_opt a then a else b.

(** ** Regular expressions *)

Module Regex.

(** The patterns of the program repeat single character classes only, so
    [Star] and [Plus] take a class; [Opt] is the greedy [(?:r)?]. *)
Inductive regex : Type :=
| Empty
| Class (p : ascii -> bool)
| Seq (r1 r2 : regex)
| Alt (r1 r2 : regex)
| Star (greedy : bool) (p : ascii -> bool)
| Plus (greedy : bool) (p : ascii -> bool)
| Opt (r : regex)
| Group (n : nat) (r : regex)
| Bol
| Eol.

(** Captures: the latest binding of a group comes first. *)
Definition captures := list (nat * jsstring).

Fixpoint capture (n : nat) (c : captures) : option jsstring :=
  match c with
  | [] => None
  | (m, s) :: c' => if Nat.eqb m n then Some s else capture n c'
  end.

(** A continuation receives the position, the input left and the captures. *)
Definition cont := nat -> jsstring -> captures -> option (nat * captures).

Fixpoint star_greedy (p : ascii -> bool) (k : cont) (i : nat) (s : jsstring) (c : captures)
  : option (nat * captures) :=
  match s with
  | ch :: s' =>
      if p ch then
        match star_greedy p k (S i) s' c with
        | Some v => Some v
        | None => k i s c
        end
      else k i s c
  | [] => k i s c
  end.

Fixpoint star_lazy (p : ascii -> bool) (k : cont) (i : nat) (s : jsstring) (c : captures)
  : option (nat * captures) :=
  match k i s c with
  | Some v => Some v
  | None =>
      match s with
      | ch :: s' => if p ch then star_lazy p k (S i) s' c else None
      | [] => None
      end
  end.

Definition star (greedy : bool) : (ascii -> bool) -> cont -> cont :=
  if greedy then star_greedy else star_lazy.

Definition one (p : ascii -> bool) (k : cont) : cont :=
  fun i s c =>
    match s with
    | ch :: s' => if p ch then k (S i) s' c else None
    | [] => None
    end.

(** An optional group that matched the empty string is rejected (the
    empty check of RepeatMatcher), after which the group is skipped. *)
Definition nonempty_since (i : nat) (k : cont) : cont :=
  fun i' s' c' => if Nat.eqb i' i then None else k i' s' c'.

Definition close_group (n i : nat) (s : jsstring) (k : cont) : cont :=
  fun i' s' c' => k i' s' ((n, firstn (i' - i) s) :: c').

Fixpoint m (r : regex) (k : cont) (i : nat) (s : jsstring) (c : captures)
  : option (nat * captures) :=
  match r with
  | Empty => k i s c
  | Class p => one p k i s c
  | Seq r1 r2 => m r1 (m r2 k) i s c
  | Alt r1 r2 =>
      match m r1 k i s c with
      | Some v => Some v
      | None => m r2 k i s c
      end
  | Star g p => star g p k i s c
  | Plus g p => one p (star g p k) i s c
  | Opt r1 =>
      match m r1 (nonempty_since i k) i s c with
      | Some v => Some v
      | None => k i s c
      end
  | Group n r1 => m r1 (close_group n i s k) i s c
  | Bol => if Nat.eqb i 0 then k i s c else None
  | Eol => match s with [] => k i s c | _ => None end
  end.

Definition accept : cont := fun i _ c => Some (i, c).

(** The array returned by [String.prototype.match] for a pattern without
    the [g] flag: [index], element 0 and the numbered groups. *)
Record MatchResult := {
  index : nat;
  matched : jsstring;
  groups : captures
}.

Definition group (n : nat) (r : MatchResult) : option jsstring := capture n (groups r).

(** The leftmost start position at which the pattern matches. *)
Fixpoint search (r : regex) (i : nat) (s : jsstring) : option MatchResult :=
  match m r accept i s [] with
  | Some (e, c) => Some {| index := i; matched := firstn (e - i) s; groups := c |}
  | None =>
      match s with
      | [] => None
      | _ :: s' => search r (S i) s'
      end
  end.

Definition exec (r : regex) (s : jsstring) : option MatchResult := search r 0 s.

(** Pattern-building helpers. *)
Fixpoint seq (l : list regex) : regex :=
  match l with
  | [] => Empty
  | [r] => r
  | r :: l' => Seq r (seq l')
  end.

Definition lit (s : string) : regex := seq (map (fun c => Class (is_char c)) (chars s)).
Definition lit_i (s : jsstring) : regex := seq (map (fun c => Class (is_char_i c)) s).

End Regex.
Import Regex.

(** ** src/utils: image-link-utils.ts *)

Module Utils.

(** The double quote, and a string between double quotes. *)
Definition dq : ascii := "034"%char.
Definition quoted (s : jsstring) : jsstring := dq :: s ++ [dq].

Definition quote : ascii -> bool := fun ch => Ascii.eqb ch dq || Ascii.eqb ch "'".
Definition not_quote : ascii -> bool := none_of [dq; "'"%char].
Definition not_gt : ascii -> bool := none_of [">"%char].
Definition not_pipe_bracket : ascii -> bool := none_of ["|"%char; "]"%char].
Definition not_rparen : ascii -> bool := none_of [")"%char].

Record ParsedImageInfo := {
  path : jsstring;
  altText : option jsstring;
  specifiedWidth : option N;
  specifiedHeight : option N;
  originalMatch : jsstring;
  startIndexInLine : nat;
  isHtml : bool;
  currentZoomPercent : option N
}.

(** A group that takes part in every match of its pattern. *)
Definition group_of (n : nat) (mt : MatchResult) : jsstring :=
  match group n mt with Some s => s | None => [] end.

(** [/!\[(.*?)?(?:\|(\d+(?:x\d+)?))?\]\(([^)]+)\)/] *)
Definition markdownRegex : regex :=
  seq [ lit "![";
        Opt (Group 1 (Star false is_dot));
        Opt (seq [ lit "|";
                   Group 2 (seq [ Plus true is_digit;
                                  Opt (seq [lit "x"; Plus true is_digit]) ]) ]);
        lit "](";
        Group 3 (Plus true not_rparen);
        lit ")" ].

Definition parseMarkdown (lineText : jsstring) : option ParsedImageInfo :=
  match exec markdownRegex lineText with
  | Some mt =>
      let altText := or_else (group 1 mt) None in
      let dimensionsString := group 2 mt in
      let path := trim (group_of 3 mt) in
      let dims := match dimensionsString with
                  | Some d => if truthy d then split "x" d else []
                  | None => []
                  end in
      let specifiedWidth :=
        match dims with
        | w :: _ => if truthy w then Some (parseInt w) else None
        | [] => None
        end in
      let specifiedHeight :=
        match dims with
        | _ :: h :: _ => if truthy h then Some (parseInt h) else None
        | _ => None
        end in
      Some {| path := path;
              altText := altText;
              specifiedWidth := specifiedWidth;
              specifiedHeight := specifiedHeight;
              originalMatch := matched mt;
              startIndexInLine := index mt;
              isHtml := false;
              currentZoomPercent := None |}
  | None => None
  end.

(** [/!\[\[([^|\]]+)(?:\|([^|\]]* ))?\]\]/] *)
Definition wikilinkRegex : regex :=
  seq [ lit "![[";
        Group 1 (Plus true not_pipe_bracket);
        Opt (seq [lit "|"; Group 2 (Star true not_pipe_bracket)]);
        lit "]]" ].

(** [/^(\d+)(?:x(\d+))?$/] *)
Definition dimRegex : regex :=
  seq [ Bol;
        Group 1 (Plus true is_digit);
        Opt (seq [lit "x"; Group 2 (Plus true is_digit)]);
        Eol ].

Definition parseWikilink (lineText : jsstring) : option ParsedImageInfo :=
  match exec wikilinkRegex lineText with
  | Some mt =>
      let path := trim (group_of 1 mt) in
      let altOrDimensions := group 2 mt in
      let dimMatch :=
        match altOrDimensions with
        | Some a => if truthy a then exec dimRegex a else None
        | None => None
        end in
      let specifiedWidth :=
        match dimMatch with
        | Some dm => if truthy_opt (group 1 dm) then Some (parseInt (group_of 1 dm)) else None
        | None => None
        end in
      let specifiedHeight :=
        match dimMatch with
        | Some dm => if truthy_opt (group 2 dm) then Some (parseInt (group_of 2 dm)) else None
        | None => None
        end in
      let altText :=
        match dimMatch with
        | Some _ => None
        | None => altOrDimensions
        end in
      Some {| path := path;
              altText := altText;
              specifiedWidth := specifiedWidth;
              specifiedHeight := specifiedHeight;
              originalMatch := matched mt;
              startIndexInLine := index mt;
              isHtml := false;
              currentZoomPercent := None |}
  | None => None
  end.

(** The pieces of [htmlImgRegex], in the order of the literal (flag [i];
    Q stands for the class of the double and the single quote, NQ for its
    complement):
    [(<img\s+(?:[^>]*?\s+)?src=(?:Q(NQ+)Q|([^>\s]+))]
    [(?:\s+[^>]*?\s*alt=(?:Q(NQ* )Q|([^>\s]* )))?]
    [(?:\s+[^>]*?\s*style=(?:Q(NQ+)Q|([^>\s]+)))?[^>]*?>)] *)
Definition html_before_src : regex :=
  Opt (seq [Star false not_gt; Plus true is_space]).

Definition html_src_value : regex :=
  Alt (seq [Class quote; Group 2 (Plus true not_quote); Class quote])
      (Group 3 (Plus true not_gt_space)).

Definition html_alt_attr : regex :=
  Opt (seq [ Plus true is_space; Star false not_gt; Star true is_space;
             lit_i (chars "alt=");
             Alt (seq [Class quote; Group 4 (Star true not_quote); Class quote])
                 (Group 5 (Star true not_gt_space)) ]).

Definition html_style_attr : regex :=
  Opt (seq [ Plus true is_space; Star false not_gt; Star true is_space;
             lit_i (chars "style=");
             Alt (seq [Class quote; Group 6 (Plus true not_quote); Class quote])
                 (Group 7 (Plus true not_gt_space)) ]).

Definition htmlImgRegex : regex :=
  Group 1 (seq [ lit_i (chars "<img"); Plus true is_space;
                 html_before_src;
                 lit_i (chars "src=");
                 html_src_value;
                 html_alt_attr;
                 html_style_attr;
                 Star false not_gt;
                 lit_i (chars ">") ]).

(** [/width:\s*(\d+)px/i], [/height:\s*(\d+)px/i], [/zoom:\s*(\d+)%?/i] *)
Definition widthRegex : regex :=
  seq [lit_i (chars "width:"); Star true is_space; Group 1 (Plus true is_digit); lit_i (chars "px")].

Definition heightRegex : regex :=
  seq [lit_i (chars "height:"); Star true is_space; Group 1 (Plus true is_digit); lit_i (chars "px")].

Definition zoomRegex : regex :=
  seq [lit_i (chars "zoom:"); Star true is_space; Group 1 (Plus true is_digit); Opt (lit_i (chars "%"))].

(** [m && m[1] ? parseInt(m[1], 10) : undefined] *)
Definition captured_int (mt : option MatchResult) : option N :=
  match mt with
  | Some r => if truthy_opt (group 1 r) then Some (parseInt (group_of 1 r)) else None
  | None => None
  end.

Definition parseHtml (lineText : jsstring) : option ParsedImageInfo :=
  match exec htmlImgRegex lineText with
  | Some htmlMatch =>
      let originalHtmlTag := matched htmlMatch in
      let path := or_else (group 2 htmlMatch) (group 3 htmlMatch) in
      let altText := or_else (or_else (group 4 htmlMatch) (group 5 htmlMatch)) None in
      let styleString := or_else (or_else (group 6 htmlMatch) (group 7 htmlMatch)) None in
      let specifiedWidth :=
        match styleString with
        | Some st => if truthy st then captured_int (exec widthRegex st) else None
        | None => None
        end in
      let specifiedHeight :=
        match styleString with
        | Some st => if truthy st then captured_int (exec heightRegex st) else None
        | None => None
        end in
      let currentZoomP :=
        match styleString with
        | Some st => if truthy st then captured_int (exec zoomRegex st) else None
        | None => None
        end in
      match path with
      | Some p =>
          if truthy p then
            Some {| path := trim p;
                    altText := match altText with
                               | Some a => if truthy a then Some (trim a) else None
                               | None => None
                               end;
                    specifiedWidth := specifiedWidth;
                    specifiedHeight := specifiedHeight;
                    originalMatch := originalHtmlTag;
                    startIndexInLine := index htmlMatch;
                    isHtml := true;
                    currentZoomPercent := currentZoomP |}
          else None
      | None => None
      end
  | None => None
  end.

Definition parseImageSyntaxFromLine (lineText : jsstring) : option ParsedImageInfo :=
  match parseMarkdown lineText with
  | Some result => Some result
  | None =>
      match parseWikilink lineText with
      | Some result => Some result
      | None => parseHtml lineText
      end
  end.

(** [s.replace(/c/g, w)] for a single character [c] *)
Definition replaceAll (c : ascii) (w : jsstring) (s : jsstring) : jsstring :=
  flat_map (fun ch => if Ascii.eqb ch c then w else [ch]) s.

Definition escapeHtml (unsafe : jsstring) : jsstring :=
  replaceAll "'" (chars "&#039;")
    (replaceAll dq (chars "&quot;")
      (replaceAll ">" (chars "&gt;")
        (replaceAll "<" (chars "&lt;")
          (replaceAll "&" (chars "&amp;") unsafe)))).

(** [/[.*+?^${}()|[\]\\]/g] replaced by a backslash and the match. *)
Definition regexp_special : list ascii :=
  ["."; "*"; "+"; "?"; "^"; "$"; "{"; "}"; "("; ")"; "|"; "["; "]"; "\"]%char.

Definition escapeRegExp (s : jsstring) : jsstring :=
  flat_map (fun ch => if existsb (Ascii.eqb ch) regexp_special then ["\"%char; ch] else [ch]) s.

(** [extractFirstImagePath] (deprecated, kept by the module) with its own
    three patterns:
    [/<img\s[^>]*src=(?:Q(NQ+)Q|([^>\s]+))/i],
    [/!\[[^\]]*\]\(([^)\s]+)(?:\s[^)]* )?\)/] and
    [/!\[\[([^|\]]+)(?:\|[^\]]* )?\]\]/]. *)
Definition not_rbracket : ascii -> bool := none_of ["]"%char].

Definition not_rparen_space (ch : ascii) : bool := not_rparen ch && negb (is_space ch).

Definition extract_htmlRegex : regex :=
  seq [ lit_i (chars "<img"); Class is_space; Star true not_gt;
        lit_i (chars "src=");
        Alt (seq [Class quote; Group 1 (Plus true not_quote); Class quote])
            (Group 2 (Plus true not_gt_space)) ].

Definition extract_markdownRegex : regex :=
  seq [ lit "!["; Star true not_rbracket; lit "](";
        Group 1 (Plus true not_rparen_space);
        Opt (seq [Class is_space; Star true not_rparen]);
        lit ")" ].

Definition extract_wikilinkRegex : regex :=
  seq [ lit "![[";
        Group 1 (Plus true not_pipe_bracket);
        Opt (seq [lit "|"; Star true not_rbracket]);
        lit "]]" ].

Definition extractFirstImagePath (textLine : jsstring) : option jsstring :=
  if truthy textLine then
    let fromHtml :=
      match exec extract_htmlRegex textLine with
      | Some mt => or_else (group 1 mt) (group 2 mt)
      | None => None
      end in
    if truthy_opt fromHtml then option_map trim fromHtml
    else
      let fromMarkdown :=
        match exec extract_markdownRegex textLine with
        | Some mt => group 1 mt
        | None => None
        end in
      if truthy_opt fromMarkdown then option_map trim fromMarkdown
      else
        let fromWikilink :=
          match exec extract_wikilinkRegex textLine with
          | Some mt => group 1 mt
          | None => None
          end in
        if truthy_opt fromWikilink then option_map trim fromWikilink
        else None
  else None.

End Utils.
Import Utils.

(** ** The text engine

    The editor is an external collaborator; it is modelled after the
    interface the controller consumes: the line at a position and the
    replacement of a range together with a new selection, each failing
    with a RangeError outside the document.  Lines are separated by a line
    feed. *)

Inductive result (A : Type) : Type :=
| Ok (a : A)
| RangeError.
Arguments Ok {A} a.
Arguments RangeError {A}.

Record Line := { from : nat; to : nat; text : jsstring }.

Record ChangeSpec := { change_from : nat; change_to : nat; insert : jsstring }.

Record TransactionSpec := {
  changes : ChangeSpec;
  selection_anchor : nat;
  userEvent : string
}.

(** The view: the document, the head of the main selection and, for the
    record, the transactions dispatched so far.  The engine keeps the
    selection inside the document; the last field records that. *)
Record EditorView := {
  doc : jsstring;
  selection_head : nat;
  dispatched : list TransactionSpec;
  head_in_doc : (selection_head <=? List.length doc) = true
}.

Fixpoint lineAt_aux (d : jsstring) (start i : nat) (acc : jsstring) (pos : nat) : result Line :=
  match d with
  | [] => if pos <=? i then Ok {| from := start; to := i; text := rev acc |} else RangeError
  | ch :: d' =>
      if Ascii.eqb ch "010" then
        if pos <=? i then Ok {| from := start; to := i; text := rev acc |}
        else lineAt_aux d' (S i) (S i) [] pos
      else lineAt_aux d' start (S i) (ch :: acc) pos
  end.

(** [view.state.doc.lineAt(pos)] *)
Definition lineAt (view : EditorView) (pos : nat) : result Line :=
  lineAt_aux (doc view) 0 0 [] pos.

Definition replaceRange (d : jsstring) (a b : nat) (ins : jsstring) : jsstring :=
  firstn a d ++ ins ++ skipn b d.

(** The new state of a transaction: a selection that points outside of the
    new document is refused with a RangeError. *)
Definition checkSelection (d : jsstring) (head : nat) (log : list TransactionSpec)
  : result EditorView :=
  match (head <=? List.length d) as b
        return ((head <=? List.length d) = b -> result EditorView) with
  | true => fun H => Ok {| doc := d; selection_head := head; dispatched := log;
                           head_in_doc := H |}
  | false => fun _ => RangeError
  end eq_refl.

(** [view.dispatch(view.state.update(spec))]: the range of the change has
    to lie inside the document, and the selection given with it inside the
    document the change produces. *)
Definition dispatch (view : EditorView) (tr : TransactionSpec) : result EditorView :=
  let ch := changes tr in
  if (change_from ch <=? change_to ch) && (change_to ch <=? List.length (doc view)) then
    checkSelection (replaceRange (doc view) (change_from ch) (change_to ch) (insert ch))
                   (selection_anchor tr) (dispatched view ++ [tr])
  else RangeError.

(** ** The page: image elements, pointer events, global listeners *)

Record DOMRect := { left : Q; top : Q; width : Q; height : Q }.

Record HTMLImageElement := {
  offsetWidth : N;
  boundingClientRect : DOMRect;
  style_zoom : jsstring;
  style_cursor : jsstring;
  posAtDOM : option nat
}.

Record MouseEvent := { clientX : Q; clientY : Q }.

Record LineDetails := {
  pos : nat;
  lineText : jsstring;
  lineFrom : nat;
  lineTo : nat
}.

(** What the handlers act upon besides the controller itself: the editor
    view and the two listeners on [document]. *)
Record Page := {
  view : EditorView;
  mousemove_listener : bool;
  mouseup_listener : bool
}.

(** [getLineInfoFromElement]: both failures of the engine are caught. *)
Definition getLineInfoFromElement (v : EditorView) (element : HTMLImageElement)
  : option LineDetails :=
  match posAtDOM element with
  | None => None
  | Some p =>
      match lineAt v p with
      | Ok line => Some {| pos := p; lineText := text line;
                           lineFrom := from line; lineTo := to line |}
      | RangeError => None
      end
  end.

(** ** image-resize-controller.ts *)

(** The session's copy of the parse ([draggedImageInfo]); its fields [path]
    and [altText] carry a prefix here, the names being taken by
    [ParsedImageInfo].  [path] is [string | null] in the source. *)
Record DraggedImageInfo := {
  dragged_path : option jsstring;
  dragged_altText : option jsstring;
  sourceWidth : option N;
  sourceHeight : option N
}.

Module ImageResizeController.

Record t := {
  isDragging : bool;
  initialImageWidth : N;
  initialImageHeight : N;
  currentZoomPercent : N;
  lineInfoAtDragStart : option LineDetails;
  draggedImageInfo : option DraggedImageInfo;
  imageCenterX : Q;
  imageCenterY : Q;
  initialDistanceToCenter : Q;
  activeImgElement : option HTMLImageElement
}.

(** The state a freshly constructed controller is in. *)
Definition init : t :=
  {| isDragging := false; initialImageWidth := 0; initialImageHeight := 0;
     currentZoomPercent := 100; lineInfoAtDragStart := None;
     draggedImageInfo := None; imageCenterX := 0%Q; imageCenterY := 0%Q;
     initialDistanceToCenter := 0%Q; activeImgElement := None |}.


Section Methods.

(** [Math.sqrt] on the screen coordinates, left open: coordinates and
    distances are rationals here, and no property below depends on how the
    root is taken. *)
Variable Math_sqrt : Q -> Q.

(** [Math.round] *)
Definition Math_round (x : Q) : Z := Qfloor (x + (1 # 2))%Q.

Definition getIsDragging (this : t) : bool := isDragging this.

(** The tag both handlers build:
    [<img src=Q${path}Q alt=Q${safeAltText}Q style=Q${styleString.trim()}Q>]
    with Q the double quote. *)
Definition styleString (info : DraggedImageInfo) (zoom : N) : jsstring :=
  (match sourceWidth info with
   | Some w => if (w =? 0)%N then [] else chars "width: " ++ toString w ++ chars "px; "
   | None => []
   end)
  ++ (match sourceHeight info with
      | Some h => if (h =? 0)%N then [] else chars "height: " ++ toString h ++ chars "px; "
      | None => []
      end)
  ++ chars "zoom: " ++ toString zoom ++ chars "%;".

Definition safeAltText (info : DraggedImageInfo) : jsstring :=
  match dragged_altText info with
  | Some a => if truthy a then escapeHtml a else []
  | None => []
  end.

Definition newImgTag (info : DraggedImageInfo) (zoom : N) : jsstring :=
  chars "<img src=" ++ quoted (match dragged_path info with
                               | Some p => p
                               | None => chars "null"
                               end)
  ++ chars " alt=" ++ quoted (safeAltText info)
  ++ chars " style=" ++ quoted (trim (styleString info zoom))
  ++ chars ">".

Definition distanceToCenter (this_cx this_cy : Q) (event : MouseEvent) : Q :=
  let dx := (clientX event - this_cx)%Q in
  let dy := (clientY event - this_cy)%Q in
  Math_sqrt (dx * dx + dy * dy)%Q.

(** [resetState]: the element the controller lets go of also gets its
    cursor style reset; the controller holds the only copy of it here. *)
Definition resetState (this : t) (page : Page) : t * Page :=
  ({| isDragging := false;
      initialImageWidth := initialImageWidth this;
      initialImageHeight := initialImageHeight this;
      currentZoomPercent := currentZoomPercent this;
      lineInfoAtDragStart := None;
      draggedImageInfo := None;
      imageCenterX := imageCenterX this;
      imageCenterY := imageCenterY this;
      initialDistanceToCenter := initialDistanceToCenter this;
      activeImgElement := None |},
   {| view := view page; mousemove_listener := false; mouseup_listener := false |}).

(** [startResize].  Its parameter type [ImageSyntaxInfo] has the fields of
    [ParsedImageInfo]; its only caller passes a result of the parser. *)
Definition startResize (this : t) (page : Page) (event : MouseEvent)
           (imgElement : HTMLImageElement) (lineInfo : LineDetails)
           (parsedInfo : ParsedImageInfo) : result (t * Page) :=
  let info := {| dragged_path := Some (path parsedInfo);
                 dragged_altText := altText parsedInfo;
                 sourceWidth := specifiedWidth parsedInfo;
                 sourceHeight := specifiedHeight parsedInfo |} in
  let width0 := match specifiedWidth parsedInfo with
                | Some w => if (w =? 0)%N then offsetWidth imgElement else w
                | None => offsetWidth imgElement
                end in
  let initialImageWidth' := if (width0 =? 0)%N then 200%N else width0 in
  let rect := boundingClientRect imgElement in
  let cx := (left rect + width rect / 2)%Q in
  let cy := (top rect + height rect / 2)%Q in
  let dist := distanceToCenter cx cy event in
  let armed (zoom : N) (v : EditorView) :=
    Ok ({| isDragging := true;
           initialImageWidth := initialImageWidth';
           initialImageHeight := initialImageHeight this;
           currentZoomPercent := zoom;
           lineInfoAtDragStart := Some lineInfo;
           draggedImageInfo := Some info;
           imageCenterX := cx;
           imageCenterY := cy;
           initialDistanceToCenter := dist;
           activeImgElement := Some imgElement |},
        {| view := v; mousemove_listener := true; mouseup_listener := true |}) in
  if isHtml parsedInfo then
    armed (match Utils.currentZoomPercent parsedInfo with
           | Some z => z
           | None => 100%N
           end) (view page)
  else
    let a := lineFrom lineInfo + startIndexInLine parsedInfo in
    let b := a + List.length (originalMatch parsedInfo) in
    match dispatch (view page)
            {| changes := {| change_from := a; change_to := b;
                             insert := newImgTag info 100 |};
               selection_anchor := selection_head (view page);
               userEvent := "image.resize.convert" |} with
    | Ok v => armed 100%N v
    | RangeError => RangeError
    end.

(** The zoom a pointer move previews (the arithmetic of
    [handleDocumentMouseMove]). *)
Definition zoomSensitivity : Q := (2 # 10)%Q.

Definition newZoom (this : t) (currentDistanceToCenter : Q) : Z :=
  let distanceChange := (currentDistanceToCenter - initialDistanceToCenter this)%Q in
  let zoomDelta := (distanceChange * zoomSensitivity)%Q in
  let z := Math_round (inject_Z (Z.of_N (currentZoomPercent this)) + zoomDelta)%Q in
  Z.max 10 (Z.min z 500).

Definition handleDocumentMouseMove (this : t) (page : Page) (event : MouseEvent)
  : t * Page :=
  match activeImgElement this, lineInfoAtDragStart this, draggedImageInfo this with
  | Some img, Some _, Some info =>
      if isDragging this && truthy_opt (dragged_path info) then
        let z := newZoom this (distanceToCenter (imageCenterX this) (imageCenterY this) event) in
        ({| isDragging := isDragging this;
            initialImageWidth := initialImageWidth this;
            initialImageHeight := initialImageHeight this;
            currentZoomPercent := currentZoomPercent this;
            lineInfoAtDragStart := lineInfoAtDragStart this;
            draggedImageInfo := draggedImageInfo this;
            imageCenterX := imageCenterX this;
            imageCenterY := imageCenterY this;
            initialDistanceToCenter := initialDistanceToCenter this;
            activeImgElement :=
              Some {| offsetWidth := offsetWidth img;
                      boundingClientRect := boundingClientRect img;
                      style_zoom := toString (Z.to_N z) ++ chars "%";
                      style_cursor := style_cursor img;
                      posAtDOM := posAtDOM img |} |},
         page)
      else resetState this page
  | _, _, _ => resetState this page
  end.

(** [new RegExp(...)] of [handleDocumentMouseUp], flag [i]:
    [<img\s+src=(?:Q path Q|path)[^>]*>], where the source text of the
    pattern holds [escapeRegExp(path)], which the constructor reads back
    as the code units of [path] themselves. *)
Definition imgTagToReplaceRegex (p : jsstring) : regex :=
  seq [ lit_i (chars "<img"); Plus true is_space; lit_i (chars "src=");
        Alt (seq [Class quote; lit_i p; Class quote]) (lit_i p);
        Star true not_gt; lit_i (chars ">") ].

Definition handleDocumentMouseUp (this : t) (page : Page) (event : MouseEvent)
  : result (t * Page) :=
  match activeImgElement this, lineInfoAtDragStart this, draggedImageInfo this with
  | Some img, Some lineInfo, Some info =>
      if isDragging this then
        let finalZoomMatch := exec (Group 1 (Plus true is_digit)) (style_zoom img) in
        let finalZoomPercent :=
          match captured_int finalZoomMatch with
          | Some z => z
          | None => currentZoomPercent this
          end in
        let finalZoomPercent := N.max 10 (N.min finalZoomPercent 500) in
        let newImgTagFinal := newImgTag info finalZoomPercent in
        let path_or_empty := match dragged_path info with Some p => p | None => [] end in
        match lineAt (view page) (lineFrom lineInfo) with
        | RangeError => RangeError
        | Ok line =>
            let currentLineContent := text line in
            let target :=
              match exec (imgTagToReplaceRegex path_or_empty) currentLineContent with
              | Some matchForUpdate =>
                  let fromPos := lineFrom lineInfo + index matchForUpdate in
                  Some (fromPos, fromPos + List.length (matched matchForUpdate))
              | None =>
                  match parseImageSyntaxFromLine (lineText lineInfo) with
                  | Some originalSyntaxInfo =>
                      match dragged_path info with
                      | Some p =>
                          if list_eq_dec ascii_dec (path originalSyntaxInfo) p then
                            let fromPos := lineFrom lineInfo + startIndexInLine originalSyntaxInfo in
                            Some (fromPos, fromPos + List.length (originalMatch originalSyntaxInfo))
                          else None
                      | None => None
                      end
                  | None => None
                  end
              end in
            match target with
            | Some (fromPos, toPos) =>
                match dispatch (view page)
                        {| changes := {| change_from := fromPos; change_to := toPos;
                                         insert := newImgTagFinal |};
                           selection_anchor := selection_head (view page);
                           userEvent := "image.resize.update" |} with
                | Ok v => Ok (resetState this {| view := v;
                                                 mousemove_listener := mousemove_listener page;
                                                 mouseup_listener := mouseup_listener page |})
                | RangeError => RangeError
                end
            | None => Ok (resetState this page)
            end
        end
      else Ok (resetState this page)
  | _, _, _ => Ok (resetState this page)
  end.

(** [update]: [docChanged] is the flag of the view update, [inBody] the
    answer of [document.body.contains]; the hovered image passed along is
    not read.  The comparison of the line texts has an empty body. *)
Definition update (this : t) (page : Page) (docChanged : bool)
           (inBody : HTMLImageElement -> bool) : t * Page :=
  if isDragging this && docChanged then
    let detached := match activeImgElement this with
                    | Some imgElement => negb (inBody imgElement)
                    | None => false
                    end in
    if detached then resetState this page
    else
      match lineInfoAtDragStart this with
      | Some lineInfo =>
          match lineAt (view page) (pos lineInfo) with
          | Ok _ => (this, page)
          | RangeError => resetState this page
          end
      | None => (this, page)
      end
  else (this, page).

Definition destroy (this : t) (page : Page) : t * Page :=
  (this, {| view := view page; mousemove_listener := false; mouseup_listener := false |}).

End Methods.

End ImageResizeController.

(** ** image-hover-controller.ts: the press that arms a drag *)

Fixpoint isPrefixOf (w s : jsstring) : bool :=
  match w, s with
  | [], _ => true
  | a :: w', b :: s' => Ascii.eqb a b && isPrefixOf w' s'
  | _ :: _, [] => false
  end.

(** [String.prototype.includes] *)
Fixpoint includes (s w : jsstring) : bool :=
  isPrefixOf w s || match s with [] => false | _ :: s' => includes s' w end.

Definition handleImageSpecificMouseDown (Math_sqrt : Q -> Q)
           (resizeController : ImageResizeController.t) (page : Page)
           (event : MouseEvent) (imgElement : HTMLImageElement)
  : result (ImageResizeController.t * Page) :=
  let cursorStyle := style_cursor imgElement in
  if truthy cursorStyle && includes cursorStyle (chars "-resize") then
    match getLineInfoFromElement (view page) imgElement with
    | None => Ok (resizeController, page)
    | Some lineInfo =>
        match parseImageSyntaxFromLine (lineText lineInfo) with
        | None => Ok (resizeController, page)
        | Some parsedInfo =>
            ImageResizeController.startResize Math_sqrt resizeController page event
              imgElement lineInfo parsedInfo
        end
    end
  else Ok (resizeController, page).

(** [x < y] on the coordinates *)
Definition Qlt_bool (x y : Q) : bool := negb (Qle_bool y x).

(** [handleImageSpecificMouseMove]: the cursor tells how near an edge the
    pointer is; the element comes back with its new cursor style. *)
Definition sensitivity : Q := 8%Q.

Definition edgeCursor (rect : DOMRect) (event : MouseEvent) : jsstring :=
  let x := (clientX event - left rect)%Q in
  let y := (clientY event - top rect)%Q in
  let onLeftEdge := Qlt_bool x sensitivity in
  let onRightEdge := Qlt_bool (width rect - sensitivity)%Q x in
  let onTopEdge := Qlt_bool y sensitivity in
  let onBottomEdge := Qlt_bool (height rect - sensitivity)%Q y in
  if onTopEdge && onLeftEdge then chars "nwse-resize"
  else if onTopEdge && onRightEdge then chars "nesw-resize"
  else if onBottomEdge && onLeftEdge then chars "nesw-resize"
  else if onBottomEdge && onRightEdge then chars "nwse-resize"
  else if onLeftEdge || onRightEdge then chars "ew-resize"
  else if onTopEdge || onBottomEdge then chars "ns-resize"
  else chars "grab".

Definition set_cursor (imgElement : HTMLImageElement) (cursor : jsstring) : HTMLImageElement :=
  {| offsetWidth := offsetWidth imgElement;
     boundingClientRect := boundingClientRect imgElement;
     style_zoom := style_zoom imgElement;
     style_cursor := cursor;
     posAtDOM := posAtDOM imgElement |}.

Definition handleImageSpecificMouseMove (resizeController : ImageResizeController.t)
           (event : MouseEvent) (imgElement : HTMLImageElement) : HTMLImageElement :=
  if ImageResizeController.getIsDragging resizeController then imgElement
  else set_cursor imgElement (edgeCursor (boundingClientRect imgElement) event).

Definition handleImageSpecificMouseLeave (resizeController : ImageResizeController.t)
           (imgElement : HTMLImageElement) : HTMLImageElement :=
  if ImageResizeController.getIsDragging resizeController then imgElement
  else set_cursor imgElement [].


(** * Notions used to state and prove the properties *)

Import ImageResizeController.

(** The characters that would end an attribute value or open a tag. *)
Definition markup_char (x : ascii) : Prop :=
  x = "<"%char \/ x = ">"%char \/ x = dq \/ x = "'"%char.

(** Every character of [s] is of class [q]. *)
Definition all (q : ascii -> bool) (s : jsstring) : Prop := Forall (fun ch => q ch = true) s.

(** Nothing of class [q] comes first in [s]. *)
Definition stops (q : ascii -> bool) (s : jsstring) : Prop :=
  match s with
  | [] => True
  | ch :: _ => q ch = false
  end.

(** Literal text: a list of classes, one per character. *)
Definition pattern := list (ascii -> bool).

(** [s] starts with text the pattern accepts. *)
Fixpoint occurs_at (pat : pattern) (s : jsstring) : bool :=
  match pat, s with
  | [], _ => true
  | q :: pat', b :: s' => q b && occurs_at pat' s'
  | _ :: _, [] => false
  end.

(** The pattern of a literal text, and of one under the [i] flag. *)
Definition exactly (w : string) : pattern := map is_char (chars w).

Definition exactly_i (w : jsstring) : pattern := map is_char_i w.

(** The longest prefix in a class, and what follows it. *)
Fixpoint span (q : ascii -> bool) (s : jsstring) : jsstring * jsstring :=
  match s with
  | a :: s' => if q a then let (u, v) := span q s' in (a :: u, v) else ([], s)
  | [] => ([], [])
  end.

(** Spec: a suffix of the form [<int>] or [<int>x<int>], and nothing else,
    is a pair of dimensions; this follows the words of the specification
    and is compared with [dimRegex] below. *)
Definition dimension_suffix (s : jsstring) : option (jsstring * option jsstring) :=
  match span is_digit s with
  | ([], _) => None
  | (w, []) => Some (w, None)
  | (w, x :: h) =>
      if Ascii.eqb x "x" then
        match span is_digit h with
        | (_ :: _, []) => Some (w, Some h)
        | _ => None
        end
      else None
  end.

(** A non-empty string of decimal digits. *)
Definition digits (w : jsstring) : Prop := w <> [] /\ all is_digit w.

(** The optional part of [dimRegex]: [(?:x(\d+))?]. *)
Definition dim_height : regex :=
  Opt (Seq (Class (is_char "x")) (Group 2 (Plus true is_digit))).

(** The line [![[p|s]]]. *)
Definition wikilink (p s : jsstring) : jsstring :=
  chars "![[" ++ p ++ chars "|" ++ s ++ chars "]]".

(** The pattern accepts some substring of [s]. *)
Fixpoint occurs (pat : pattern) (s : jsstring) : bool :=
  occurs_at pat s || match s with [] => false | _ :: s' => occurs pat s' end.

(** A character no class of the pattern accepts. *)
Definition foreign (pat : pattern) (b : ascii) : bool :=
  negb (existsb (fun q => q b) pat).

(** [v] is empty or starts with a foreign character. *)
Definition foreign_head (pat : pattern) (v : jsstring) : Prop :=
  match v with
  | [] => True
  | b :: _ => foreign pat b = true
  end.

(** A blank followed by [src=], in any letter case. *)
Definition blank_src : pattern := is_space :: exactly_i (chars "src=").

(** The two characters that open a Markdown or a Wikilink reference. *)
Definition bang_bracket : pattern := exactly "![".

(** The tag, character after character. *)
Definition img_tag (p ea st : jsstring) : jsstring :=
  chars "<img src=" ++ dq :: p ++ dq :: chars " alt=" ++ dq :: ea ++ dq
    :: chars " style=" ++ dq :: st ++ dq :: chars ">".

(** The style the rewriter writes for a width, a height and a zoom given
    in digits. *)
Definition style_of (w h z : jsstring) : jsstring :=
  chars "width: " ++ w ++ chars "px; height: " ++ h ++ chars "px; zoom: " ++ z ++ chars "%;".

(** The tag rendered for a path, an alternative text, a width, a height and
    a zoom: [newImgTag] on a session that holds them. *)
Definition rendered (p a : jsstring) (W H Z : N) : jsstring :=
  newImgTag {| dragged_path := Some p; dragged_altText := Some a;
               sourceWidth := Some W; sourceHeight := Some H |} Z.

(** The round trip the specification asks for, at one rendering. *)
Definition round_trips (p a : jsstring) (W H Z : N) : Prop :=
  exists r,
    parseImageSyntaxFromLine (rendered p a W H Z) = Some r
    /\ specifiedWidth r = Some W /\ specifiedHeight r = Some H
    /\ Utils.currentZoomPercent r = Some Z /\ path r = p.

(** The tag rendered from the path [img.png] and the alternative text
    [see src=x], at 200 by 100 and zoom 150. *)
Definition misread_tag : jsstring :=
  rendered (chars "img.png") (chars "see src=x") 200 100 150.

(** [k] fails on [s] and on every suffix of it. *)
Definition dead (k : cont) (s : jsstring) : Prop :=
  forall n j c, k j (skipn n s) c = None.

(** A Markdown reference needs the characters [](] in a row. *)
Definition bracket_paren : pattern := exactly "](".

(** A line whose HTML tag comes first and whose Markdown reference comes
    second. *)
Definition html_then_markdown : jsstring :=
  chars "<img src=" ++ quoted (chars "a.png") ++ chars "> ![x](b.png)".

(** A page at rest showing document [d], an image under a resize cursor
    at document position [p], and a pointer event. *)
Definition idle_page (d : jsstring) : Page :=
  {| view := {| doc := d; selection_head := 0; dispatched := []; head_in_doc := eq_refl |};
     mousemove_listener := false; mouseup_listener := false |}.

Definition an_image (cursor : string) (p : nat) : HTMLImageElement :=
  {| offsetWidth := 320;
     boundingClientRect := {| left := 10; top := 20; width := 320; height := 200 |};
     style_zoom := [];
     style_cursor := chars cursor;
     posAtDOM := Some p |}.

Definition pointer_at (x y : Z) : MouseEvent :=
  {| clientX := inject_Z x; clientY := inject_Z y |}.

(** A session whose snapshot no longer names its image: [startResize] was
    handed the parse of an img tag together with the details of a line of
    plain text, which is also what the document holds at release. *)
Definition lost_session : t :=
  {| isDragging := true; initialImageWidth := 320; initialImageHeight := 0;
     currentZoomPercent := 100;
     lineInfoAtDragStart :=
       Some {| pos := 0; lineText := chars "plain text"; lineFrom := 0; lineTo := 10 |};
     draggedImageInfo :=
       Some {| dragged_path := Some (chars "x.png"); dragged_altText := None;
               sourceWidth := None; sourceHeight := None |};
     imageCenterX := 170; imageCenterY := 120; initialDistanceToCenter := 0;
     activeImgElement := Some (an_image "ew-resize" 0) |}.

(** What C9 asks of the parse of one line: a path and an alternative text
    with no blank at either end. *)
Definition trimmed_parse (line : jsstring) : Prop :=
  forall r, parseImageSyntaxFromLine line = Some r ->
            trim (path r) = path r /\ forall a, altText r = Some a -> trim a = a.

(** The line of the upgrade scenario and the tag it becomes. *)
Definition markdown_line : jsstring := chars "![cap](img.png)".

Definition upgraded_tag : jsstring :=
  chars "<img src=" ++ quoted (chars "img.png") ++ chars " alt=" ++ quoted (chars "cap")
  ++ chars " style=" ++ quoted (chars "zoom: 100%;") ++ chars ">".

(** The line of the scenario with a zoom already recorded. *)
Definition zoomed_tag_line : jsstring :=
  chars "<img src=" ++ quoted (chars "x.png") ++ chars " style=" ++ quoted (chars "zoom: 80%;")
  ++ chars ">".

(** A root for the runs below, exact on the squares of integers. *)
Definition integer_sqrt (q : Q) : Q := inject_Z (Z.sqrt (Qfloor q)).

(** The document a gesture leaves behind, when the handlers do not throw. *)
Definition document_after (r : result (t * Page)) : option jsstring :=
  match r with
  | Ok (_, page) => Some (doc (view page))
  | RangeError => None
  end.

(** Press on the image of a line, move the pointer, release. *)
Definition gesture (line : jsstring) (press move : MouseEvent) : result (t * Page) :=
  match handleImageSpecificMouseDown integer_sqrt init (idle_page line) press
          (an_image "ew-resize" 0) with
  | Ok (armed, page) =>
      let (dragging, page') := handleDocumentMouseMove integer_sqrt armed page move in
      handleDocumentMouseUp dragging page' move
  | RangeError => RangeError
  end.

(** The least number of characters a pattern consumes. *)
Fixpoint min_length (r : regex) : nat :=
  match r with
  | Class _ | Plus _ _ => 1
  | Seq r1 r2 => min_length r1 + min_length r2
  | Alt r1 r2 => Nat.min (min_length r1) (min_length r2)
  | Group _ r1 => min_length r1
  | Empty | Star _ _ | Opt _ | Bol | Eol => 0
  end.

(** The text between two positions of a line. *)
Definition slice (s : jsstring) (a b : nat) : jsstring := firstn (b - a) (skipn a s).

(** The four characters that open an img tag, in any letter case. *)
Definition img_open : pattern := exactly_i (chars "<img").

(** The transaction that replaces [a .. b] by [ins] and keeps the selection
    head. *)
Definition replacement (v : EditorView) (a b : nat) (ins : jsstring) (ev : string)
  : TransactionSpec :=
  {| changes := {| change_from := a; change_to := b; insert := ins |};
     selection_anchor := selection_head v;
     userEvent := ev |}.

(** What such a transaction does to a document [pre ++ w ++ post] when it
    replaces [w]: it succeeds when the selection head still lies inside the
    new document, and is refused otherwise. *)
Definition replaces (v : EditorView) (tr : TransactionSpec) (pre ins post : jsstring) : Prop :=
  (selection_head v <= List.length (pre ++ ins ++ post) ->
   exists v', dispatch v tr = Ok v'
              /\ doc v' = pre ++ ins ++ post
              /\ selection_head v' = selection_head v
              /\ dispatched v' = dispatched v ++ [tr])
  /\ (List.length (pre ++ ins ++ post) < selection_head v -> dispatch v tr = RangeError).

(** The session's copy of a parse. *)
Definition snapshot (r : ParsedImageInfo) : DraggedImageInfo :=
  {| dragged_path := Some (path r); dragged_altText := altText r;
     sourceWidth := specifiedWidth r; sourceHeight := specifiedHeight r |}.

(** A Wikilink whose path is followed by fifty blanks makes up the
    document, the cursor stands at its end: the tag is sixteen characters
    shorter than the reference and the press is refused. *)
Definition padded_wikilink : jsstring := chars "![[a" ++ repeat " "%char 50 ++ chars "]]".

(** The zoom a release commits. *)
Definition finalZoom (this : t) (img : HTMLImageElement) : N :=
  N.max 10 (N.min (match captured_int (exec (Group 1 (Plus true is_digit)) (style_zoom img)) with
                   | Some z => z
                   | None => currentZoomPercent this
                   end) 500).

(** The one transaction a release may dispatch. *)
Definition update_with (v : EditorView) (a b : nat) (ins : jsstring) : TransactionSpec :=
  {| changes := {| change_from := a; change_to := b; insert := ins |};
     selection_anchor := selection_head v;
     userEvent := "image.resize.update" |}.

(** A session on the line [<img src=Qimg.pngQ alt=QcapQ style=Qzoom: 100%;Q>]
    (Q the double quote), armed with the pointer 160 pixels from the centre
    of the image. *)
Definition running_session : t :=
  {| isDragging := true; initialImageWidth := 320; initialImageHeight := 0;
     currentZoomPercent := 100;
     lineInfoAtDragStart :=
       Some {| pos := 0; lineText := markdown_line; lineFrom := 0; lineTo := 15 |};
     draggedImageInfo :=
       Some {| dragged_path := Some (chars "img.png"); dragged_altText := Some (chars "cap");
               sourceWidth := None; sourceHeight := None |};
     imageCenterX := 170; imageCenterY := 120; initialDistanceToCenter := 160;
     activeImgElement := Some (an_image "ew-resize" 0) |}.

(** A line that holds the tag of [running_session] between other text. *)
Definition tag_in_text : jsstring := chars "see " ++ upgraded_tag ++ chars " here".

(** The tag of [running_session] makes up the document, the cursor stands
    at its end and the element shows a zoom of 70: the new tag is one
    character shorter and the release is refused. *)
Definition shrunk_image : HTMLImageElement :=
  {| offsetWidth := 320;
     boundingClientRect := {| left := 10; top := 20; width := 320; height := 200 |};
     style_zoom := chars "70%";
     style_cursor := chars "ew-resize";
     posAtDOM := Some 0 |}.

(** The pointer is less than eight pixels inside one of the four edges of
    the rectangle, or outside of it. *)
Definition near_an_edge (rect : DOMRect) (event : MouseEvent) : Prop :=
  (clientX event - left rect < 8 \/ width rect - 8 < clientX event - left rect
   \/ clientY event - top rect < 8 \/ height rect - 8 < clientY event - top rect)%Q.

(** Patterns without [^]. *)
Fixpoint unanchored (r : regex) : bool :=
  match r with
  | Bol => false
  | Seq r1 r2 | Alt r1 r2 => unanchored r1 && unanchored r2
  | Opt r1 | Group _ r1 => unanchored r1
  | Empty | Class _ | Star _ _ | Plus _ _ | Eol => true
  end.

(** An outcome reported [d] positions further on. *)
Definition later (d : nat) (v : option (nat * captures)) : option (nat * captures) :=
  match v with
  | Some (e, c) => Some (e + d, c)
  | None => None
  end.

(** [k'] does at position [j + d] what [k] does at position [j]. *)
Definition shifted (d : nat) (k k' : cont) : Prop :=
  forall j s c, k' (j + d) s c = later d (k j s c).

(** A match reported [d] positions further on. *)
Definition moved (d : nat) (mt : MatchResult) : MatchResult :=
  {| index := index mt + d; matched := matched mt; groups := groups mt |}.

(** A parse reported [d] positions further on. *)
Definition at_offset (d : nat) (r : ParsedImageInfo) : ParsedImageInfo :=
  {| path := path r; altText := altText r;
     specifiedWidth := specifiedWidth r; specifiedHeight := specifiedHeight r;
     originalMatch := originalMatch r;
     startIndexInLine := startIndexInLine r + d;
     isHtml := isHtml r;
     Utils.currentZoomPercent := Utils.currentZoomPercent r |}.

(** The first character of a reference: [!] or [<]. *)
Definition opens_reference (rest : jsstring) : Prop :=
  match rest with
  | a :: _ => a = "!"%char \/ a = "<"%char
  | [] => False
  end.

(** What the Markdown pattern has after the alternative text:
    [(?:\|(\d+(?:x\d+)?))?\]\(([^)]+)\)]. *)
Definition markdown_tail : regex :=
  Seq (Opt (Seq (lit "|")
                (Group 2 (Seq (Plus true is_digit) (Opt (Seq (lit "x") (Plus true is_digit)))))))
      (Seq (lit "](") (Seq (Group 3 (Plus true not_rparen)) (lit ")"))).

(** A character of an alternative text that is plainly one: no line
    terminator, no bar, no closing bracket. *)
Definition alt_char (ch : ascii) : bool := is_dot ch && not_pipe_bracket ch.

(** The text of a pair of dimensions: nothing, [|W] or [|WxH]. *)
Definition dims_text (d : option (jsstring * option jsstring)) : jsstring :=
  match d with
  | None => []
  | Some (w, None) => "|"%char :: w
  | Some (w, Some h) => "|"%char :: w ++ "x"%char :: h
  end.

Definition dims_ok (d : option (jsstring * option jsstring)) : Prop :=
  match d with
  | None => True
  | Some (w, None) => digits w
  | Some (w, Some h) => digits w /\ digits h
  end.

Definition dims_captures (d : option (jsstring * option jsstring)) : captures :=
  match d with
  | None => []
  | Some _ => [(2, List.tl (dims_text d))]
  end.

(** The line [![a d](p)]. *)
Definition markdown_ref (a d p : jsstring) : jsstring :=
  chars "![" ++ a ++ d ++ chars "](" ++ p ++ chars ")".

(** The parse of a Markdown reference with a plain alternative text. *)
Definition markdown_parse (a : jsstring) (d : option (jsstring * option jsstring))
           (p : jsstring) : ParsedImageInfo :=
  {| path := trim p;
     altText := Some a;
     specifiedWidth := match d with Some (w, _) => Some (parseInt w) | None => None end;
     specifiedHeight := match d with Some (_, Some h) => Some (parseInt h) | _ => None end;
     originalMatch := markdown_ref a (dims_text d) p;
     startIndexInLine := 0;
     isHtml := false;
     Utils.currentZoomPercent := None |}.

(** The line [![[p]]]. *)
Definition bare_wikilink (p : jsstring) : jsstring := chars "![[" ++ p ++ chars "]]".

(** The entity [escapeHtml] writes for one character. *)
Definition entity (ch : ascii) : jsstring :=
  if Ascii.eqb ch "&" then chars "&amp;"
  else if Ascii.eqb ch "<" then chars "&lt;"
  else if Ascii.eqb ch ">" then chars "&gt;"
  else if Ascii.eqb ch dq then chars "&quot;"
  else if Ascii.eqb ch "'" then chars "&#039;"
  else [ch].

(** Reading entities back: after an ampersand, the characters of the
    entity are skipped. *)
Fixpoint unescapeHtml (skip : nat) (s : jsstring) : jsstring :=
  match s with
  | [] => []
  | ch :: s' =>
      match skip with
      | S k => unescapeHtml k s'
      | 0 =>
          if isPrefixOf (chars "&amp;") s then "&"%char :: unescapeHtml 4 s'
          else if isPrefixOf (chars "&lt;") s then "<"%char :: unescapeHtml 3 s'
          else if isPrefixOf (chars "&gt;") s then ">"%char :: unescapeHtml 3 s'
          else if isPrefixOf (chars "&quot;") s then dq :: unescapeHtml 5 s'
          else if isPrefixOf (chars "&#039;") s then "'"%char :: unescapeHtml 5 s'
          else ch :: unescapeHtml 0 s'
      end
  end.

(** Reading a pattern text: a backslash makes the next character literal. *)
Fixpoint unescapeRegExp (s : jsstring) : jsstring :=
  match s with
  | [] => []
  | ch :: s' =>
      if Ascii.eqb ch "\" then
        match s' with
        | c :: s'' => c :: unescapeRegExp s''
        | [] => [ch]
        end
      else ch :: unescapeRegExp s'
  end.

(** The fourteen characters of the class in [escapeRegExp]. *)
Definition metacharacters : jsstring := chars ".*+?^${}()|[]\".

(** The style the rewriter writes when the reference had no dimensions. *)
Definition zoom_style (z : jsstring) : jsstring := chars "zoom: " ++ z ++ chars "%;".

(** The session data of a reference without dimensions. *)
Definition undimensioned (p a : jsstring) : DraggedImageInfo :=
  {| dragged_path := Some p; dragged_altText := Some a;
     sourceWidth := None; sourceHeight := None |}.

(** The tag [<img src=QpathQ>], where each Q is a double or a single
    quote. *)
Definition bare_tag (q1 : ascii) (p : jsstring) (q2 : ascii) : jsstring :=
  chars "<img src=" ++ q1 :: p ++ q2 :: chars ">".

(** * The scenarios of the specification, run on the model *)

(** Markdown upgrade: the press rewrites the reference with zoom 100; moving
    the pointer 250 pixels away from the centre adds 50 to the zoom. *)
Example scenario_markdown_upgrade :
  document_after (handleImageSpecificMouseDown integer_sqrt init (idle_page markdown_line)
                    (pointer_at 330 120) (an_image "ew-resize" 0))
    = Some upgraded_tag
  /\ document_after (gesture markdown_line (pointer_at 330 120) (pointer_at 580 120))
     = Some (chars "<img src=" ++ quoted (chars "img.png") ++ chars " alt="
             ++ quoted (chars "cap") ++ chars " style=" ++ quoted (chars "zoom: 150%;")
             ++ chars ">").
Proof. split; vm_compute; reflexivity. Qed.

(** Wikilink with dimensions: width and height go to the style as they are. *)
Example scenario_wikilink_with_dims :
  document_after (handleImageSpecificMouseDown integer_sqrt init
                    (idle_page (chars "![[pic.jpg|200x100]]"))
                    (pointer_at 330 120) (an_image "ew-resize" 0))
    = Some (chars "<img src=" ++ quoted (chars "pic.jpg") ++ chars " alt=" ++ quoted []
            ++ chars " style=" ++ quoted (chars "width: 200px; height: 100px; zoom: 100%;")
            ++ chars ">").
Proof. vm_compute. reflexivity. Qed.

(** An image that does not show a resize cursor is not armed. *)
Example scenario_no_resize_cursor :
  handleImageSpecificMouseDown integer_sqrt init (idle_page markdown_line)
    (pointer_at 100 100) (an_image "grab" 0)
  = Ok (init, idle_page markdown_line).
Proof. reflexivity. Qed.

(** The optional alternative text of the Markdown pattern never matches the
    empty string (the empty check of the repetition), so with no text in
    front of the bar the bar and the dimensions are read as the text. *)
Example markdown_bar_without_text :
  option_map (fun r => (altText r, specifiedWidth r)) (parseMarkdown (chars "![|3x4](c)"))
  = Some (Some (chars "|3x4"), None)
  /\ option_map (fun r => (altText r, specifiedWidth r, specifiedHeight r))
       (parseMarkdown (chars "![cap|3x4](c)"))
     = Some (Some (chars "cap"), Some 3%N, Some 4%N).
Proof. split; vm_compute; reflexivity. Qed.

(** [lineAt] on a document of three lines. *)
Example lineAt_three_lines :
  let v := {| doc := chars "hello" ++ ["010"%char] ++ markdown_line ++ ["010"%char] ++ chars "bye";
              selection_head := 0; dispatched := []; head_in_doc := eq_refl |} in
  lineAt v 5 = Ok {| from := 0; to := 5; text := chars "hello" |}
  /\ lineAt v 6 = Ok {| from := 6; to := 21; text := markdown_line |}
  /\ lineAt v 25 = Ok {| from := 22; to := 25; text := chars "bye" |}
  /\ lineAt v 26 = RangeError.
Proof. repeat split. Qed.

(** * Properties *)

(** ** escapeHtml *)

Lemma in_replaceAll (x c : ascii) (w s : jsstring) :
  In x (replaceAll c w s) -> (x <> c /\ In x s) \/ In x w.
Proof.
  unfold replaceAll. rewrite in_flat_map. intros [ch [Hin Hx]].
  destruct (Ascii.eqb ch c) eqn:E.
  - now right.
  - left. destruct Hx as [<- | []]. split; [|assumption].
    intros ->. now rewrite Ascii.eqb_refl in E.
Qed.

Lemma escapeHtml_no_markup (s : jsstring) (x : ascii) :
  markup_char x -> ~ In x (escapeHtml s).
Proof.
  intros Hx Hin. unfold escapeHtml in Hin.
  repeat match goal with
         | H : In _ (replaceAll _ _ _) |- _ =>
             apply in_replaceAll in H; destruct H as [[? H] | H]
         end;
    destruct Hx as [-> | [-> | [-> | ->]]]; simpl in *; unfold dq in *;
    intuition congruence.
Qed.

(** ** The clamp of the previewed zoom *)

Lemma clamp_bounds (z : Z) : (10 <= Z.max 10 (Z.min z 500) <= 500)%Z.
Proof. lia. Qed.

(** ** The text engine: what a transaction does *)

Lemma checkSelection_eq (d : jsstring) (head : nat) (log : list TransactionSpec)
      (b : bool) (E : (head <=? List.length d) = b) :
  checkSelection d head log
  = match b as b' return ((head <=? List.length d) = b' -> result EditorView) with
    | true => fun H => Ok {| doc := d; selection_head := head; dispatched := log;
                             head_in_doc := H |}
    | false => fun _ => RangeError
    end E.
Proof. subst b. reflexivity. Qed.

Lemma checkSelection_inside (d : jsstring) (head : nat) (log : list TransactionSpec) :
  head <= List.length d ->
  exists v, checkSelection d head log = Ok v
            /\ doc v = d /\ selection_head v = head /\ dispatched v = log.
Proof.
  intros H. apply Nat.leb_le in H. rewrite (checkSelection_eq d head log true H).
  eexists. split; [reflexivity|]. repeat split.
Qed.

Lemma checkSelection_outside (d : jsstring) (head : nat) (log : list TransactionSpec) :
  List.length d < head -> checkSelection d head log = RangeError.
Proof.
  intros H. apply Nat.leb_gt in H. now rewrite (checkSelection_eq d head log false H).
Qed.

(** The selection of a view lies inside its document. *)
Lemma selection_inside (v : EditorView) : selection_head v <= List.length (doc v).
Proof. apply Nat.leb_le. apply head_in_doc. Qed.

Lemma dispatch_inside (v : EditorView) (tr : TransactionSpec) :
  change_from (changes tr) <= change_to (changes tr) ->
  change_to (changes tr) <= List.length (doc v) ->
  selection_anchor tr
    <= List.length (replaceRange (doc v) (change_from (changes tr)) (change_to (changes tr))
                                 (insert (changes tr))) ->
  exists v', dispatch v tr = Ok v'
             /\ doc v' = replaceRange (doc v) (change_from (changes tr))
                                      (change_to (changes tr)) (insert (changes tr))
             /\ selection_head v' = selection_anchor tr
             /\ dispatched v' = dispatched v ++ [tr].
Proof.
  intros H1 H2 H3. unfold dispatch.
  apply Nat.leb_le in H1. apply Nat.leb_le in H2. rewrite H1, H2. cbn [andb].
  now apply checkSelection_inside.
Qed.

Lemma dispatch_outside (v : EditorView) (tr : TransactionSpec) :
  List.length (replaceRange (doc v) (change_from (changes tr)) (change_to (changes tr))
                            (insert (changes tr))) < selection_anchor tr ->
  dispatch v tr = RangeError.
Proof.
  intros H. unfold dispatch.
  destruct ((change_from (changes tr) <=? change_to (changes tr))
            && (change_to (changes tr) <=? List.length (doc v))); [|reflexivity].
  now apply checkSelection_outside.
Qed.

Lemma replaceRange_length (d ins : jsstring) (a b : nat) :
  a <= b -> b <= List.length d ->
  List.length (replaceRange d a b ins) = List.length d - (b - a) + List.length ins.
Proof.
  intros H1 H2. unfold replaceRange.
  rewrite !length_app, length_firstn, length_skipn. lia.
Qed.

(** ** How the matcher runs *)

Section Matcher.

Variable p : ascii -> bool.

(** A greedy repetition takes the whole run when the rest of the pattern
    then succeeds. *)
Lemma star_greedy_run (k : cont) (run rest : jsstring) :
  all p run -> stops p rest ->
  forall i c v,
    k (i + List.length run) rest c = Some v ->
    star_greedy p k i (run ++ rest) c = Some v.
Proof.
  intros Hrun Hrest. induction Hrun as [|a run Ha _ IH]; intros i c v Hk.
  - simpl in *. rewrite Nat.add_0_r in Hk.
    destruct rest as [|b rest]; simpl; [assumption|].
    simpl in Hrest. rewrite Hrest. assumption.
  - simpl. rewrite Ha. rewrite (IH (S i) c v); [reflexivity|].
    simpl in Hk. now rewrite Nat.add_succ_r in Hk.
Qed.

(** It takes the whole run and nothing else when the rest of the pattern
    cannot start on a character of the class. *)
Lemma star_greedy_maximal (k : cont) (run rest : jsstring) :
  all p run -> stops p rest ->
  (forall j a t c, p a = true -> k j (a :: t) c = None) ->
  forall i c,
    star_greedy p k i (run ++ rest) c = k (i + List.length run) rest c.
Proof.
  intros Hrun Hrest Hk. induction Hrun as [|a run Ha _ IH]; intros i c.
  - simpl. rewrite Nat.add_0_r.
    destruct rest as [|b rest]; simpl; [reflexivity|].
    simpl in Hrest. now rewrite Hrest.
  - simpl. rewrite Ha, (IH (S i) c), Nat.add_succ_r. simpl.
    destruct (k (S (i + List.length run)) rest c); [reflexivity|].
    now apply Hk.
Qed.

(** A repetition fails when the rest of the pattern fails wherever the
    repetition may stop. *)
Lemma star_fails (g : bool) (k : cont) (s : jsstring) :
  forall i c,
    (forall n, n <= List.length s -> k (i + n) (skipn n s) c = None) ->
    star g p k i s c = None.
Proof.
  induction s as [|a s IH]; intros i c Hk.
  - specialize (Hk 0 (Nat.le_refl _)). rewrite Nat.add_0_r in Hk. simpl in Hk.
    destruct g; simpl; now rewrite Hk.
  - assert (H0 : k i (a :: s) c = None).
    { specialize (Hk 0 (Nat.le_0_l _)). now rewrite Nat.add_0_r in Hk. }
    assert (Hs : star g p k (S i) s c = None).
    { apply IH. intros n Hn. specialize (Hk (S n)). simpl in Hk.
      rewrite Nat.add_succ_r in Hk. apply Hk. simpl. lia. }
    destruct g; simpl in *; rewrite H0.
    + destruct (p a); [now rewrite Hs | reflexivity].
    + destruct (p a); [exact Hs | reflexivity].
Qed.

Lemma star_lazy_here (k : cont) (i : nat) (s : jsstring) (c : captures) v :
  k i s c = Some v -> star_lazy p k i s c = Some v.
Proof. intros H. destruct s; simpl; now rewrite H. Qed.

End Matcher.

Lemma m_classes (pat : pattern) :
  forall k i s c,
    m (seq (map Class pat)) k i s c =
      if occurs_at pat s
      then k (i + List.length pat) (skipn (List.length pat) s) c
      else None.
Proof.
  induction pat as [|q pat IH]; intros k i s c.
  - simpl. now rewrite Nat.add_0_r.
  - destruct pat as [|q' pat].
    + simpl. destruct s as [|b s]; [reflexivity|].
      rewrite andb_true_r, Nat.add_1_r. now destruct s.
    + change (seq (map Class (q :: q' :: pat)))
        with (Seq (Class q) (seq (map Class (q' :: pat)))).
      change (m (Seq ?r1 ?r2) k i s c) with (m r1 (m r2 k) i s c).
      change (m (Class ?q0) ?k' i s c) with (one q0 k' i s c).
      unfold one. destruct s as [|b s]; [reflexivity|].
      change (occurs_at (q :: q' :: pat) (b :: s))
        with (q b && occurs_at (q' :: pat) s).
      destruct (q b); [|reflexivity].
      rewrite IH. cbn [andb].
      change (List.length (q :: q' :: pat)) with (S (List.length (q' :: pat))).
      rewrite Nat.add_succ_r. reflexivity.
Qed.

Lemma m_lit (w : string) (k : cont) i s c :
  m (lit w) k i s c =
    if occurs_at (exactly w) s
    then k (i + List.length (chars w)) (skipn (List.length (chars w)) s) c
    else None.
Proof.
  unfold lit, exactly. rewrite <- (map_map is_char Class), m_classes.
  now rewrite length_map.
Qed.

Lemma m_lit_i (w : jsstring) (k : cont) i s c :
  m (lit_i w) k i s c =
    if occurs_at (exactly_i w) s
    then k (i + List.length w) (skipn (List.length w) s) c
    else None.
Proof.
  unfold lit_i, exactly_i. rewrite <- (map_map is_char_i Class), m_classes.
  now rewrite length_map.
Qed.

(** A pattern that starts with a literal character finds nothing in a
    string without that character. *)
Lemma search_needs_first (a : ascii) (r : regex) (s : jsstring) :
  ~ In a s -> forall i, search (Seq (Class (is_char a)) r) i s = None.
Proof.
  induction s as [|b s IH]; intros Hin i.
  - reflexivity.
  - simpl. unfold is_char. destruct (Ascii.eqb_spec b a) as [->|_].
    + exfalso. apply Hin. now left.
    + apply IH. intros H. apply Hin. now right.
Qed.

(** A pattern anchored at the start matches at offset 0 or nowhere. *)
Lemma search_anchored_later (r : regex) (s : jsstring) :
  forall i, i <> 0 -> search (Seq Bol r) i s = None.
Proof.
  induction s as [|b s IH]; intros i Hi; simpl;
    destruct (Nat.eqb_spec i 0) as [->|_]; try contradiction; auto.
Qed.

Lemma firstn_consumed {A} (i : nat) (u v : list A) :
  firstn (i + List.length u - i) (u ++ v) = u.
Proof.
  replace (i + List.length u - i) with (List.length u + 0) by lia.
  rewrite firstn_app_2. simpl. apply List.app_nil_r.
Qed.

(** The equations of the matcher, one per construct. *)
Lemma m_Empty k i s c : m Empty k i s c = k i s c.
Proof. reflexivity. Qed.
Lemma m_Class q k i s c : m (Class q) k i s c = one q k i s c.
Proof. reflexivity. Qed.
Lemma m_Seq r1 r2 k i s c : m (Seq r1 r2) k i s c = m r1 (m r2 k) i s c.
Proof. reflexivity. Qed.
Lemma m_Alt r1 r2 k i s c :
  m (Alt r1 r2) k i s c =
    match m r1 k i s c with Some v => Some v | None => m r2 k i s c end.
Proof. reflexivity. Qed.
Lemma m_Star g q k i s c : m (Star g q) k i s c = star g q k i s c.
Proof. reflexivity. Qed.
Lemma m_Plus g q k i s c : m (Plus g q) k i s c = one q (star g q k) i s c.
Proof. reflexivity. Qed.
Lemma m_Opt r k i s c :
  m (Opt r) k i s c =
    match m r (nonempty_since i k) i s c with Some v => Some v | None => k i s c end.
Proof. reflexivity. Qed.
Lemma m_Group n r k i s c : m (Group n r) k i s c = m r (close_group n i s k) i s c.
Proof. reflexivity. Qed.
Lemma m_Bol k i s c : m Bol k i s c = if Nat.eqb i 0 then k i s c else None.
Proof. reflexivity. Qed.
Lemma m_Eol k i s c : m Eol k i s c = match s with [] => k i s c | _ => None end.
Proof. reflexivity. Qed.

Lemma one_cons q k i a s c : one q k i (a :: s) c = if q a then k (S i) s c else None.
Proof. reflexivity. Qed.
Lemma one_nil q k i c : one q k i [] c = None.
Proof. reflexivity. Qed.

Lemma nonempty_since_later i k j s c :
  j <> i -> nonempty_since i k j s c = k j s c.
Proof. intros H. unfold nonempty_since. now destruct (Nat.eqb_spec j i). Qed.

(** A greedy [q+] in front of a continuation that cannot start on [q]. *)
Lemma plus_greedy_maximal q (k : cont) (run rest : jsstring) :
  all q run -> stops q rest ->
  (forall j a t c, q a = true -> k j (a :: t) c = None) ->
  forall i c,
    m (Plus true q) k i (run ++ rest) c =
      match run with
      | [] => None
      | _ :: _ => k (i + List.length run) rest c
      end.
Proof.
  intros Hrun Hrest Hk i c. rewrite m_Plus.
  destruct run as [|a run].
  - simpl. destruct rest as [|b rest]; [reflexivity|].
    simpl in Hrest. rewrite one_cons. now rewrite Hrest.
  - inversion Hrun as [|? ? Ha Hrun']; subst.
    simpl app. rewrite one_cons, Ha. unfold star.
    rewrite (star_greedy_maximal q k run rest Hrun' Hrest Hk).
    simpl. now rewrite Nat.add_succ_r.
Qed.

(** A greedy [q+] in front of a continuation that succeeds after the run. *)
Lemma plus_greedy_run q (k : cont) (a : ascii) (run rest : jsstring) :
  q a = true -> all q run -> stops q rest ->
  forall i c v,
    k (i + S (List.length run)) rest c = Some v ->
    m (Plus true q) k i (a :: run ++ rest) c = Some v.
Proof.
  intros Ha Hrun Hrest i c v Hk. rewrite m_Plus, one_cons, Ha. unfold star.
  apply star_greedy_run; try assumption.
  now rewrite Nat.add_succ_r in Hk.
Qed.

Lemma span_spec q s :
  s = fst (span q s) ++ snd (span q s) /\ all q (fst (span q s)) /\ stops q (snd (span q s)).
Proof.
  induction s as [|a s IH]; simpl.
  - repeat split. constructor.
  - destruct (q a) eqn:Ha.
    + destruct (span q s) as [u v]. simpl in *. destruct IH as [-> [Hu Hv]].
      repeat split; try assumption. now constructor.
    + simpl. repeat split; [constructor | assumption].
Qed.

Lemma span_all q u v : all q u -> stops q v -> span q (u ++ v) = (u, v).
Proof.
  intros Hu Hv. induction Hu as [|a u Ha _ IH]; simpl.
  - destruct v as [|b v]; [reflexivity|]. simpl in *. now rewrite Hv.
  - now rewrite Ha, IH.
Qed.

Lemma digit_is_not_x a : is_digit a = true -> Ascii.eqb a "x" = false.
Proof.
  intros H. destruct (Ascii.eqb_spec a "x") as [->|]; [|reflexivity].
  vm_compute in H. discriminate H.
Qed.

Lemma dimension_suffix_width w : digits w -> dimension_suffix w = Some (w, None).
Proof.
  intros [Hne Hw]. unfold dimension_suffix.
  rewrite <- (List.app_nil_r w) at 1. rewrite (span_all is_digit w [] Hw I).
  destruct w; [contradiction | reflexivity].
Qed.

Lemma dimension_suffix_width_height w h :
  digits w -> digits h -> dimension_suffix (w ++ "x"%char :: h) = Some (w, Some h).
Proof.
  intros [Hnw Hw] [Hnh Hh]. unfold dimension_suffix.
  rewrite (span_all is_digit w ("x"%char :: h) Hw) by reflexivity.
  destruct w as [|a w]; [contradiction|].
  rewrite Ascii.eqb_refl.
  rewrite <- (List.app_nil_r h) at 1. rewrite (span_all is_digit h [] Hh I).
  destruct h; [contradiction | reflexivity].
Qed.

Lemma dimension_suffix_inv s w h :
  dimension_suffix s = Some (w, h) ->
  digits w /\ match h with
              | None => s = w
              | Some h' => digits h' /\ s = w ++ "x"%char :: h'
              end.
Proof.
  unfold dimension_suffix. destruct (span_spec is_digit s) as [Hs [Hu Hv]].
  destruct (span is_digit s) as [u v]. simpl in *.
  destruct u as [|a u]; [discriminate|].
  destruct v as [|x t].
  - intros [= <- <-]. split; [split; [discriminate | assumption]|].
    now rewrite List.app_nil_r in Hs.
  - destruct (Ascii.eqb_spec x "x") as [->|]; [|discriminate].
    destruct (span_spec is_digit t) as [Ht [Hu' Hv']].
    destruct (span is_digit t) as [u' v']. simpl in *.
    destruct u' as [|b u']; [discriminate|]. destruct v'; [|discriminate].
    intros [= <- <-]. rewrite List.app_nil_r in Ht. subst t.
    split; [split; [discriminate | assumption]|].
    split; [split; [discriminate | assumption] | assumption].
Qed.

(** ** The pattern for dimensions against the specification's wording *)

Lemma exec_anchored r s :
  exec (Seq Bol r) s =
    match m (Seq Bol r) accept 0 s [] with
    | Some (e, c) => Some {| index := 0; matched := firstn (e - 0) s; groups := c |}
    | None => None
    end.
Proof.
  unfold exec. destruct s as [|a s]; cbn [search].
  - destruct (m (Seq Bol r) accept 0 [] []) as [[e c]|]; reflexivity.
  - destruct (m (Seq Bol r) accept 0 (a :: s) []) as [[e c]|]; [reflexivity|].
    apply search_anchored_later. discriminate.
Qed.

Lemma dimRegex_unfold :
  dimRegex = Seq Bol (Seq (Group 1 (Plus true is_digit)) (Seq dim_height Eol)).
Proof. reflexivity. Qed.

(** What may follow the width: nothing, or [x] and a height up to the end. *)
Lemma dim_tail (j : nat) (t : jsstring) (c : captures) :
  m (Seq dim_height Eol) accept j t c =
    match t with
    | [] => Some (j, c)
    | x :: h =>
        if Ascii.eqb x "x" then
          match span is_digit h with
          | (_ :: _, []) => Some (S j + List.length h, (2, h) :: c)
          | _ => None
          end
        else None
    end.
Proof.
  unfold dim_height. rewrite m_Seq, m_Opt, m_Seq, m_Class.
  destruct t as [|x h].
  - reflexivity.
  - rewrite one_cons. unfold is_char. rewrite m_Eol.
    destruct (Ascii.eqb x "x"); [|reflexivity].
    rewrite m_Group.
    destruct (span_spec is_digit h) as [Hh [Hu Hv]].
    destruct (span is_digit h) as [u v]. simpl fst in *. simpl snd in *.
    subst h.
    rewrite plus_greedy_maximal; try assumption.
    + destruct u as [|b u]; [reflexivity|].
      unfold close_group. rewrite nonempty_since_later by lia.
      rewrite m_Eol. destruct v as [|b' v]; [|reflexivity].
      unfold accept. rewrite firstn_consumed, List.app_nil_r. reflexivity.
    + intros j' a t' c' _. unfold close_group, nonempty_since.
      destruct (Nat.eqb j' j); reflexivity.
Qed.

Lemma dimRegex_exec (s : jsstring) :
  exec dimRegex s =
    match dimension_suffix s with
    | Some (w, h) =>
        Some {| index := 0; matched := s;
                groups := match h with
                          | Some h' => [(2, h'); (1, w)]
                          | None => [(1, w)]
                          end |}
    | None => None
    end.
Proof.
  rewrite dimRegex_unfold, exec_anchored, m_Seq, m_Bol. cbn [Nat.eqb].
  rewrite m_Seq, m_Group. unfold dimension_suffix.
  destruct (span_spec is_digit s) as [Hs [Hu Hv]].
  destruct (span is_digit s) as [u v]. simpl fst in *. simpl snd in *.
  subst s.
  rewrite plus_greedy_maximal; try assumption.
  - destruct u as [|a u]; [reflexivity|].
    unfold close_group. rewrite dim_tail, firstn_consumed.
    destruct v as [|x h].
    + rewrite firstn_consumed, List.app_nil_r. reflexivity.
    + destruct (Ascii.eqb x "x"); [|reflexivity].
      destruct (span is_digit h) as [[|b u'] [|b' v']]; try reflexivity.
      replace (S (0 + List.length (a :: u)) + List.length h - 0)
        with (List.length ((a :: u) ++ x :: h))
        by (rewrite length_app; simpl; lia).
      rewrite firstn_all. reflexivity.
  - intros j a t c Ha. unfold close_group. rewrite dim_tail.
    now rewrite (digit_is_not_x a Ha).
Qed.

(** ** Running a pattern forwards: one lemma per construct that succeeds *)

Arguments m : simpl never.
Arguments lit : simpl never.
Arguments lit_i : simpl never.

Lemma exec_at_start r s e c :
  m r accept 0 s [] = Some (e, c) ->
  exec r s = Some {| index := 0; matched := firstn (e - 0) s; groups := c |}.
Proof. intros H. unfold exec. destruct s; cbn [search]; now rewrite H. Qed.

Lemma take_seq r1 r2 k i s c v :
  m r1 (m r2 k) i s c = Some v -> m (Seq r1 r2) k i s c = Some v.
Proof. now rewrite m_Seq. Qed.

Lemma take_opt r k i s c v :
  m r (nonempty_since i k) i s c = Some v -> m (Opt r) k i s c = Some v.
Proof. intros H. now rewrite m_Opt, H. Qed.

Lemma skip_opt r k i s c v :
  m r (nonempty_since i k) i s c = None -> k i s c = Some v ->
  m (Opt r) k i s c = Some v.
Proof. intros H H'. now rewrite m_Opt, H. Qed.

Lemma take_left r1 r2 k i s c v :
  m r1 k i s c = Some v -> m (Alt r1 r2) k i s c = Some v.
Proof. intros H. now rewrite m_Alt, H. Qed.

Lemma take_group n r k i s c v :
  m r (close_group n i s k) i s c = Some v -> m (Group n r) k i s c = Some v.
Proof. now rewrite m_Group. Qed.

Lemma take_class q k i a s c v :
  q a = true -> k (S i) s c = Some v -> m (Class q) k i (a :: s) c = Some v.
Proof. intros Ha H. now rewrite m_Class, one_cons, Ha. Qed.

Lemma take_star_greedy q k run rest i c v :
  all q run -> stops q rest ->
  k (i + List.length run) rest c = Some v ->
  m (Star true q) k i (run ++ rest) c = Some v.
Proof. intros. rewrite m_Star. now apply star_greedy_run. Qed.

Lemma take_star_lazy q k i s c v :
  k i s c = Some v -> m (Star false q) k i s c = Some v.
Proof. intros. rewrite m_Star. now apply star_lazy_here. Qed.

Lemma take_nonempty i k j s c v :
  j <> i -> k j s c = Some v -> nonempty_since i k j s c = Some v.
Proof. intros Hj H. now rewrite nonempty_since_later. Qed.

Lemma firstn_span {A} (i j : nat) (u v : list A) :
  j = i + List.length u -> firstn (j - i) (u ++ v) = u.
Proof. intros ->. apply firstn_consumed. Qed.

Lemma firstn_exact {A} (u v : list A) : firstn (List.length u) (u ++ v) = u.
Proof.
  rewrite <- (Nat.add_0_r (List.length u)), firstn_app_2. simpl. apply List.app_nil_r.
Qed.

Ltac tidy_captures :=
  repeat first [ rewrite firstn_exact
               | rewrite firstn_span by (simpl; lia) ].

(** ** The Wikilink pattern on [![[path|suffix]]] *)

Lemma wikilinkRegex_exec (p s : jsstring) :
  p <> [] -> all not_pipe_bracket p -> all not_pipe_bracket s ->
  exec wikilinkRegex (wikilink p s) =
    Some {| index := 0; matched := wikilink p s; groups := [(2, s); (1, p)] |}.
Proof.
  intros Hne Hp Hs.
  destruct p as [|a p]; [contradiction|]. inversion Hp as [|? ? Ha Hp']; subst.
  assert (Hm : m wikilinkRegex accept 0 (wikilink (a :: p) s) [] =
               Some (List.length (wikilink (a :: p) s), [(2, s); (1, a :: p)])).
  { unfold wikilinkRegex, wikilink. cbn [seq].
    apply take_seq. rewrite m_lit. cbn.
    apply take_seq, take_group.
    apply (plus_greedy_run not_pipe_bracket _ a p ("|"%char :: s ++ chars "]]"));
      [assumption | assumption | reflexivity |].
    unfold close_group at 1.
    apply take_seq, take_opt, take_seq. rewrite m_lit. cbn.
    apply take_group.
    apply (take_star_greedy not_pipe_bracket _ s (chars "]]")); [assumption | reflexivity |].
    unfold close_group at 1. apply take_nonempty; [lia|].
    rewrite m_lit. cbn. unfold accept.
    tidy_captures.
    f_equal. f_equal. rewrite !length_app. simpl. rewrite !length_app. simpl. lia. }
  rewrite (exec_at_start _ _ _ _ Hm), Nat.sub_0_r, firstn_all. reflexivity.
Qed.

(** ** Occurrences of a literal pattern in a string *)

Lemma foreign_cons q pat b :
  foreign (q :: pat) b = true -> q b = false /\ foreign pat b = true.
Proof.
  unfold foreign. simpl. rewrite negb_orb, andb_true_iff, negb_true_iff. tauto.
Qed.

Lemma occurs_cons pat a s :
  occurs pat (a :: s) = false <-> occurs_at pat (a :: s) = false /\ occurs pat s = false.
Proof. simpl occurs. apply orb_false_iff. Qed.

Lemma occurs_at_app_foreign pat :
  forall u v, foreign_head pat v ->
              occurs_at pat (u ++ v) = true -> occurs_at pat u = true.
Proof.
  induction pat as [|q pat IH]; intros u v Hv H; [now destruct u|].
  destruct u as [|x u].
  - simpl in H. destruct v as [|b v]; [discriminate|].
    simpl in Hv. apply foreign_cons in Hv. destruct Hv as [Hq _].
    rewrite Hq in H. discriminate.
  - simpl in *. apply andb_true_iff in H. destruct H as [Hx H].
    rewrite Hx. simpl. apply (IH u v); [|assumption].
    destruct v as [|b v]; simpl in *; [trivial|].
    now apply foreign_cons in Hv.
Qed.

(** Two strings free of the pattern stay so when joined, provided the
    second one starts with a foreign character. *)
Lemma occurs_app pat u v :
  foreign_head pat v ->
  occurs pat u = false -> occurs pat v = false -> occurs pat (u ++ v) = false.
Proof.
  intros Hv Hu Hvv. induction u as [|x u IH]; [assumption|].
  apply occurs_cons in Hu. destruct Hu as [Hx Hu].
  change ((x :: u) ++ v) with (x :: u ++ v). apply occurs_cons. split.
  - destruct (occurs_at pat (x :: u ++ v)) eqn:E; [|reflexivity].
    apply (occurs_at_app_foreign pat (x :: u) v Hv) in E. congruence.
  - now apply IH.
Qed.

Lemma occurs_sep pat q u v :
  foreign pat q = true ->
  occurs pat u = false -> occurs pat v = false -> occurs pat (u ++ q :: v) = false.
Proof.
  intros Hq Hu Hv. apply occurs_app; [exact Hq | assumption |].
  apply occurs_cons. split; [|assumption].
  destruct pat as [|q0 pat]; [now destruct v|].
  simpl. apply foreign_cons in Hq. destruct Hq as [-> _]. reflexivity.
Qed.

(** A run of foreign characters holds no occurrence. *)
Lemma occurs_foreign_run pat u v :
  all (foreign pat) u -> occurs pat v = false -> occurs pat (u ++ v) = false.
Proof.
  intros Hu Hv. induction Hu as [|x u Hx _ IH]; [assumption|].
  change ((x :: u) ++ v) with (x :: u ++ v). apply occurs_cons. split; [|assumption].
  destruct pat as [|q pat]; [now destruct v|].
  simpl. apply foreign_cons in Hx. destruct Hx as [-> _]. reflexivity.
Qed.

Lemma occurs_skipn pat s n : occurs pat s = false -> occurs pat (skipn n s) = false.
Proof.
  revert s. induction n as [|n IH]; intros s H; [assumption|].
  destruct s as [|a s]; [assumption|]. simpl. apply IH.
  now apply occurs_cons in H.
Qed.

Lemma occurs_at_longer pat pat' s :
  occurs_at (pat ++ pat') s = true -> occurs_at pat s = true.
Proof.
  revert s. induction pat as [|q pat IH]; intros s H; [reflexivity|].
  destruct s as [|b s]; [discriminate|]. simpl in *.
  apply andb_true_iff in H. destruct H as [-> H]. simpl. now apply IH.
Qed.

Lemma occurs_longer pat pat' s :
  occurs pat s = false -> occurs (pat ++ pat') s = false.
Proof.
  induction s as [|a s IH]; intros H.
  - simpl in *. rewrite orb_false_r in *.
    destruct (occurs_at (pat ++ pat') []) eqn:E; [|reflexivity].
    apply occurs_at_longer in E. congruence.
  - apply occurs_cons in H. destruct H as [Ha H]. apply occurs_cons. split.
    + destruct (occurs_at (pat ++ pat') (a :: s)) eqn:E; [|reflexivity].
      apply occurs_at_longer in E. congruence.
    + now apply IH.
Qed.

(** Replacing a character by a text of foreign characters brings no
    occurrence in. *)
Lemma occurs_at_replaceAll pat c b w :
  foreign pat b = true ->
  forall s, occurs_at pat (replaceAll c (b :: w) s) = true -> occurs_at pat s = true.
Proof.
  induction pat as [|q pat IH]; intros Hb s H; [reflexivity|].
  apply foreign_cons in Hb. destruct Hb as [Hq Hb].
  destruct s as [|x s]; [discriminate|].
  unfold replaceAll in H. simpl in H.
  destruct (Ascii.eqb x c).
  - simpl in H. rewrite Hq in H. discriminate.
  - simpl in *. apply andb_true_iff in H. destruct H as [-> H]. simpl.
    now apply IH.
Qed.

Lemma occurs_replaceAll pat c b w s :
  all (foreign pat) (b :: w) ->
  occurs pat s = false -> occurs pat (replaceAll c (b :: w) s) = false.
Proof.
  intros Hw. induction s as [|x s IH]; intros H; [assumption|].
  apply occurs_cons in H. destruct H as [Hx H].
  unfold replaceAll. simpl flat_map. fold (replaceAll c (b :: w) s).
  destruct (Ascii.eqb x c) eqn:E.
  - apply occurs_foreign_run; [assumption | now apply IH].
  - change ([x] ++ replaceAll c (b :: w) s) with (x :: replaceAll c (b :: w) s).
    apply occurs_cons. split; [|now apply IH].
    destruct (occurs_at pat (x :: replaceAll c (b :: w) s)) eqn:E'; [|reflexivity].
    assert (Hr : x :: replaceAll c (b :: w) s = replaceAll c (b :: w) (x :: s)).
    { unfold replaceAll. simpl. now rewrite E. }
    rewrite Hr in E'. apply occurs_at_replaceAll in E'; [congruence|].
    now inversion Hw.
Qed.

(** A pattern that starts with a literal text finds nothing where that text
    does not occur. *)
Lemma search_lit_absent (w : string) (r : regex) (s : jsstring) :
  occurs (exactly w) s = false -> forall i, search (Seq (lit w) r) i s = None.
Proof.
  induction s as [|a s IH]; intros H i.
  - simpl in H. rewrite orb_false_r in H. cbn [search]. now rewrite m_Seq, m_lit, H.
  - apply occurs_cons in H. destruct H as [Ha H].
    cbn [search]. rewrite m_Seq, m_lit, Ha. now apply IH.
Qed.

(** ** The img-tag pattern on a tag the rewriter produced *)

Section BeforeSrc.

(** A continuation that needs [src=] right where it starts. *)
Variable k : cont.
Hypothesis k_needs_src :
  forall j t c, occurs_at (exactly_i (chars "src=")) t = false -> k j t c = None.

Lemma blanks_then_src_fail (t : jsstring) :
  forall a j c, is_space a = true -> occurs blank_src (a :: t) = false ->
                star_greedy is_space k j t c = None.
Proof.
  induction t as [|b t IH]; intros a j c Ha H;
    apply occurs_cons in H; destruct H as [Hat H];
    simpl in Hat; rewrite Ha in Hat; simpl in Hat.
  - simpl. now apply k_needs_src.
  - simpl. destruct (is_space b) eqn:Hb.
    + rewrite (IH b (S j) c Hb H). now apply k_needs_src.
    + now apply k_needs_src.
Qed.

Lemma blank_src_fail (s : jsstring) i c :
  occurs blank_src s = false -> m (Plus true is_space) k i s c = None.
Proof.
  intros H. rewrite m_Plus. destruct s as [|a s]; [reflexivity|].
  rewrite one_cons. destruct (is_space a) eqn:Ha; [|reflexivity].
  unfold star. now apply (blanks_then_src_fail s a).
Qed.

Lemma before_src_fail (s : jsstring) i c :
  occurs blank_src s = false ->
  m (Seq (Star false not_gt) (Plus true is_space)) k i s c = None.
Proof.
  intros H. rewrite m_Seq, m_Star. apply star_fails. intros n _.
  apply blank_src_fail. now apply occurs_skipn.
Qed.

End BeforeSrc.

Lemma firstn_span_cons {A} (i j : nat) (a : A) (u v : list A) :
  j = i + S (List.length u) -> firstn (j - i) (a :: u ++ v) = a :: u.
Proof. intros H. apply (firstn_span i j (a :: u) v H). Qed.

Lemma img_tag_length p ea st :
  List.length (img_tag p ea st) =
    10 + List.length p + 7 + List.length ea + 9 + List.length st + 2.
Proof.
  unfold img_tag. simpl. rewrite !length_app. simpl. rewrite !length_app. simpl.
  rewrite !length_app. simpl. lia.
Qed.

Lemma htmlImgRegex_exec (p ea st : jsstring) :
  p <> [] -> all not_quote p -> all not_quote ea -> st <> [] -> all not_quote st ->
  occurs blank_src (skipn 5 (img_tag p ea st)) = false ->
  exec htmlImgRegex (img_tag p ea st) =
    Some {| index := 0; matched := img_tag p ea st;
            groups := [(1, img_tag p ea st); (6, st); (4, ea); (2, p)] |}.
Proof.
  intros Hp Hqp Hqe Hst Hqs Hfree.
  destruct p as [|a p]; [contradiction|]. inversion Hqp as [|? ? Ha Hqp']; subst.
  destruct st as [|b st]; [contradiction|]. inversion Hqs as [|? ? Hb Hqs']; subst.
  assert (Hm : m htmlImgRegex accept 0 (img_tag (a :: p) ea (b :: st)) [] =
               Some (List.length (img_tag (a :: p) ea (b :: st)),
                     [(1, img_tag (a :: p) ea (b :: st)); (6, b :: st); (4, ea); (2, a :: p)])).
  { unfold htmlImgRegex. cbn [seq]. apply take_group.
    apply take_seq. rewrite m_lit_i.
    change (occurs_at (exactly_i (chars "<img")) (img_tag (a :: p) ea (b :: st))) with true.
    cbv iota.
    change (skipn (List.length (chars "<img")) (img_tag (a :: p) ea (b :: st)))
      with ([" "%char] ++ skipn 5 (img_tag (a :: p) ea (b :: st))).
    apply take_seq.
    apply (plus_greedy_run is_space _ " "%char [] (skipn 5 (img_tag (a :: p) ea (b :: st))));
      [reflexivity | constructor | reflexivity |].
    (* nothing before [src=] *)
    apply take_seq. unfold html_before_src. cbn [seq].
    apply skip_opt.
    { apply before_src_fail; [|assumption].
      intros j t c Ht. unfold nonempty_since.
      destruct (Nat.eqb j _); [reflexivity|].
      now rewrite m_Seq, m_lit_i, Ht. }
    change (skipn 5 (img_tag (a :: p) ea (b :: st)))
      with (chars "src=" ++ dq :: a :: p ++ dq :: chars " alt=" ++ dq :: ea ++ dq
              :: chars " style=" ++ dq :: b :: st ++ dq :: chars ">").
    apply take_seq. rewrite m_lit_i. cbn.
    (* the quoted value of src *)
    apply take_seq. unfold html_src_value. cbn [seq].
    apply take_left. apply take_seq. apply take_class; [reflexivity|].
    apply take_seq. apply take_group.
    apply (plus_greedy_run not_quote _ a p); [assumption | assumption | reflexivity |].
    unfold close_group at 1.
    apply take_class; [reflexivity|].
    (* the alt attribute *)
    apply take_seq. unfold html_alt_attr. cbn [seq].
    apply take_opt. apply take_seq.
    apply (plus_greedy_run is_space _ " "%char []); [reflexivity | constructor | reflexivity |].
    apply take_seq, take_star_lazy. apply take_seq.
    apply (take_star_greedy is_space _ []); [constructor | reflexivity |].
    apply take_seq. rewrite m_lit_i. cbn.
    apply take_left. apply take_seq. apply take_class; [reflexivity|].
    apply take_seq. apply take_group.
    apply (take_star_greedy not_quote _ ea); [assumption | reflexivity |].
    unfold close_group at 1.
    apply take_class; [reflexivity|].
    apply take_nonempty; [lia|].
    (* the style attribute *)
    apply take_seq. unfold html_style_attr. cbn [seq].
    apply take_opt. apply take_seq.
    apply (plus_greedy_run is_space _ " "%char []); [reflexivity | constructor | reflexivity |].
    apply take_seq, take_star_lazy. apply take_seq.
    apply (take_star_greedy is_space _ []); [constructor | reflexivity |].
    apply take_seq. rewrite m_lit_i. cbn.
    apply take_left. apply take_seq. apply take_class; [reflexivity|].
    apply take_seq. apply take_group.
    apply (plus_greedy_run not_quote _ b st); [assumption | assumption | reflexivity |].
    unfold close_group at 1.
    apply take_class; [reflexivity|].
    apply take_nonempty; [lia|].
    (* the end of the tag *)
    apply take_seq, take_star_lazy. rewrite m_lit_i. cbn.
    unfold close_group, accept.
    repeat first [ rewrite firstn_exact
                 | rewrite (firstn_span_cons _ _ b st) by lia
                 | rewrite (firstn_span _ _ ea) by lia ].
    match goal with
    | |- context [firstn ?n ?l] =>
        change l with (img_tag (a :: p) ea (b :: st));
        rewrite (firstn_all2 (img_tag (a :: p) ea (b :: st)) (n:=n))
          by (rewrite img_tag_length; simpl; lia)
    end.
    f_equal. f_equal. simpl. repeat (rewrite length_app; simpl). lia. }
  rewrite (exec_at_start _ _ _ _ Hm), Nat.sub_0_r, firstn_all. reflexivity.
Qed.

(** ** Numbers in decimal *)

Lemma parseInt_acc_pos (d : Decimal.uint) :
  forall a, parseInt_acc (N.pos a) (chars (DecimalString.NilEmpty.string_of_uint d))
            = N.pos (Pos.of_uint_acc d a).
Proof.
  induction d; intros a; [reflexivity|..];
    cbn [DecimalString.NilEmpty.string_of_uint chars list_ascii_of_string parseInt_acc
         Pos.of_uint_acc];
    match goal with
    | |- context [is_digit ?ch] => change (is_digit ch) with true
    end;
    cbv iota;
    match goal with
    | |- context [digit_value ?ch] =>
        let v := eval vm_compute in (digit_value ch) in change (digit_value ch) with v
    end;
    match goal with
    | |- parseInt_acc ?acc _ = N.pos (Pos.of_uint_acc _ ?b) =>
        replace acc with (N.pos b) by lia
    end;
    apply IHd.
Qed.

Lemma parseInt_uint (d : Decimal.uint) :
  parseInt (chars (DecimalString.NilEmpty.string_of_uint d)) = N.of_uint d.
Proof.
  unfold parseInt, N.of_uint.
  induction d; [reflexivity|..];
    cbn [DecimalString.NilEmpty.string_of_uint chars list_ascii_of_string parseInt_acc
         Pos.of_uint];
    match goal with
    | |- context [is_digit ?ch] => change (is_digit ch) with true
    end;
    cbv iota;
    match goal with
    | |- context [digit_value ?ch] =>
        let v := eval vm_compute in (digit_value ch) in change (digit_value ch) with v
    end;
    [ exact IHd | .. ];
    match goal with
    | |- parseInt_acc ?acc _ = N.pos (Pos.of_uint_acc _ ?b) =>
        change acc with (N.pos b)
    end;
    apply parseInt_acc_pos.
Qed.

Lemma parseInt_toString (n : N) : parseInt (toString n) = n.
Proof. unfold toString. rewrite parseInt_uint. apply DecimalN.Unsigned.of_to. Qed.

Lemma uint_digits (d : Decimal.uint) :
  all is_digit (chars (DecimalString.NilEmpty.string_of_uint d)).
Proof. induction d; simpl; constructor; auto. Qed.

Lemma toString_digits (n : N) : digits (toString n).
Proof.
  split; [|apply uint_digits].
  unfold toString. destruct n as [|q]; [discriminate|].
  simpl. pose proof (DecimalPos.Unsigned.to_uint_nonnil q) as H.
  destruct (Pos.to_uint q); [contradiction | discriminate..].
Qed.

(** ** The three style patterns on the style the rewriter writes *)

Ltac case_char a :=
  destruct a as [[] [] [] [] [] [] [] []]; try discriminate; try reflexivity.

Lemma digit_not_space a : is_digit a = true -> is_space a = false.
Proof. intros H. case_char a. Qed.

Lemma digit_not_letter a (c : ascii) :
  is_digit (canonicalize c) = false -> is_digit a = true -> is_char_i c a = false.
Proof.
  intros Hc Ha. unfold is_char_i.
  assert (Hca : canonicalize a = a) by (case_char a).
  rewrite Hca. destruct (Ascii.eqb_spec a (canonicalize c)) as [->|]; congruence.
Qed.

Lemma search_here r i s e c :
  m r accept i s [] = Some (e, c) ->
  search r i s = Some {| index := i; matched := firstn (e - i) s; groups := c |}.
Proof. intros H. destruct s; cbn [search]; now rewrite H. Qed.

Lemma search_cons r i a s :
  search r i (a :: s) =
    match m r accept i (a :: s) [] with
    | Some (e, c) => Some {| index := i; matched := firstn (e - i) (a :: s); groups := c |}
    | None => search r (S i) s
    end.
Proof. reflexivity. Qed.

(** The search moves past a run of digits when its pattern starts with a
    letter. *)
Lemma search_skip_digits (c : ascii) (w : jsstring) (r : regex) (d : ascii) (u v : jsstring) :
  is_digit (canonicalize c) = false ->
  is_digit d = true -> all is_digit u ->
  forall i, search (Seq (lit_i (c :: w)) r) i (d :: u ++ v)
            = search (Seq (lit_i (c :: w)) r) (S i + List.length u) v.
Proof.
  intros Hc Hd Hu. revert d Hd. induction Hu as [|a u Ha _ IH]; intros d Hd i.
  - cbn [app]. rewrite search_cons, m_Seq, m_lit_i. cbn [exactly_i map occurs_at].
    rewrite (digit_not_letter d c Hc Hd). cbn [andb List.length].
    now rewrite Nat.add_0_r.
  - change (d :: (a :: u) ++ v) with (d :: a :: u ++ v). rewrite search_cons.
    rewrite m_Seq, m_lit_i. cbn [exactly_i map occurs_at].
    rewrite (digit_not_letter d c Hc Hd). cbn [andb].
    rewrite (IH a Ha). f_equal. simpl. lia.
Qed.

Lemma search_skip_one (w : jsstring) (r : regex) (a : ascii) (s : jsstring) i :
  occurs_at (exactly_i w) (a :: s) = false ->
  search (Seq (lit_i w) r) i (a :: s) = search (Seq (lit_i w) r) (S i) s.
Proof. intros H. now rewrite search_cons, m_Seq, m_lit_i, H. Qed.

Lemma digits_inv w : digits w -> exists d w', w = d :: w' /\ is_digit d = true /\ all is_digit w'.
Proof.
  intros [Hne Hw]. destruct w as [|d w']; [contradiction|].
  inversion Hw; subst. eauto.
Qed.

Lemma truthy_digits w : digits w -> truthy w = true.
Proof. intros [Hne _]. now destruct w. Qed.

(** [label:], blanks, digits and a unit, found where the search stands. *)
Lemma labelled_number (label unit : jsstring) (d : ascii) (w rest : jsstring) (u : ascii) i :
  occurs_at (exactly_i label) (label ++ " "%char :: d :: w ++ u :: rest) = true ->
  skipn (List.length label) (label ++ " "%char :: d :: w ++ u :: rest)
    = " "%char :: d :: w ++ u :: rest ->
  is_digit d = true -> all is_digit w -> is_digit u = false ->
  occurs_at (exactly_i unit) (u :: rest) = true ->
  captured_int
    (search (Seq (lit_i label)
               (Seq (Star true is_space) (Seq (Group 1 (Plus true is_digit)) (lit_i unit))))
            i (label ++ " "%char :: d :: w ++ u :: rest))
  = Some (parseInt (d :: w)).
Proof.
  intros Hlabel Hskip Hd Hw Hu Hunit.
  match goal with
  | |- captured_int (search ?r _ ?s) = _ =>
      assert (Hm : exists e, m r accept i s [] = Some (e, [(1, d :: w)]))
  end.
  { eexists. apply take_seq. rewrite m_lit_i, Hlabel, Hskip.
    apply take_seq.
    apply (take_star_greedy is_space _ [" "%char] (d :: w ++ u :: rest));
      [repeat constructor | simpl; now apply digit_not_space |].
    apply take_seq, take_group.
    apply (plus_greedy_run is_digit _ d w (u :: rest)); [assumption | assumption | exact Hu |].
    unfold close_group. rewrite m_lit_i, Hunit. unfold accept.
    rewrite (firstn_span_cons _ _ d w) by (simpl; lia). reflexivity. }
  destruct Hm as [e Hm]. rewrite (search_here _ _ _ _ _ Hm). reflexivity.
Qed.

Lemma width_of_style w h z :
  digits w -> captured_int (exec widthRegex (style_of w h z)) = Some (parseInt w).
Proof.
  intros Hw. destruct (digits_inv w Hw) as [d [w' [-> [Hd Hw']]]].
  unfold exec, widthRegex, style_of. cbn [seq].
  apply (labelled_number (chars "width:") (chars "px") d w'
           (chars "x; height: " ++ h ++ chars "px; zoom: " ++ z ++ chars "%;") "p" 0);
    try reflexivity; assumption.
Qed.

Lemma height_of_style w h z :
  digits w -> digits h -> captured_int (exec heightRegex (style_of w h z)) = Some (parseInt h).
Proof.
  intros Hw Hh. destruct (digits_inv w Hw) as [d [w' [-> [Hd Hw']]]].
  destruct (digits_inv h Hh) as [e [h' [-> [He Hh']]]].
  unfold exec, heightRegex, style_of. cbn [seq].
  cbn [chars list_ascii_of_string app].
  do 7 (rewrite search_skip_one by reflexivity).
  rewrite (search_skip_digits "h" (chars "eight:") _ d w') by (reflexivity || assumption).
  do 4 (rewrite search_skip_one by reflexivity).
  apply (labelled_number (chars "height:") (chars "px") e h'
           (chars "x; zoom: " ++ z ++ chars "%;") "p");
    try reflexivity; assumption.
Qed.

Lemma zoom_of_style w h z :
  digits w -> digits h -> digits z ->
  captured_int (exec zoomRegex (style_of w h z)) = Some (parseInt z).
Proof.
  intros Hw Hh Hz. destruct (digits_inv w Hw) as [d [w' [-> [Hd Hw']]]].
  destruct (digits_inv h Hh) as [e [h' [-> [He Hh']]]].
  destruct (digits_inv z Hz) as [f [z' [-> [Hf Hz']]]].
  unfold exec, zoomRegex, style_of. cbn [seq].
  cbn [chars list_ascii_of_string app].
  do 7 (rewrite search_skip_one by reflexivity).
  rewrite (search_skip_digits "z" (chars "oom:") _ d w') by (reflexivity || assumption).
  do 12 (rewrite search_skip_one by reflexivity).
  rewrite (search_skip_digits "z" (chars "oom:") _ e h') by (reflexivity || assumption).
  do 4 (rewrite search_skip_one by reflexivity).
  match goal with
  | |- captured_int (search ?r ?i ?s) = _ =>
      assert (Hm : exists n, m r accept i s [] = Some (n, [(1, f :: z')]))
  end.
  { eexists. apply take_seq. rewrite m_lit_i. cbn.
    apply take_seq.
    apply (take_star_greedy is_space _ [" "%char] (f :: z' ++ chars "%;"));
      [repeat constructor | simpl; now apply digit_not_space |].
    apply take_seq, take_group.
    apply (plus_greedy_run is_digit _ f z' (chars "%;")); [assumption | assumption | reflexivity |].
    unfold close_group. apply take_opt. rewrite m_lit_i. cbn.
    apply take_nonempty; [lia|]. unfold accept.
    repeat first [rewrite firstn_exact | rewrite (firstn_span_cons _ _ f z') by (simpl; lia)].
    reflexivity. }
  destruct Hm as [n Hm]. rewrite (search_here _ _ _ _ _ Hm). reflexivity.
Qed.

(** [trim] leaves alone a string with no blank at either end. *)
Lemma trimStart_keeps (a : ascii) (t : jsstring) :
  is_space a = false -> trimStart (a :: t) = a :: t.
Proof. intros Ha. simpl. now rewrite Ha. Qed.

Lemma trim_keeps (a b : ascii) (s : jsstring) :
  is_space a = false -> is_space b = false -> trim (a :: s ++ [b]) = a :: s ++ [b].
Proof.
  intros Ha Hb. unfold trim. rewrite (trimStart_keeps a _ Ha).
  assert (Hrev : rev (a :: s ++ [b]) = b :: rev (a :: s)).
  { change (a :: s ++ [b]) with ((a :: s) ++ [b]). now rewrite rev_app_distr. }
  rewrite Hrev, (trimStart_keeps b _ Hb).
  change (rev (b :: rev (a :: s))) with (rev (rev (a :: s)) ++ [b]).
  now rewrite rev_involutive.
Qed.

(** ** Parsing back what the rewriter wrote *)

Lemma digit_not_quote a : is_digit a = true -> not_quote a = true.
Proof. intros H. case_char a. Qed.

Lemma escapeHtml_not_quote (s : jsstring) : all not_quote (escapeHtml s).
Proof.
  apply Forall_forall. intros x Hx. unfold not_quote, none_of. simpl.
  destruct (Ascii.eqb_spec x dq) as [->|_].
  - exfalso. revert Hx. apply escapeHtml_no_markup. unfold markup_char. tauto.
  - destruct (Ascii.eqb_spec x "'") as [->|_]; [|reflexivity].
    exfalso. revert Hx. apply escapeHtml_no_markup. unfold markup_char. tauto.
Qed.

Lemma style_of_not_quote w h z :
  digits w -> digits h -> digits z -> all not_quote (style_of w h z).
Proof.
  intros [_ Hw] [_ Hh] [_ Hz]. unfold style_of.
  repeat (apply Forall_app; split);
    try (repeat constructor);
    eapply Forall_impl; try eassumption; apply digit_not_quote.
Qed.

Lemma style_of_ends w h z : exists s, style_of w h z = "w"%char :: s ++ [";"%char].
Proof.
  exists (chars "idth: " ++ w ++ chars "px; height: " ++ h ++ chars "px; zoom: " ++ z
            ++ chars "%").
  unfold style_of. repeat (progress (simpl; rewrite <- ?app_assoc)). reflexivity.
Qed.

Lemma occurs_escapeHtml (pat : pattern) (a : jsstring) :
  all (foreign pat) (chars "&amp;") -> all (foreign pat) (chars "&lt;") ->
  all (foreign pat) (chars "&gt;") -> all (foreign pat) (chars "&quot;") ->
  all (foreign pat) (chars "&#039;") ->
  occurs pat a = false -> occurs pat (escapeHtml a) = false.
Proof.
  intros H1 H2 H3 H4 H5 Ha. unfold escapeHtml.
  apply occurs_replaceAll; [exact H5|].
  apply occurs_replaceAll; [exact H4|].
  apply occurs_replaceAll; [exact H3|].
  apply occurs_replaceAll; [exact H2|].
  apply occurs_replaceAll; [exact H1|]. exact Ha.
Qed.

(** A pattern that occurs in none of the fixed pieces of a tag, and accepts
    neither the double quote nor a digit, occurs in the tag only if it
    occurs in the path or in the alternative text. *)
Lemma occurs_in_tag (pat : pattern) (head p ea w h z : jsstring) :
  foreign pat dq = true ->
  (forall d, is_digit d = true -> foreign pat d = true) ->
  occurs pat head = false ->
  occurs pat (chars " alt=") = false ->
  occurs pat (chars " style=") = false ->
  occurs pat (chars "width: ") = false ->
  occurs pat (chars "px; height: ") = false ->
  occurs pat (chars "px; zoom: ") = false ->
  occurs pat (chars "%;") = false ->
  occurs pat (chars ">") = false ->
  foreign pat "p" = true -> foreign pat "%" = true ->
  occurs pat p = false -> occurs pat ea = false ->
  digits w -> digits h -> digits z ->
  occurs pat (head ++ dq :: p ++ dq :: chars " alt=" ++ dq :: ea ++ dq
                :: chars " style=" ++ dq :: style_of w h z ++ dq :: chars ">") = false.
Proof.
  intros Hdq Hdig Hhead Halt Hstyle Hwd Hht Hzm Hpc Hgt Hfp Hfpc Hp Hea Hw Hh Hz.
  assert (Hrun : forall u v, digits u -> foreign_head pat v -> occurs pat v = false ->
                             foreign_head pat (u ++ v) /\ occurs pat (u ++ v) = false).
  { intros u v Hu Hv Hov. destruct (digits_inv u Hu) as [d [u' [-> [Hd Hu']]]]. split.
    - simpl. now apply Hdig.
    - apply occurs_foreign_run; [|assumption].
      constructor; [now apply Hdig|].
      eapply Forall_impl; [|exact Hu']. exact Hdig. }
  assert (Hst : occurs pat (style_of w h z) = false).
  { unfold style_of.
    destruct (Hrun z (chars "%;") Hz Hfpc Hpc) as [Hz1 Hz2].
    pose proof (occurs_app pat (chars "px; zoom: ") _ Hz1 Hzm Hz2) as H3.
    destruct (Hrun h (chars "px; zoom: " ++ z ++ chars "%;") Hh Hfp H3) as [Hh1 Hh2].
    pose proof (occurs_app pat (chars "px; height: ") _ Hh1 Hht Hh2) as H2.
    destruct (Hrun w (chars "px; height: " ++ h ++ chars "px; zoom: " ++ z ++ chars "%;")
                Hw Hfp H2) as [Hw1 Hw2].
    exact (occurs_app pat (chars "width: ") _ Hw1 Hwd Hw2). }
  apply occurs_sep; [assumption | assumption |].
  apply occurs_sep; [assumption | assumption |].
  apply occurs_sep; [assumption | assumption |].
  apply occurs_sep; [assumption | assumption |].
  apply occurs_sep; [assumption | assumption |].
  apply occurs_sep; assumption.
Qed.

Ltac foreign_chars := repeat constructor.

Lemma digit_foreign_blank_src d : is_digit d = true -> foreign blank_src d = true.
Proof. intros H. case_char d. Qed.

Lemma digit_foreign_bang_bracket d : is_digit d = true -> foreign bang_bracket d = true.
Proof. intros H. case_char d. Qed.

Lemma rendered_shape (p a : jsstring) (W H Z : N) :
  (0 < W)%N -> (0 < H)%N ->
  rendered p a W H Z =
    img_tag p (escapeHtml a) (style_of (toString W) (toString H) (toString Z)).
Proof.
  intros HW HH. unfold rendered, newImgTag, safeAltText, styleString, img_tag, quoted.
  cbn [dragged_path dragged_altText sourceWidth sourceHeight].
  replace (W =? 0)%N with false by (symmetry; apply N.eqb_neq; lia).
  replace (H =? 0)%N with false by (symmetry; apply N.eqb_neq; lia).
  assert (Hst : trim ((chars "width: " ++ toString W ++ chars "px; ")
                      ++ (chars "height: " ++ toString H ++ chars "px; ")
                      ++ chars "zoom: " ++ toString Z ++ chars "%;")
                = style_of (toString W) (toString H) (toString Z)).
  { destruct (style_of_ends (toString W) (toString H) (toString Z)) as [s Hs].
    replace ((chars "width: " ++ toString W ++ chars "px; ")
             ++ (chars "height: " ++ toString H ++ chars "px; ")
             ++ chars "zoom: " ++ toString Z ++ chars "%;")
      with (style_of (toString W) (toString H) (toString Z)).
    - rewrite Hs. now apply trim_keeps.
    - unfold style_of. repeat (progress (simpl; rewrite <- ?app_assoc)). reflexivity. }
  rewrite Hst.
  assert (Halt : (if truthy a then escapeHtml a else []) = escapeHtml a)
    by (destruct a; reflexivity).
  rewrite Halt. repeat (progress (simpl; rewrite <- ?app_assoc)). reflexivity.
Qed.

Lemma parseMarkdown_needs_bang_bracket (s : jsstring) :
  occurs bang_bracket s = false -> parseMarkdown s = None.
Proof.
  intros H. unfold parseMarkdown, exec, markdownRegex. cbn [seq].
  now rewrite (search_lit_absent "![" _ s H 0).
Qed.

Lemma parseWikilink_needs_bang_bracket (s : jsstring) :
  occurs bang_bracket s = false -> parseWikilink s = None.
Proof.
  intros H. unfold parseWikilink, exec, wikilinkRegex. cbn [seq].
  rewrite (search_lit_absent "![[" _ s); [reflexivity|].
  apply (occurs_longer bang_bracket [is_char "["] s H).
Qed.

Lemma parseHtml_rendered (p ea w h z : jsstring) :
  p <> [] -> trim p = p -> all not_quote p -> all not_quote ea ->
  occurs blank_src p = false -> occurs blank_src ea = false ->
  digits w -> digits h -> digits z ->
  parseHtml (img_tag p ea (style_of w h z)) =
    Some {| path := p;
            altText := if truthy ea then Some (trim ea) else None;
            specifiedWidth := Some (parseInt w);
            specifiedHeight := Some (parseInt h);
            originalMatch := img_tag p ea (style_of w h z);
            startIndexInLine := 0;
            isHtml := true;
            Utils.currentZoomPercent := Some (parseInt z) |}.
Proof.
  intros Hp Htrim Hqp Hqe Hbp Hbe Hw Hh Hz.
  assert (Hst : style_of w h z <> [])
    by (destruct (style_of_ends w h z) as [s ->]; discriminate).
  unfold parseHtml. rewrite htmlImgRegex_exec; try assumption.
  - unfold group. cbn [groups capture Nat.eqb index matched].
    unfold or_else. cbn [truthy_opt].
    assert (Htp : truthy p = true) by (destruct p; [contradiction | reflexivity]).
    assert (Hts : truthy (style_of w h z) = true)
      by (destruct (style_of w h z); [contradiction | reflexivity]).
    rewrite ?Htp, ?Hts. cbn [truthy_opt]. rewrite ?Htp, ?Hts.
    rewrite width_of_style, height_of_style, zoom_of_style by assumption.
    rewrite Htrim, ?Htp, ?Hts. destruct ea; reflexivity.
  - now apply style_of_not_quote.
  - apply (occurs_in_tag blank_src (chars "src=") p ea w h z);
      try reflexivity; try assumption.
    apply digit_foreign_blank_src.
Qed.

(** C2.  The code breaks the round trip: on the tag rendered from the path
    [img.png] and the alternative text [see src=x] the optional part in
    front of [src=] in the img-tag pattern runs up to the blank inside the
    value of alt, so that [parseHtml] takes [x] and the closing quote of
    alt for the source and finds no alternative text; width, height and
    zoom are read as written.  The tag is what dragging the Markdown
    reference [![see src=x|200x100](img.png)] to zoom 150 leaves in the
    document; the next press and release overwrite the whole tag with one
    whose source is the misread text and whose alternative text is empty. *)
Theorem alt_text_is_read_as_source :
  parseImageSyntaxFromLine misread_tag
  = Some {| path := chars "x" ++ [dq]; altText := None;
            specifiedWidth := Some 200%N; specifiedHeight := Some 100%N;
            originalMatch := misread_tag; startIndexInLine := 0;
            isHtml := true; Utils.currentZoomPercent := Some 150%N |}
  /\ ~ round_trips (chars "img.png") (chars "see src=x") 200 100 150
  /\ document_after (gesture (chars "![see src=x|200x100](img.png)")
                             (pointer_at 330 120) (pointer_at 580 120))
     = Some misread_tag
  /\ document_after (gesture misread_tag (pointer_at 330 120) (pointer_at 580 120))
     = Some (chars "<img src=" ++ quoted (chars "x" ++ [dq]) ++ chars " alt=" ++ quoted []
             ++ chars " style=" ++ quoted (chars "width: 200px; height: 100px; zoom: 200%;")
             ++ chars ">").
Proof.
  split; [vm_compute; reflexivity|].
  split; [|split; vm_compute; reflexivity].
  intros [r [Hr [_ [_ [_ Hp]]]]]. vm_compute in Hr. injection Hr as <-.
  discriminate Hp.
Qed.

(** Other renderings that do not parse back: a quote in the path, a width
    of 0, a Markdown reference in the alternative text, an empty path and a
    path that starts with a blank. *)
Lemma round_trip_restrictions_are_needed :
  ~ round_trips (chars "a" ++ [dq] ++ chars "b") (chars "cap") 200 100 150
  /\ ~ round_trips (chars "img.png") (chars "cap") 0 100 150
  /\ ~ round_trips (chars "img.png") (chars "![x](y)") 200 100 150
  /\ ~ round_trips [] (chars "cap") 200 100 150
  /\ ~ round_trips (chars " img.png") (chars "cap") 200 100 150.
Proof.
  repeat split; intros [r [Hr [H1 [_ [_ H4]]]]]; vm_compute in Hr;
    injection Hr as <-; first [discriminate H1 | discriminate H4].
Qed.

(** X24.  The tag rendered from a path, an alternative text, a width, a
    height and a zoom parses back to that path, width, height and zoom,
    provided the path is not empty, has no blank at either end and no quote,
    the width and the height are at least 1, the three numbers are below
    2^53, and neither the path nor the alternative text holds a blank
    followed by [src=] or the characters [![] in a row. *)
Theorem rendered_tag_round_trips (p a : jsstring) (W H Z : N) :
  p <> [] -> trim p = p -> all not_quote p ->
  occurs blank_src p = false -> occurs blank_src a = false ->
  occurs bang_bracket p = false -> occurs bang_bracket a = false ->
  (0 < W < 2 ^ 53)%N -> (0 < H < 2 ^ 53)%N -> (Z < 2 ^ 53)%N ->
  round_trips p a W H Z
  /\ exists r, parseHtml (rendered p a W H Z) = Some r
               /\ parseImageSyntaxFromLine (rendered p a W H Z) = Some r
               /\ isHtml r = true
               /\ altText r = (if truthy a then Some (trim (escapeHtml a)) else None)
               /\ originalMatch r = rendered p a W H Z
               /\ startIndexInLine r = 0.
Proof.
  intros Hp Htrim Hqp Hbp Hba Hmp Hma [HW _] [HH _] _.
  assert (Hbang : occurs bang_bracket (rendered p a W H Z) = false).
  { rewrite rendered_shape by assumption.
    apply (occurs_in_tag bang_bracket (chars "<img src=") p (escapeHtml a));
      try reflexivity; try assumption; try apply toString_digits.
    - apply digit_foreign_bang_bracket.
    - apply occurs_escapeHtml; try assumption; foreign_chars. }
  assert (Hhtml : parseHtml (rendered p a W H Z) =
            Some {| path := p;
                    altText := if truthy (escapeHtml a) then Some (trim (escapeHtml a)) else None;
                    specifiedWidth := Some W;
                    specifiedHeight := Some H;
                    originalMatch := rendered p a W H Z;
                    startIndexInLine := 0;
                    isHtml := true;
                    Utils.currentZoomPercent := Some Z |}).
  { rewrite rendered_shape by assumption.
    rewrite parseHtml_rendered; try assumption; try apply toString_digits.
    - now rewrite !parseInt_toString.
    - apply escapeHtml_not_quote.
    - apply occurs_escapeHtml; try assumption; foreign_chars. }
  assert (Hparse : parseImageSyntaxFromLine (rendered p a W H Z) = parseHtml (rendered p a W H Z)).
  { unfold parseImageSyntaxFromLine.
    now rewrite parseMarkdown_needs_bang_bracket, parseWikilink_needs_bang_bracket. }
  assert (Hta : truthy (escapeHtml a) = truthy a).
  { destruct a as [|a0 a']; [reflexivity|].
    unfold escapeHtml, replaceAll. cbn [flat_map truthy].
    destruct (Ascii.eqb a0 "&"); [reflexivity|]. cbn [flat_map app].
    destruct (Ascii.eqb a0 "<"); [reflexivity|]. cbn [flat_map app].
    destruct (Ascii.eqb a0 ">"); [reflexivity|]. cbn [flat_map app].
    destruct (Ascii.eqb a0 dq); [reflexivity|]. cbn [flat_map app].
    destruct (Ascii.eqb a0 "'"); reflexivity. }
  rewrite Hta in Hhtml. split.
  - eexists. rewrite Hparse. split; [exact Hhtml|]. repeat split.
  - eexists. rewrite Hparse. split; [exact Hhtml|]. repeat split. exact Hhtml.
Qed.

Lemma rendered_tag_round_trips_witness :
  round_trips (chars "my image.png") (chars "a <b> & c") 200 100 150.
Proof.
  apply (rendered_tag_round_trips (chars "my image.png") (chars "a <b> & c") 200 100 150);
    try reflexivity.
  - discriminate.
  - repeat constructor.
  - split; reflexivity.
  - split; reflexivity.
Defined.

(** ** A continuation that fails wherever it is started *)

Lemma dead_skipn k s n : dead k s -> dead k (skipn n s).
Proof. intros H n' j c. rewrite skipn_skipn. apply H. Qed.

Lemma dead_here k s : dead k s -> forall j c, k j s c = None.
Proof. intros H j c. apply (H 0). Qed.

Lemma dead_tail k a s : dead k (a :: s) -> dead k s.
Proof. intros H. apply (dead_skipn k (a :: s) 1 H). Qed.

(** The matcher calls its continuation on what is left of the text only:
    in front of a dead continuation every pattern fails. *)
Lemma m_dead (r : regex) :
  forall k s, dead k s -> forall i c, m r k i s c = None.
Proof.
  induction r as [|q|r1 IH1 r2 IH2|r1 IH1 r2 IH2|g q|g q|r IH|n r IH| |]; intros k s Hk i c.
  - rewrite m_Empty. now apply dead_here.
  - rewrite m_Class. destruct s as [|a s]; [reflexivity|]. rewrite one_cons.
    destruct (q a); [|reflexivity]. apply dead_here. now apply dead_tail in Hk.
  - rewrite m_Seq. apply IH1. intros n j c'. apply IH2. now apply dead_skipn.
  - rewrite m_Alt, (IH1 k s Hk), (IH2 k s Hk). reflexivity.
  - rewrite m_Star. apply star_fails. intros n _. apply Hk.
  - rewrite m_Plus. destruct s as [|a s]; [reflexivity|]. rewrite one_cons.
    destruct (q a); [|reflexivity]. apply star_fails. intros n _.
    apply (dead_tail k a s Hk).
  - rewrite m_Opt, IH.
    + now apply dead_here.
    + intros n j c'. unfold nonempty_since. destruct (Nat.eqb j i); [reflexivity|]. apply Hk.
  - rewrite m_Group. apply IH. intros n' j c'. unfold close_group. apply Hk.
  - rewrite m_Bol. destruct (Nat.eqb i 0); [|reflexivity]. now apply dead_here.
  - rewrite m_Eol. destruct s; [|reflexivity]. now apply dead_here.
Qed.

Lemma search_dead (r : regex) (s : jsstring) :
  dead (m r accept) s -> forall i, search r i s = None.
Proof.
  induction s as [|a s IH]; intros H i.
  - cbn [search]. now rewrite (dead_here _ _ H).
  - rewrite search_cons, (dead_here _ _ H). apply IH. now apply dead_tail in H.
Qed.

Lemma dead_lit (w : string) (r : regex) (k : cont) (s : jsstring) :
  occurs (exactly w) s = false -> dead (m (Seq (lit w) r) k) s.
Proof.
  intros H n j c. rewrite m_Seq, m_lit.
  apply (occurs_skipn _ _ n) in H.
  destruct (skipn n s) as [|a t].
  - simpl in H. rewrite orb_false_r in H. now rewrite H.
  - apply occurs_cons in H. destruct H as [-> _]. reflexivity.
Qed.

Lemma parseMarkdown_needs_bracket_paren (s : jsstring) :
  occurs bracket_paren s = false -> parseMarkdown s = None.
Proof.
  intros H. unfold parseMarkdown, exec, markdownRegex. cbn [seq].
  rewrite search_dead; [reflexivity|].
  intros n j c. rewrite m_Seq. apply m_dead. apply dead_skipn.
  intros n1 j1 c1. rewrite m_Seq. apply m_dead. apply dead_skipn.
  intros n2 j2 c2. rewrite m_Seq. apply m_dead. apply dead_skipn.
  now apply dead_lit.
Qed.

(** Characters the first class of a pattern rejects start no occurrence. *)
Lemma occurs_rejected_run (q : ascii -> bool) (pat : pattern) (u v : jsstring) :
  all (fun a => negb (q a)) u -> occurs (q :: pat) v = false ->
  occurs (q :: pat) (u ++ v) = false.
Proof.
  intros Hu Hv. induction Hu as [|a u Ha _ IH]; [assumption|].
  change ((a :: u) ++ v) with (a :: u ++ v). apply occurs_cons. split; [|assumption].
  simpl. apply negb_true_iff in Ha. now rewrite Ha.
Qed.

Lemma not_pipe_bracket_rejects a :
  not_pipe_bracket a = true -> negb (is_char "]" a) = true.
Proof.
  unfold not_pipe_bracket, none_of, is_char. simpl.
  destruct (Ascii.eqb a "]"); [|reflexivity]. now rewrite orb_true_r.
Qed.

Lemma parseMarkdown_wikilink (p s : jsstring) :
  all not_pipe_bracket p -> all not_pipe_bracket s ->
  parseMarkdown (wikilink p s) = None.
Proof.
  intros Hp Hs. apply parseMarkdown_needs_bracket_paren. unfold wikilink, bracket_paren.
  apply (occurs_rejected_run (is_char "]") _ (chars "![[")); [repeat constructor|].
  apply occurs_rejected_run.
  { eapply Forall_impl; [|exact Hp]. apply not_pipe_bracket_rejects. }
  apply (occurs_rejected_run (is_char "]") _ (chars "|")); [repeat constructor|].
  apply occurs_rejected_run; [|reflexivity].
  eapply Forall_impl; [|exact Hs]. apply not_pipe_bracket_rejects.
Qed.

(** ** The Wikilink parser on [![[path|suffix]]] *)

Lemma parseWikilink_suffix (p s : jsstring) :
  p <> [] -> all not_pipe_bracket p -> all not_pipe_bracket s ->
  parseWikilink (wikilink p s) =
    Some {| path := trim p;
            altText := match dimension_suffix s with
                       | Some _ => None
                       | None => Some s
                       end;
            specifiedWidth := match dimension_suffix s with
                              | Some (w, _) => Some (parseInt w)
                              | None => None
                              end;
            specifiedHeight := match dimension_suffix s with
                               | Some (_, Some h) => Some (parseInt h)
                               | _ => None
                               end;
            originalMatch := wikilink p s;
            startIndexInLine := 0;
            isHtml := false;
            Utils.currentZoomPercent := None |}.
Proof.
  intros Hne Hp Hs. unfold parseWikilink. rewrite wikilinkRegex_exec by assumption.
  unfold group_of, group. cbn [groups capture Nat.eqb index matched].
  destruct s as [|a s]; [reflexivity|]. cbn [truthy].
  rewrite dimRegex_exec.
  destruct (dimension_suffix (a :: s)) as [[w h]|] eqn:E; [|reflexivity].
  apply dimension_suffix_inv in E. destruct E as [Hw E].
  cbn [groups]. destruct h as [h|].
  - destruct E as [Hh _]. cbn [capture Nat.eqb truthy_opt].
    now rewrite (truthy_digits w Hw), (truthy_digits h Hh).
  - cbn [capture Nat.eqb truthy_opt]. now rewrite (truthy_digits w Hw).
Qed.

(** ** Claims on the dispatcher, the controller and the escaping *)

(** C1. On a line where both the Markdown grammar and the HTML-tag grammar
    match, [parseImageSyntaxFromLine] returns the Markdown result, wherever
    the two matches start: the dispatcher asks the grammars in the order
    Markdown, Wikilink, HTML tag and keeps the first answer. *)
Theorem markdown_wins_over_html (line : jsstring) (md html : ParsedImageInfo) :
  parseMarkdown line = Some md ->
  parseHtml line = Some html ->
  parseImageSyntaxFromLine line = Some md /\ isHtml md = false /\ isHtml html = true.
Proof.
  intros Hmd Hhtml. unfold parseImageSyntaxFromLine. rewrite Hmd.
  split; [reflexivity|]. split.
  - unfold parseMarkdown in Hmd. destruct (exec markdownRegex line); [|discriminate].
    injection Hmd as <-. reflexivity.
  - unfold parseHtml in Hhtml.
    destruct (exec htmlImgRegex line) as [hm|]; [|discriminate].
    destruct (or_else (group 2 hm) (group 3 hm)) as [p|]; [|discriminate].
    destruct (truthy p); [|discriminate].
    injection Hhtml as <-. reflexivity.
Qed.

Lemma markdown_wins_over_html_witness :
  exists md html,
    parseHtml html_then_markdown = Some html /\
    parseImageSyntaxFromLine html_then_markdown = Some md /\
    path md = chars "b.png" /\ startIndexInLine html = 0 /\ startIndexInLine md = 18.
Proof.
  eexists. eexists.
  split; [vm_compute; reflexivity|].
  split; [|split; [|split]].
  - eapply (markdown_wins_over_html html_then_markdown _ _); vm_compute; reflexivity.
  - reflexivity.
  - reflexivity.
  - reflexivity.
Defined.

(** C3. Whatever the baseline zoom and the two pointer distances are, the
    zoom a pointer move previews -- round(baseline + (current - initial) * 0.2),
    clamped -- lies between 10 and 500, and that is the value the handler
    writes on the image element. *)
Theorem previewed_zoom_in_range (Math_sqrt : Q -> Q) (this : t) (page : Page)
        (event : MouseEvent) (currentDistanceToCenter : Q) :
  (10 <= newZoom this currentDistanceToCenter <= 500)%Z /\
  match activeImgElement (fst (handleDocumentMouseMove Math_sqrt this page event)) with
  | Some img => exists z, (10 <= z <= 500)%Z /\ style_zoom img = toString (Z.to_N z) ++ chars "%"
  | None => True
  end.
Proof.
  split.
  - unfold newZoom. apply clamp_bounds.
  - unfold handleDocumentMouseMove.
    destruct (activeImgElement this) as [img|] eqn:Ha; [|simpl; trivial].
    destruct (lineInfoAtDragStart this); [|simpl; trivial].
    destruct (draggedImageInfo this) as [info|]; [|simpl; trivial].
    destruct (isDragging this && truthy_opt (dragged_path info)); [|simpl; trivial].
    simpl. eexists. split; [|reflexivity]. unfold newZoom. apply clamp_bounds.
Qed.

(** C4. At pointer release, when the pattern for an img tag with the
    session's path finds nothing on the current text of the line, and the
    snapshotted line text does not parse to the session's path, the handler
    dispatches nothing: the view is left as it was and the session is
    released. *)
Theorem commit_without_anchor_changes_nothing
        (this : t) (page : Page) (event : MouseEvent)
        (img : HTMLImageElement) (lineInfo : LineDetails) (info : DraggedImageInfo)
        (line : Line) :
  isDragging this = true ->
  activeImgElement this = Some img ->
  lineInfoAtDragStart this = Some lineInfo ->
  draggedImageInfo this = Some info ->
  lineAt (view page) (lineFrom lineInfo) = Ok line ->
  exec (imgTagToReplaceRegex (match dragged_path info with Some p => p | None => [] end))
       (text line) = None ->
  (forall r, parseImageSyntaxFromLine (lineText lineInfo) = Some r ->
             Some (path r) <> dragged_path info) ->
  exists this',
    handleDocumentMouseUp this page event =
      Ok (this', {| view := view page; mousemove_listener := false; mouseup_listener := false |})
    /\ isDragging this' = false
    /\ draggedImageInfo this' = None
    /\ lineInfoAtDragStart this' = None
    /\ activeImgElement this' = None.
Proof.
  intros Hd Ha Hl Hi Hline Hre Hparse.
  unfold handleDocumentMouseUp. rewrite Ha, Hl, Hi, Hd, Hline, Hre.
  assert (Hnone :
    match parseImageSyntaxFromLine (lineText lineInfo) with
    | Some originalSyntaxInfo =>
        match dragged_path info with
        | Some p =>
            if list_eq_dec ascii_dec (path originalSyntaxInfo) p
            then Some (lineFrom lineInfo + startIndexInLine originalSyntaxInfo,
                       lineFrom lineInfo + startIndexInLine originalSyntaxInfo
                       + List.length (originalMatch originalSyntaxInfo))
            else None
        | None => None
        end
    | None => None
    end = None).
  { destruct (parseImageSyntaxFromLine (lineText lineInfo)) as [r|] eqn:Hp; [|reflexivity].
    destruct (dragged_path info) as [p|] eqn:Hdp; [|reflexivity].
    destruct (list_eq_dec ascii_dec (path r) p) as [e|]; [|reflexivity].
    exfalso. apply (Hparse r eq_refl). now rewrite e. }
  rewrite Hnone. eexists. split; [reflexivity|]. simpl. repeat split.
Qed.

Lemma commit_without_anchor_changes_nothing_witness :
  exists this',
    handleDocumentMouseUp lost_session (idle_page (chars "plain text")) (pointer_at 0 0) =
      Ok (this', idle_page (chars "plain text"))
    /\ isDragging this' = false.
Proof.
  destruct (commit_without_anchor_changes_nothing lost_session
              (idle_page (chars "plain text")) (pointer_at 0 0)
              (an_image "ew-resize" 0)
              {| pos := 0; lineText := chars "plain text"; lineFrom := 0; lineTo := 10 |}
              {| dragged_path := Some (chars "x.png"); dragged_altText := None;
                 sourceWidth := None; sourceHeight := None |}
              {| from := 0; to := 10; text := chars "plain text" |}
              eq_refl eq_refl eq_refl eq_refl eq_refl eq_refl)
    as [this' [H1 [H2 _]]].
  - intros r Hr. vm_compute in Hr. discriminate Hr.
  - exists this'. split; [exact H1 | exact H2].
Defined.

(** C5. Arming a drag on the line [![cap](img.png)] dispatches exactly one
    replacement: it inserts the img tag with zoom 100 and it covers the span
    the notation occupies in the line, here the whole line of 15 code units
    starting at the line's offset. *)
Theorem arming_markdown_upgrades_once
        (Math_sqrt : Q -> Q) (this : t) (page : Page) (event : MouseEvent)
        (imgElement : HTMLImageElement) (lineInfo : LineDetails) :
  lineText lineInfo = markdown_line ->
  lineFrom lineInfo + 15 <= List.length (doc (view page)) ->
  exists parsedInfo this' page',
    parseImageSyntaxFromLine (lineText lineInfo) = Some parsedInfo
    /\ startIndexInLine parsedInfo = 0
    /\ originalMatch parsedInfo = markdown_line
    /\ startResize Math_sqrt this page event imgElement lineInfo parsedInfo = Ok (this', page')
    /\ dispatched (view page') =
         dispatched (view page)
         ++ [ {| changes := {| change_from := lineFrom lineInfo;
                               change_to := lineFrom lineInfo + 15;
                               insert := upgraded_tag |};
                 selection_anchor := selection_head (view page);
                 userEvent := "image.resize.convert" |} ]
    /\ doc (view page') =
         replaceRange (doc (view page)) (lineFrom lineInfo) (lineFrom lineInfo + 15) upgraded_tag
    /\ isDragging this' = true
    /\ currentZoomPercent this' = 100%N.
Proof.
  intros Htext Hlen. rewrite Htext.
  destruct (dispatch_inside (view page)
              {| changes := {| change_from := lineFrom lineInfo;
                               change_to := lineFrom lineInfo + 15;
                               insert := upgraded_tag |};
                 selection_anchor := selection_head (view page);
                 userEvent := "image.resize.convert" |})
    as (v & Hd & Hdoc & _ & Hlog).
  { cbn [changes change_from change_to]. lia. }
  { cbn [changes change_to]. exact Hlen. }
  { cbn [changes change_from change_to insert selection_anchor].
    rewrite replaceRange_length by lia.
    pose proof (selection_inside (view page)) as Hsel.
    change (List.length upgraded_tag) with 49. lia. }
  eexists. eexists. eexists.
  split; [vm_compute; reflexivity|].
  split; [reflexivity|]. split; [reflexivity|].
  unfold startResize. cbn [isHtml startIndexInLine originalMatch List.length].
  rewrite Nat.add_0_r.
  match goal with
  | |- context [dispatch (view page) ?tr] =>
      change (dispatch (view page) tr) with (dispatch (view page)
              {| changes := {| change_from := lineFrom lineInfo;
                               change_to := lineFrom lineInfo + 15;
                               insert := upgraded_tag |};
                 selection_anchor := selection_head (view page);
                 userEvent := "image.resize.convert" |})
  end.
  rewrite Hd. split; [reflexivity|]. cbn [view isDragging currentZoomPercent].
  split; [exact Hlog|]. split; [exact Hdoc|]. split; reflexivity.
Qed.

Lemma arming_markdown_upgrades_once_witness :
  exists this' page',
    handleImageSpecificMouseDown integer_sqrt init (idle_page markdown_line)
      (pointer_at 330 120) (an_image "ew-resize" 3) = Ok (this', page')
    /\ doc (view page') = upgraded_tag
    /\ List.length (dispatched (view page')) = 1.
Proof.
  destruct (arming_markdown_upgrades_once integer_sqrt init (idle_page markdown_line)
              (pointer_at 330 120) (an_image "ew-resize" 3)
              {| pos := 3; lineText := markdown_line; lineFrom := 0; lineTo := 15 |}
              eq_refl (le_n 15))
    as [parsedInfo [this' [page' [Hp [_ [_ [Hs [Hd [Hdoc _]]]]]]]]].
  exists this', page'. split; [|split].
  - unfold handleImageSpecificMouseDown.
    change (getLineInfoFromElement (view (idle_page markdown_line)) (an_image "ew-resize" 3))
      with (Some {| pos := 3; lineText := markdown_line; lineFrom := 0; lineTo := 15 |}).
    cbv beta iota. rewrite Hp. exact Hs.
  - rewrite Hdoc. reflexivity.
  - rewrite Hd. reflexivity.
Defined.

(** C6. When the notation parsed at arm time is already an img tag, arming
    dispatches nothing and leaves the document as it is, and the baseline
    zoom is the parsed zoom when there is one and 100 otherwise; for
    [<img src=Qx.pngQ style=Qzoom: 80%;Q>] (Q the double quote) it is 80. *)
Theorem arming_html_leaves_text
        (Math_sqrt : Q -> Q) (this : t) (page : Page) (event : MouseEvent)
        (imgElement : HTMLImageElement) (lineInfo : LineDetails)
        (parsedInfo : ParsedImageInfo) :
  parseImageSyntaxFromLine (lineText lineInfo) = Some parsedInfo ->
  isHtml parsedInfo = true ->
  exists this',
    startResize Math_sqrt this page event imgElement lineInfo parsedInfo =
      Ok (this', {| view := view page; mousemove_listener := true; mouseup_listener := true |})
    /\ isDragging this' = true
    /\ currentZoomPercent this' =
         match Utils.currentZoomPercent parsedInfo with Some z => z | None => 100%N end
    /\ (lineText lineInfo = zoomed_tag_line -> currentZoomPercent this' = 80%N).
Proof.
  intros Hparse Hhtml. unfold startResize. rewrite Hhtml.
  eexists. split; [reflexivity|]. cbn [isDragging currentZoomPercent].
  split; [reflexivity|]. split; [reflexivity|].
  intros Hline. rewrite Hline in Hparse. vm_compute in Hparse.
  injection Hparse as <-. reflexivity.
Qed.

Lemma arming_html_leaves_text_witness :
  exists this',
    handleImageSpecificMouseDown integer_sqrt init (idle_page zoomed_tag_line)
      (pointer_at 330 120) (an_image "ew-resize" 3)
    = Ok (this', {| view := view (idle_page zoomed_tag_line);
                    mousemove_listener := true; mouseup_listener := true |})
    /\ currentZoomPercent this' = 80%N.
Proof.
  destruct (arming_html_leaves_text integer_sqrt init (idle_page zoomed_tag_line)
              (pointer_at 330 120) (an_image "ew-resize" 3)
              {| pos := 3; lineText := zoomed_tag_line; lineFrom := 0; lineTo := 36 |}
              {| path := chars "x.png"; altText := None; specifiedWidth := None;
                 specifiedHeight := None; originalMatch := zoomed_tag_line;
                 startIndexInLine := 0; isHtml := true;
                 Utils.currentZoomPercent := Some 80%N |}
              eq_refl eq_refl)
    as [this' [Hs [_ [_ H80]]]].
  exists this'. split.
  - exact Hs.
  - exact (H80 eq_refl).
Defined.

(** C8 (the code departs from it). A reference whose path is made of
    blanks parses, in each of the three notations, and the path returned is
    the empty string: the patterns ask for one character at least, and
    [trim] runs afterwards. *)
Lemma blank_path_parses_to_empty_path :
  (exists r, parseImageSyntaxFromLine (chars "![x]( )") = Some r /\ path r = [])
  /\ (exists r, parseImageSyntaxFromLine (chars "![[ ]]") = Some r /\ path r = [])
  /\ (exists r, parseImageSyntaxFromLine (chars "<img src=" ++ quoted (chars " ") ++ chars ">")
                 = Some r /\ path r = []).
Proof. repeat split; eexists; (split; [vm_compute; reflexivity | reflexivity]). Qed.

(** C10. No output of [escapeHtml] holds any of the characters [<], [>],
    the double quote and the single quote; hence the value the rewriter puts
    between the quotes of the alt attribute never holds a double quote. *)
Theorem escapeHtml_leaves_no_markup (s : jsstring) (info : DraggedImageInfo) :
  (~ In "<"%char (escapeHtml s) /\ ~ In ">"%char (escapeHtml s)
   /\ ~ In dq (escapeHtml s) /\ ~ In "'"%char (escapeHtml s))
  /\ (~ In "<"%char (safeAltText info) /\ ~ In ">"%char (safeAltText info)
      /\ ~ In dq (safeAltText info) /\ ~ In "'"%char (safeAltText info)).
Proof.
  assert (Hsafe : forall x, markup_char x -> ~ In x (safeAltText info)).
  { intros x Hx. unfold safeAltText.
    destruct (dragged_altText info) as [a|]; [|simpl; tauto].
    destruct (truthy a); [|simpl; tauto].
    now apply escapeHtml_no_markup. }
  repeat split;
    first [ apply escapeHtml_no_markup | apply Hsafe ]; unfold markup_char; tauto.
Qed.

(** C7. The suffix of a Wikilink is read either as dimensions or as the
    alternative text, never as a mix: a suffix made of an integer, or of two
    integers around an [x], gives the width (and the height) and no
    alternative text; any other suffix is the alternative text, as written,
    and gives no dimension.  The three lines of the specification follow. *)
Theorem wikilink_suffix_either_or :
  (forall p s : jsstring,
      p <> [] -> all not_pipe_bracket p -> all not_pipe_bracket s ->
      exists r,
        parseImageSyntaxFromLine (wikilink p s) = Some r
        /\ parseWikilink (wikilink p s) = Some r
        /\ path r = trim p
        /\ (forall w, digits w -> s = w ->
                      altText r = None /\ specifiedWidth r = Some (parseInt w)
                      /\ specifiedHeight r = None)
        /\ (forall w h, digits w -> digits h -> s = w ++ "x"%char :: h ->
                        altText r = None /\ specifiedWidth r = Some (parseInt w)
                        /\ specifiedHeight r = Some (parseInt h))
        /\ ((forall w, digits w -> s <> w) ->
            (forall w h, digits w -> digits h -> s <> w ++ "x"%char :: h) ->
            altText r = Some s /\ specifiedWidth r = None /\ specifiedHeight r = None))
  /\ (exists r, parseImageSyntaxFromLine (chars "![[a.png|150]]") = Some r
                /\ path r = chars "a.png" /\ altText r = None
                /\ specifiedWidth r = Some 150%N /\ specifiedHeight r = None)
  /\ (exists r, parseImageSyntaxFromLine (chars "![[a.png|150x80]]") = Some r
                /\ path r = chars "a.png" /\ altText r = None
                /\ specifiedWidth r = Some 150%N /\ specifiedHeight r = Some 80%N)
  /\ (exists r, parseImageSyntaxFromLine (chars "![[a.png|caption]]") = Some r
                /\ path r = chars "a.png" /\ altText r = Some (chars "caption")
                /\ specifiedWidth r = None /\ specifiedHeight r = None).
Proof.
  split; [|repeat split; eexists; (split; [vm_compute; reflexivity|]); repeat split].
  intros p s Hne Hp Hs. eexists.
  split; [|split; [apply parseWikilink_suffix; assumption|]].
  - unfold parseImageSyntaxFromLine.
    rewrite parseMarkdown_wikilink by assumption.
    now rewrite parseWikilink_suffix by assumption.
  - cbn [path altText specifiedWidth specifiedHeight]. split; [reflexivity|].
    split; [|split].
    + intros w Hw ->. now rewrite (dimension_suffix_width w Hw).
    + intros w h Hw Hh ->. now rewrite (dimension_suffix_width_height w h Hw Hh).
    + intros H1 H2. destruct (dimension_suffix s) as [[w h]|] eqn:E; [|repeat split].
      exfalso. apply dimension_suffix_inv in E. destruct E as [Hw E].
      destruct h as [h|].
      * destruct E as [Hh E]. exact (H2 w h Hw Hh E).
      * exact (H1 w Hw E).
Qed.

Lemma wikilink_suffix_either_or_witness :
  exists r, parseWikilink (chars "![[my pic.png|12x]]") = Some r
            /\ altText r = Some (chars "12x")
            /\ specifiedWidth r = None /\ specifiedHeight r = None.
Proof.
  destruct (proj1 wikilink_suffix_either_or (chars "my pic.png") (chars "12x"))
    as [r [_ [Hr [_ [_ [_ H]]]]]].
  - discriminate.
  - repeat constructor.
  - repeat constructor.
  - exists r. split; [exact Hr|]. apply H.
    + intros w [_ Hw] E. rewrite <- E in Hw.
      inversion Hw as [|? ? _ Hw1]; subst. inversion Hw1 as [|? ? _ Hw2]; subst.
      inversion Hw2 as [|? ? Hx _]; subst. discriminate Hx.
    + intros w h [_ Hw] [Hne _] E.
      destruct w as [|a [|b [|c w]]]; try discriminate E.
      * injection E as _ _ E. subst h. now apply Hne.
      * injection E as _ _ E _. subst c. inversion Hw as [|? ? _ Hw1]; subst.
        inversion Hw1 as [|? ? _ Hw2]; subst. inversion Hw2 as [|? ? Hx _]; subst.
        discriminate Hx.
Defined.

(** ** What [trim] returns *)

Lemma trimStart_idem (s : jsstring) : trimStart (trimStart s) = trimStart s.
Proof.
  induction s as [|a s IH]; [reflexivity|]. simpl.
  destruct (is_space a) eqn:Ha; [assumption|]. simpl. now rewrite Ha.
Qed.

Lemma trimStart_keeps_last (s : jsstring) (a : ascii) :
  is_space a = false -> trimStart (s ++ [a]) = trimStart s ++ [a].
Proof.
  intros Ha. induction s as [|b s IH]; simpl.
  - now rewrite Ha.
  - destruct (is_space b); [assumption | reflexivity].
Qed.

Lemma trimStart_head (s : jsstring) :
  match trimStart s with
  | [] => True
  | a :: _ => is_space a = false
  end.
Proof.
  induction s as [|a s IH]; simpl; [trivial|].
  destruct (is_space a) eqn:Ha; [assumption | exact Ha].
Qed.

Lemma trim_idem (s : jsstring) : trim (trim s) = trim s.
Proof.
  unfold trim. pose proof (trimStart_head s) as Hh.
  destruct (trimStart s) as [|a u]; [reflexivity|].
  change (rev (a :: u)) with (rev u ++ [a]).
  rewrite (trimStart_keeps_last (rev u) a Hh), rev_app_distr.
  change (rev [a] ++ rev (trimStart (rev u))) with (a :: rev (trimStart (rev u))).
  rewrite (trimStart_keeps a _ Hh).
  change (rev (a :: rev (trimStart (rev u)))) with (rev (rev (trimStart (rev u))) ++ [a]).
  rewrite rev_involutive, (trimStart_keeps_last _ a Hh), trimStart_idem.
  now rewrite rev_app_distr.
Qed.

(** The alternative text of an img tag is trimmed. *)
Lemma parseHtml_alt_trimmed (line : jsstring) (r : ParsedImageInfo) (a : jsstring) :
  parseHtml line = Some r -> altText r = Some a -> trim a = a.
Proof.
  unfold parseHtml.
  destruct (exec htmlImgRegex line) as [mt|]; [|discriminate].
  destruct (or_else (group 2 mt) (group 3 mt)) as [p|]; [|discriminate].
  destruct (truthy p); [|discriminate].
  intros [= <-]. cbn [altText]. intros Ha.
  destruct (or_else (or_else (group 4 mt) (group 5 mt)) None) as [b|]; [|discriminate].
  destruct (truthy b); [|discriminate]. injection Ha as <-. apply trim_idem.
Qed.

(** C9.  The code breaks the claim on the alternative text of Markdown and
    Wikilink references.  [parseHtml] trims the alternative text it returns,
    on every line; [parseMarkdown] and [parseWikilink] return theirs as the
    pattern captured it: the lines [![ cap ](x.png)] and [![[x.png| cap ]]]
    give the alternative text with a blank on either side, where the img tag
    with the same value of alt gives [cap]. *)
Theorem markdown_and_wikilink_alt_keep_blanks :
  parseImageSyntaxFromLine (chars "![ cap ](x.png)")
  = Some {| path := chars "x.png"; altText := Some (chars " cap ");
            specifiedWidth := None; specifiedHeight := None;
            originalMatch := chars "![ cap ](x.png)"; startIndexInLine := 0;
            isHtml := false; Utils.currentZoomPercent := None |}
  /\ parseImageSyntaxFromLine (chars "![[x.png| cap ]]")
     = Some {| path := chars "x.png"; altText := Some (chars " cap ");
               specifiedWidth := None; specifiedHeight := None;
               originalMatch := chars "![[x.png| cap ]]"; startIndexInLine := 0;
               isHtml := false; Utils.currentZoomPercent := None |}
  /\ trim (chars " cap ") = chars "cap"
  /\ ~ trimmed_parse (chars "![ cap ](x.png)")
  /\ parseImageSyntaxFromLine
       (chars "<img src=" ++ quoted (chars "x.png") ++ chars " alt=" ++ quoted (chars " cap ")
        ++ chars ">")
     = Some {| path := chars "x.png"; altText := Some (chars "cap");
               specifiedWidth := None; specifiedHeight := None;
               originalMatch :=
                 chars "<img src=" ++ quoted (chars "x.png") ++ chars " alt="
                 ++ quoted (chars " cap ") ++ chars ">";
               startIndexInLine := 0; isHtml := true; Utils.currentZoomPercent := None |}
  /\ (forall line r a, parseHtml line = Some r -> altText r = Some a -> trim a = a).
Proof.
  split; [vm_compute; reflexivity|]. split; [vm_compute; reflexivity|].
  split; [reflexivity|]. split; [|split; [vm_compute; reflexivity | exact parseHtml_alt_trimmed]].
  intros H. destruct (H _ eq_refl) as [_ Ha].
  specialize (Ha (chars " cap ") eq_refl). discriminate Ha.
Qed.

(** ** Where a match lies *)

Lemma star_greedy_reach q (k : cont) s : forall i c v,
  star_greedy q k i s c = Some v ->
  exists n, n <= List.length s /\ k (i + n) (skipn n s) c = Some v.
Proof.
  induction s as [|a s IH]; intros i c v H; simpl in H.
  - exists 0. rewrite Nat.add_0_r. split; [simpl; lia | exact H].
  - destruct (q a).
    + destruct (star_greedy q k (S i) s c) as [v'|] eqn:E.
      * inversion H; subst v'. destruct (IH _ _ _ E) as (n & Hn & Hk).
        exists (S n). rewrite Nat.add_succ_r. split; [simpl; lia | exact Hk].
      * exists 0. rewrite Nat.add_0_r. split; [simpl; lia | exact H].
    + exists 0. rewrite Nat.add_0_r. split; [simpl; lia | exact H].
Qed.

Lemma star_lazy_reach q (k : cont) s : forall i c v,
  star_lazy q k i s c = Some v ->
  exists n, n <= List.length s /\ k (i + n) (skipn n s) c = Some v.
Proof.
  induction s as [|a s IH]; intros i c v H; simpl in H.
  - destruct (k i [] c) as [v'|] eqn:E; [|discriminate].
    exists 0. rewrite Nat.add_0_r. split; [simpl; lia | simpl; congruence].
  - destruct (k i (a :: s) c) as [v'|] eqn:E.
    + exists 0. rewrite Nat.add_0_r. split; [simpl; lia | simpl; congruence].
    + destruct (q a); [|discriminate].
      destruct (IH _ _ _ H) as (n & Hn & Hk).
      exists (S n). rewrite Nat.add_succ_r. split; [simpl; lia | exact Hk].
Qed.

Lemma star_reach g q (k : cont) s i c v :
  star g q k i s c = Some v ->
  exists n, n <= List.length s /\ k (i + n) (skipn n s) c = Some v.
Proof.
  destruct g; [apply star_greedy_reach | apply star_lazy_reach].
Qed.

(** A successful run of a pattern hands its continuation a position
    further on, inside the input, and what is left of the input there. *)
Lemma m_reach (r : regex) : forall (k : cont) i s c v,
  m r k i s c = Some v ->
  exists n c', min_length r <= n /\ n <= List.length s
               /\ k (i + n) (skipn n s) c' = Some v.
Proof.
  induction r as [|q|r1 IH1 r2 IH2|r1 IH1 r2 IH2|g q|g q|r IH|g r IH| |];
    intros k i s c v H; cbn [min_length].
  - rewrite m_Empty in H. exists 0, c. rewrite Nat.add_0_r. repeat split; [lia | simpl; lia | exact H].
  - rewrite m_Class in H. destruct s as [|a s]; [discriminate|].
    rewrite one_cons in H. destruct (q a); [|discriminate].
    exists 1, c. rewrite Nat.add_1_r. repeat split; [lia | simpl; lia | exact H].
  - rewrite m_Seq in H. destruct (IH1 _ _ _ _ _ H) as (n1 & c1 & Hm1 & Hn1 & H1).
    destruct (IH2 _ _ _ _ _ H1) as (n2 & c2 & Hm2 & Hn2 & H2).
    rewrite length_skipn in Hn2.
    exists (n1 + n2), c2. repeat split; [lia | lia |].
    rewrite skipn_skipn in H2. rewrite Nat.add_assoc, (Nat.add_comm n1 n2). exact H2.
  - rewrite m_Alt in H. destruct (m r1 k i s c) as [v'|] eqn:E.
    + inversion H; subst v'. destruct (IH1 _ _ _ _ _ E) as (n & c' & Hm & Hn & Hk).
      exists n, c'. repeat split; [lia | lia | exact Hk].
    + destruct (IH2 _ _ _ _ _ H) as (n & c' & Hm & Hn & Hk).
      exists n, c'. repeat split; [lia | lia | exact Hk].
  - rewrite m_Star in H. destruct (star_reach _ _ _ _ _ _ _ H) as (n & Hn & Hk).
    exists n, c. repeat split; [lia | assumption | assumption].
  - rewrite m_Plus in H. destruct s as [|a s]; [discriminate|].
    rewrite one_cons in H. destruct (q a); [|discriminate].
    destruct (star_reach _ _ _ _ _ _ _ H) as (n & Hn & Hk).
    exists (S n), c. rewrite Nat.add_succ_r. repeat split; [lia | simpl; lia | exact Hk].
  - rewrite m_Opt in H. destruct (m r (nonempty_since i k) i s c) as [v'|] eqn:E.
    + inversion H; subst v'. destruct (IH _ _ _ _ _ E) as (n & c' & Hm & Hn & Hk).
      unfold nonempty_since in Hk. destruct (Nat.eqb (i + n) i); [discriminate|].
      exists n, c'. repeat split; [lia | assumption | assumption].
    + exists 0, c. rewrite Nat.add_0_r. repeat split; [lia | simpl; lia | exact H].
  - rewrite m_Group in H. destruct (IH _ _ _ _ _ H) as (n & c' & Hm & Hn & Hk).
    unfold close_group in Hk. eexists n, _. repeat split; [assumption | assumption | exact Hk].
  - rewrite m_Bol in H. destruct (Nat.eqb i 0); [|discriminate].
    exists 0, c. rewrite Nat.add_0_r. repeat split; [lia | simpl; lia | exact H].
  - rewrite m_Eol in H. destruct s; [|discriminate].
    exists 0, c. rewrite Nat.add_0_r. repeat split; [lia | simpl; lia | exact H].
Qed.

(** The match found by [search] is a slice of the text searched. *)
Lemma search_span (r : regex) (s : jsstring) : forall i mt,
  search r i s = Some mt ->
  exists d n, index mt = i + d /\ min_length r <= n /\ d + n <= List.length s
              /\ matched mt = firstn n (skipn d s).
Proof.
  induction s as [|a s IH]; intros i mt H; simpl in H.
  - destruct (m r accept i [] []) as [[e c]|] eqn:E; [|discriminate].
    inversion H; subst mt; clear H. simpl.
    destruct (m_reach _ _ _ _ _ _ E) as (n & c' & Hm & Hn & Hk).
    exists 0, n. rewrite Nat.add_0_r, firstn_nil. simpl in Hn.
    repeat split; [lia | lia |]. destruct n; reflexivity.
  - destruct (m r accept i (a :: s) []) as [[e c]|] eqn:E.
    + inversion H; subst mt; clear H. simpl index; simpl matched.
      destruct (m_reach _ _ _ _ _ _ E) as (n & c' & Hm & Hn & Hk).
      unfold accept in Hk. inversion Hk; subst e c'.
      exists 0, n. rewrite Nat.add_0_r.
      replace (i + n - i) with n by lia. auto.
    + destruct (IH _ _ H) as (d & n & Hi & Hm & Hn & Hk).
      exists (S d), n. rewrite Nat.add_succ_r. simpl.
      repeat split; [exact Hi | lia | lia | exact Hk].
Qed.

Lemma exec_span (r : regex) (s : jsstring) (mt : MatchResult) :
  exec r s = Some mt ->
  min_length r <= List.length (matched mt)
  /\ index mt + List.length (matched mt) <= List.length s
  /\ firstn (List.length (matched mt)) (skipn (index mt) s) = matched mt.
Proof.
  intros H. destruct (search_span _ _ _ _ H) as (d & n & Hi & Hm & Hn & Hk).
  simpl in Hi. subst d.
  assert (L : List.length (matched mt) = n).
  { rewrite Hk, length_firstn, length_skipn. lia. }
  rewrite L. repeat split; [lia | lia | symmetry; exact Hk].
Qed.

Lemma parser_span (line : jsstring) (r : ParsedImageInfo) :
  parseMarkdown line = Some r \/ parseWikilink line = Some r \/ parseHtml line = Some r ->
  6 <= List.length (originalMatch r)
  /\ startIndexInLine r + List.length (originalMatch r) <= List.length line
  /\ slice line (startIndexInLine r) (startIndexInLine r + List.length (originalMatch r))
     = originalMatch r.
Proof.
  unfold slice. replace (startIndexInLine r + List.length (originalMatch r) - startIndexInLine r)
    with (List.length (originalMatch r)) by lia.
  intros [H|[H|H]].
  - unfold parseMarkdown in H. destruct (exec markdownRegex line) as [mt|] eqn:E; [|discriminate].
    inversion H; subst r; clear H. simpl.
    destruct (exec_span _ _ _ E) as (Hm & Hs). split; [exact Hm | exact Hs].
  - unfold parseWikilink in H. destruct (exec wikilinkRegex line) as [mt|] eqn:E; [|discriminate].
    inversion H; subst r; clear H. simpl.
    destruct (exec_span _ _ _ E) as (Hm & Hs). split; [exact Hm | exact Hs].
  - unfold parseHtml in H. destruct (exec htmlImgRegex line) as [mt|] eqn:E; [|discriminate].
    cbv zeta in H.
    destruct (or_else (group 2 mt) (group 3 mt)) as [p|]; [|discriminate].
    destruct (truthy p); [|discriminate].
    inversion H; subst r; clear H. simpl.
    destruct (exec_span _ _ _ E) as (Hm & Hs). split; [|exact Hs].
    change (min_length htmlImgRegex) with 11 in Hm. lia.
Qed.

(** A result of the dispatcher is the result of one of the three parsers. *)
Lemma parse_origin (line : jsstring) (r : ParsedImageInfo) :
  parseImageSyntaxFromLine line = Some r ->
  parseMarkdown line = Some r \/ parseWikilink line = Some r \/ parseHtml line = Some r.
Proof.
  unfold parseImageSyntaxFromLine. intros H.
  destruct (parseMarkdown line) as [r1|] eqn:E1.
  - left. congruence.
  - destruct (parseWikilink line) as [r2|] eqn:E2.
    + right; left. congruence.
    + right; right. exact H.
Qed.

(** X1.  Whatever [parseImageSyntaxFromLine] returns, the text it reports
    as matched is the slice of the line that starts at the reported index:
    the span lies inside the line, holds [originalMatch] exactly, and is at
    least six characters long. *)
Theorem parse_reports_its_span (line : jsstring) (r : ParsedImageInfo) :
  parseImageSyntaxFromLine line = Some r ->
  6 <= List.length (originalMatch r)
  /\ startIndexInLine r + List.length (originalMatch r) <= List.length line
  /\ slice line (startIndexInLine r) (startIndexInLine r + List.length (originalMatch r))
     = originalMatch r.
Proof.
  intros H. destruct (parse_origin _ _ H) as [Hm|[Hw|Hh]].
  - apply parser_span. now left.
  - apply parser_span. right. now left.
  - apply parser_span. right. now right.
Qed.

Lemma parse_reports_its_span_witness :
  parseImageSyntaxFromLine (chars "see ![[a.png|30x40]] there")
  = Some {| path := chars "a.png"; altText := None; specifiedWidth := Some 30%N;
            specifiedHeight := Some 40%N; originalMatch := chars "![[a.png|30x40]]";
            startIndexInLine := 4; isHtml := false; Utils.currentZoomPercent := None |}
  /\ slice (chars "see ![[a.png|30x40]] there") 4 (4 + 16) = chars "![[a.png|30x40]]".
Proof.
  assert (E : parseImageSyntaxFromLine (chars "see ![[a.png|30x40]] there")
    = Some {| path := chars "a.png"; altText := None; specifiedWidth := Some 30%N;
            specifiedHeight := Some 40%N; originalMatch := chars "![[a.png|30x40]]";
            startIndexInLine := 4; isHtml := false; Utils.currentZoomPercent := None |})
    by (vm_compute; reflexivity).
  split; [exact E|].
  exact (proj2 (proj2 (parse_reports_its_span _ _ E))).
Defined.

(** ** Lines without image notation *)

Lemma dead_lit_i (w : jsstring) (r : regex) (k : cont) (s : jsstring) :
  occurs (exactly_i w) s = false -> dead (m (Seq (lit_i w) r) k) s.
Proof.
  intros H n j c. rewrite m_Seq, m_lit_i.
  apply (occurs_skipn _ _ n) in H.
  destruct (skipn n s) as [|a t].
  - simpl in H. rewrite orb_false_r in H. now rewrite H.
  - apply occurs_cons in H. destruct H as [-> _]. reflexivity.
Qed.

Lemma parseHtml_needs_img_open (s : jsstring) :
  occurs img_open s = false -> parseHtml s = None.
Proof.
  intros H. unfold parseHtml, exec, htmlImgRegex. cbn [seq].
  rewrite search_dead; [reflexivity|].
  intros n j c. rewrite m_Group. now apply dead_lit_i.
Qed.

Lemma extractFirstImagePath_needs_notation (s : jsstring) :
  occurs bang_bracket s = false -> occurs img_open s = false ->
  extractFirstImagePath s = None.
Proof.
  intros Hb Hi. unfold extractFirstImagePath.
  destruct (truthy s); [|reflexivity].
  unfold exec, extract_htmlRegex, extract_markdownRegex, extract_wikilinkRegex. cbn [seq].
  rewrite search_dead by (now apply dead_lit_i).
  rewrite (search_lit_absent "![" _ s Hb 0).
  rewrite (search_lit_absent "![[" _ s); [reflexivity|].
  apply (occurs_longer bang_bracket [is_char "["] s Hb).
Qed.

(** X2.  A line in which neither the two characters [![] nor, in any
    letter case, the four characters [<img] occur is no image reference:
    the parser and the deprecated path extractor both return nothing. *)
Theorem no_notation_no_parse (line : jsstring) :
  occurs bang_bracket line = false -> occurs img_open line = false ->
  parseImageSyntaxFromLine line = None /\ extractFirstImagePath line = None.
Proof.
  intros Hb Hi. split.
  - unfold parseImageSyntaxFromLine.
    rewrite (parseMarkdown_needs_bang_bracket _ Hb), (parseWikilink_needs_bang_bracket _ Hb).
    now apply parseHtml_needs_img_open.
  - now apply extractFirstImagePath_needs_notation.
Qed.

Lemma no_notation_no_parse_witness :
  parseImageSyntaxFromLine (chars "a ! [x](y) and < img src=z>") = None
  /\ extractFirstImagePath (chars "a ! [x](y) and < img src=z>") = None.
Proof.
  apply no_notation_no_parse; vm_compute; reflexivity.
Defined.

(** ** The text engine: lines and replacements *)

Lemma lineAt_aux_spec (d : jsstring) : forall start i acc pos line pre,
  lineAt_aux d start i acc pos = Ok line ->
  List.length pre = start -> i = start + List.length acc -> start <= pos ->
  exists pre' post,
    pre ++ rev acc ++ d = pre' ++ text line ++ post
    /\ from line = List.length pre'
    /\ to line = from line + List.length (text line)
    /\ from line <= pos <= to line.
Proof.
  induction d as [|ch d IH]; intros start i acc pos line pre H Hpre Hi Hpos; simpl in H.
  - destruct (Nat.leb_spec pos i) as [Hle|]; [|discriminate].
    inversion H; subst line; clear H. simpl.
    exists pre, []. rewrite length_rev. repeat split; try lia.
  - destruct (Ascii.eqb ch "010").
    + destruct (Nat.leb_spec pos i) as [Hle|Hgt].
      * inversion H; subst line; clear H. simpl.
        exists pre, (ch :: d). rewrite length_rev. repeat split; try lia.
      * destruct (IH (S i) (S i) [] pos line (pre ++ rev acc ++ [ch]) H) as (pre' & post & E & R).
        -- rewrite !length_app, length_rev. simpl. lia.
        -- simpl. lia.
        -- lia.
        -- exists pre', post. split; [|exact R].
           rewrite <- E. simpl. now rewrite <- !app_assoc.
    + destruct (IH start (S i) (ch :: acc) pos line pre H Hpre) as (pre' & post & E & R).
      * simpl. lia.
      * exact Hpos.
      * exists pre', post. split; [|exact R].
        rewrite <- E. simpl. now rewrite <- !app_assoc.
Qed.

(** The line at a position is a stretch of the document that starts at
    [from], ends at [to] and holds the position. *)
Lemma lineAt_spec (v : EditorView) (p : nat) (line : Line) :
  lineAt v p = Ok line ->
  exists pre post,
    doc v = pre ++ text line ++ post
    /\ from line = List.length pre
    /\ to line = from line + List.length (text line)
    /\ from line <= p <= to line.
Proof.
  intros H. unfold lineAt in H.
  destruct (lineAt_aux_spec _ _ _ _ _ _ [] H eq_refl eq_refl (Nat.le_0_l _))
    as (pre' & post & E & R).
  exists pre', post. split; [exact E | exact R].
Qed.

(** A position inside the document has a line. *)
Lemma lineAt_aux_total (d : jsstring) : forall start i acc pos,
  pos <= i + List.length d -> exists line, lineAt_aux d start i acc pos = Ok line.
Proof.
  induction d as [|ch d IH]; intros start i acc pos H; simpl in *.
  - destruct (Nat.leb_spec pos i); [eexists; reflexivity | lia].
  - destruct (Ascii.eqb ch "010").
    + destruct (Nat.leb_spec pos i); [eexists; reflexivity|]. apply IH. lia.
    + apply IH. lia.
Qed.

Lemma lineAt_aux_beyond (d : jsstring) : forall start i acc pos,
  i + List.length d < pos -> lineAt_aux d start i acc pos = RangeError.
Proof.
  induction d as [|ch d IH]; intros start i acc pos H; simpl in *.
  - destruct (Nat.leb_spec pos i); [lia | reflexivity].
  - destruct (Ascii.eqb ch "010").
    + destruct (Nat.leb_spec pos i); [lia|]. apply IH. lia.
    + apply IH. lia.
Qed.

Lemma lineAt_total (v : EditorView) (p : nat) :
  p <= List.length (doc v) -> exists line, lineAt v p = Ok line.
Proof. intros H. apply lineAt_aux_total. simpl. exact H. Qed.

Lemma lineAt_beyond (v : EditorView) (p : nat) :
  List.length (doc v) < p -> lineAt v p = RangeError.
Proof. intros H. apply lineAt_aux_beyond. simpl. exact H. Qed.

Lemma replaceRange_middle (u w v ins : jsstring) :
  replaceRange (u ++ w ++ v) (List.length u) (List.length u + List.length w) ins
  = u ++ ins ++ v.
Proof.
  unfold replaceRange. f_equal.
  - rewrite firstn_app, Nat.sub_diag, firstn_all. simpl. apply List.app_nil_r.
  - f_equal. rewrite skipn_app, skipn_all2 by lia.
    replace (List.length u + List.length w - List.length u) with (List.length w) by lia.
    rewrite skipn_app, skipn_all, Nat.sub_diag. reflexivity.
Qed.

Lemma slice_split (l w : jsstring) (a : nat) :
  a + List.length w <= List.length l ->
  slice l a (a + List.length w) = w ->
  l = firstn a l ++ w ++ skipn (a + List.length w) l
  /\ List.length (firstn a l) = a.
Proof.
  unfold slice. intros Hle H.
  replace (a + List.length w - a) with (List.length w) in H by lia.
  split; [|rewrite length_firstn; lia].
  rewrite <- (firstn_skipn a l) at 1. f_equal.
  rewrite <- (firstn_skipn (List.length w) (skipn a l)) at 1.
  rewrite H, skipn_skipn, (Nat.add_comm (List.length w) a). reflexivity.
Qed.

(** Replacing a slice of the line at a position. *)
Lemma dispatch_on_slice (v : EditorView) (p : nat) (line : Line) (a : nat) (w : jsstring)
      (ins : jsstring) (ev : string) :
  lineAt v p = Ok line ->
  a + List.length w <= List.length (text line) ->
  slice (text line) a (a + List.length w) = w ->
  exists pre post,
    doc v = pre ++ w ++ post
    /\ List.length pre = from line + a
    /\ replaces v (replacement v (from line + a) (from line + a + List.length w) ins ev)
                pre ins post.
Proof.
  intros Hl Hle Hs.
  destruct (lineAt_spec _ _ _ Hl) as (pre & post & Hdoc & Hfrom & Hto & _).
  destruct (slice_split _ _ _ Hle Hs) as (Ht & Hlen).
  exists (pre ++ firstn a (text line)), (skipn (a + List.length w) (text line) ++ post).
  assert (Hd : doc v = (pre ++ firstn a (text line)) ++ w
                       ++ (skipn (a + List.length w) (text line) ++ post)).
  { rewrite Hdoc. rewrite Ht at 1. now rewrite <- !app_assoc. }
  assert (Hl1 : List.length (pre ++ firstn a (text line)) = from line + a).
  { rewrite length_app, Hlen. lia. }
  split; [exact Hd|]. split; [exact Hl1|].
  assert (Hlen2 : from line + a + List.length w <= List.length (doc v)).
  { rewrite Hd, !length_app. lia. }
  assert (Hr : replaceRange (doc v) (from line + a) (from line + a + List.length w) ins
               = (pre ++ firstn a (text line)) ++ ins
                 ++ (skipn (a + List.length w) (text line) ++ post)).
  { rewrite Hd at 1. rewrite <- Hl1. apply replaceRange_middle. }
  split.
  - intros Hsel.
    destruct (dispatch_inside v (replacement v (from line + a) (from line + a + List.length w)
                                             ins ev))
      as (v' & Hv & Hdoc' & Hhead & Hlog).
    + cbn. lia.
    + cbn. exact Hlen2.
    + cbn [replacement changes change_from change_to insert selection_anchor].
      rewrite Hr. exact Hsel.
    + exists v'. split; [exact Hv|]. split; [|split; assumption].
      rewrite Hdoc'. exact Hr.
  - intros Hsel. apply dispatch_outside.
    cbn [replacement changes change_from change_to insert selection_anchor].
    rewrite Hr. exact Hsel.
Qed.

(** Replacing the span the parser reported, shifted by the start of the
    line. *)
Lemma dispatch_on_span (v : EditorView) (p : nat) (line : Line) (r : ParsedImageInfo)
      (ins : jsstring) (ev : string) :
  lineAt v p = Ok line ->
  parseImageSyntaxFromLine (text line) = Some r ->
  exists pre post,
    doc v = pre ++ originalMatch r ++ post
    /\ List.length pre = from line + startIndexInLine r
    /\ replaces v (replacement v (from line + startIndexInLine r)
                               (from line + startIndexInLine r + List.length (originalMatch r))
                               ins ev)
                pre ins post.
Proof.
  intros Hl Hp.
  destruct (parser_span _ _ (parse_origin _ _ Hp)) as (_ & Hle & Hs).
  exact (dispatch_on_slice v p line _ _ ins ev Hl Hle Hs).
Qed.

(** Replacing the match of a pattern on the text of a line. *)
Lemma dispatch_on_match (v : EditorView) (p : nat) (line : Line) (re : regex)
      (mt : MatchResult) (ins : jsstring) (ev : string) :
  lineAt v p = Ok line ->
  exec re (text line) = Some mt ->
  exists pre post,
    doc v = pre ++ matched mt ++ post
    /\ List.length pre = from line + index mt
    /\ replaces v (replacement v (from line + index mt)
                               (from line + index mt + List.length (matched mt)) ins ev)
                pre ins post.
Proof.
  intros Hl Hp.
  destruct (exec_span _ _ _ Hp) as (_ & Hle & Hs).
  apply (dispatch_on_slice v p line (index mt) (matched mt) ins ev Hl Hle).
  unfold slice. now replace (index mt + List.length (matched mt) - index mt)
    with (List.length (matched mt)) by lia.
Qed.

(** ** The press: arming a drag *)

(** X15.  A press on an image throws in one case only: the line under
    the image parses as a Markdown or Wikilink reference, the tag that is
    to replace it is shorter than the reference, and the selection head lies
    beyond the end of the document so shortened, which the engine refuses.
    When the press returns, either it was ignored and left controller and
    page as they were, or it armed a session for the reference parsed from
    the line under the image; then, for an img tag the view is untouched,
    and for a Markdown or Wikilink reference the document changed in exactly
    one place: the reference itself, found at the reported offset, was
    replaced by the tag with zoom 100, by one transaction tagged
    [image.resize.convert] that keeps the selection head. *)
Theorem press_rewrites_only_the_reference
        (Math_sqrt : Q -> Q) (resizeController : t) (page : Page)
        (event : MouseEvent) (imgElement : HTMLImageElement) :
  match handleImageSpecificMouseDown Math_sqrt resizeController page event imgElement with
  | Ok (this', page') =>
      (this' = resizeController /\ page' = page)
      \/ exists lineInfo r,
           getLineInfoFromElement (view page) imgElement = Some lineInfo
           /\ parseImageSyntaxFromLine (lineText lineInfo) = Some r
           /\ isDragging this' = true
           /\ draggedImageInfo this' = Some (snapshot r)
           /\ mousemove_listener page' = true /\ mouseup_listener page' = true
           /\ if isHtml r then view page' = view page
              else exists pre post tr,
                  doc (view page) = pre ++ originalMatch r ++ post
                  /\ List.length pre = lineFrom lineInfo + startIndexInLine r
                  /\ doc (view page') = pre ++ newImgTag (snapshot r) 100 ++ post
                  /\ selection_head (view page') = selection_head (view page)
                  /\ dispatched (view page') = dispatched (view page) ++ [tr]
                  /\ userEvent tr = "image.resize.convert"%string
  | RangeError =>
      exists lineInfo r pre post,
        getLineInfoFromElement (view page) imgElement = Some lineInfo
        /\ parseImageSyntaxFromLine (lineText lineInfo) = Some r
        /\ isHtml r = false
        /\ doc (view page) = pre ++ originalMatch r ++ post
        /\ List.length pre = lineFrom lineInfo + startIndexInLine r
        /\ List.length (pre ++ newImgTag (snapshot r) 100 ++ post) < selection_head (view page)
        /\ List.length (newImgTag (snapshot r) 100) < List.length (originalMatch r)
  end.
Proof.
  unfold handleImageSpecificMouseDown.
  destruct (truthy (style_cursor imgElement) && includes (style_cursor imgElement) (chars "-resize"));
    [|auto].
  destruct (getLineInfoFromElement (view page) imgElement) as [lineInfo|] eqn:Hli; [|auto].
  destruct (parseImageSyntaxFromLine (lineText lineInfo)) as [r|] eqn:Hp; [|auto].
  unfold getLineInfoFromElement in Hli.
  destruct (posAtDOM imgElement) as [p|]; [|discriminate].
  destruct (lineAt (view page) p) as [line|] eqn:Hl; [|discriminate].
  injection Hli as <-. cbn [lineText lineFrom] in *.
  unfold startResize. cbn [lineFrom]. fold (snapshot r).
  destruct (isHtml r) eqn:Hh.
  - right. eexists. exists r. rewrite Hh. cbn. repeat split. exact Hp.
  - destruct (dispatch_on_span _ _ _ _ (newImgTag (snapshot r) 100) "image.resize.convert" Hl Hp)
      as (pre & post & Hdoc & Hlen & Hin & Hout).
    unfold replacement in Hin, Hout.
    destruct (Nat.le_gt_cases (selection_head (view page))
                (List.length (pre ++ newImgTag (snapshot r) 100 ++ post))) as [Hle|Hgt].
    + destruct (Hin Hle) as (v' & -> & Hdoc' & Hhead & Hlog).
      right. eexists. exists r. rewrite Hh. cbn.
      split; [reflexivity|]. split; [exact Hp|]. repeat split.
      exists pre, post. eexists. repeat split; [exact Hdoc | exact Hlen | exact Hdoc'
                                                | exact Hhead | exact Hlog | reflexivity].
    + rewrite (Hout Hgt).
      assert (Hshort : List.length (newImgTag (snapshot r) 100) < List.length (originalMatch r)).
      { pose proof (selection_inside (view page)) as Hsel.
        rewrite Hdoc in Hsel. rewrite !length_app in Hsel, Hgt. lia. }
      eexists. exists r, pre, post.
      split; [reflexivity|]. split; [exact Hp|]. split; [exact Hh|].
      split; [exact Hdoc|]. split; [exact Hlen|]. split; [exact Hgt | exact Hshort].
Qed.

Example press_with_cursor_at_end_throws :
  handleImageSpecificMouseDown integer_sqrt init
    {| view := {| doc := padded_wikilink; selection_head := 56; dispatched := [];
                  head_in_doc := eq_refl |};
       mousemove_listener := false; mouseup_listener := false |}
    (pointer_at 12 120) (an_image "ew-resize" 0)
  = RangeError.
Proof. vm_compute. reflexivity. Qed.

(** ** The release: committing a drag *)

(** The zoom written on the element by a pointer move is read back by the
    release. *)
Lemma zoom_read_back (n : N) :
  captured_int (exec (Group 1 (Plus true is_digit)) (toString n ++ chars "%")) = Some n.
Proof.
  destruct (digits_inv _ (toString_digits n)) as (d & w & E & Hd & Hw).
  assert (Hm : m (Group 1 (Plus true is_digit)) accept 0 (toString n ++ chars "%") []
               = Some (S (List.length w), [(1, toString n)])).
  { rewrite E. change ((d :: w) ++ chars "%") with (d :: w ++ chars "%").
    apply take_group, plus_greedy_run; try assumption; [reflexivity|].
    unfold close_group, accept. cbn [Nat.add Nat.sub].
    change (d :: w ++ chars "%") with ((d :: w) ++ chars "%").
    now rewrite <- (firstn_exact (d :: w) (chars "%")) at 2. }
  rewrite (exec_at_start _ _ _ _ Hm). unfold captured_int, group, group_of, group. cbn.
  rewrite (truthy_digits _ (toString_digits n)). now rewrite parseInt_toString.
Qed.

(** What a release does to the view: nothing, or one replacement that
    inserts the tag of the session's image data at the zoom read from the
    element. *)
Lemma release_cases (this this' : t) (page page' : Page) (event : MouseEvent) :
  handleDocumentMouseUp this page event = Ok (this', page') ->
  (this', page') = resetState this page
  \/ exists img info a b,
       activeImgElement this = Some img
       /\ draggedImageInfo this = Some info
       /\ dispatch (view page) (update_with (view page) a b (newImgTag info (finalZoom this img)))
          = Ok (view page')
       /\ (this', page') = resetState this page'.
Proof.
  unfold handleDocumentMouseUp. intros H.
  destruct (activeImgElement this) as [img|]; [|injection H as <- <-; auto].
  destruct (lineInfoAtDragStart this) as [lineInfo|]; [|injection H as <- <-; auto].
  destruct (draggedImageInfo this) as [info|]; [|injection H as <- <-; auto].
  destruct (isDragging this); [|injection H as <- <-; auto].
  cbv zeta in H. fold (finalZoom this img) in H.
  destruct (lineAt (view page) (lineFrom lineInfo)) as [line|]; [|discriminate].
  match type of H with
  | match ?target with _ => _ end = _ => destruct target as [[fromPos toPos]|]
  end; [|injection H as <- <-; auto].
  fold (update_with (view page) fromPos toPos (newImgTag info (finalZoom this img))) in H.
  destruct (dispatch (view page) _) as [v|] eqn:Hd; [|discriminate].
  injection H as <- <-. right.
  exists img, info, fromPos, toPos. cbn. auto.
Qed.

Lemma finalZoom_bounds (this : t) (img : HTMLImageElement) : (10 <= finalZoom this img <= 500)%N.
Proof. unfold finalZoom. lia. Qed.

(** X19.  Whenever a release returns, the session is over: the controller
    no longer drags, holds no line snapshot, no image data and no element,
    and both listeners on the document are detached.  The view is either
    untouched or changed by exactly one transaction tagged
    [image.resize.update]; that transaction keeps the selection head and
    inserts the tag of the session's image data with a zoom between 10 and
    500. *)
Theorem release_ends_the_session (this this' : t) (page page' : Page) (event : MouseEvent) :
  handleDocumentMouseUp this page event = Ok (this', page') ->
  isDragging this' = false
  /\ lineInfoAtDragStart this' = None /\ draggedImageInfo this' = None
  /\ activeImgElement this' = None
  /\ mousemove_listener page' = false /\ mouseup_listener page' = false
  /\ (view page' = view page
      \/ exists info z a b,
           draggedImageInfo this = Some info
           /\ (10 <= z <= 500)%N
           /\ dispatch (view page) (update_with (view page) a b (newImgTag info z))
              = Ok (view page')).
Proof.
  intros H. destruct (release_cases _ _ _ _ _ H) as [E|(img & info & a & b & Ha & Hi & Hd & E)];
    injection E as -> E'.
  - subst page'. cbn. repeat split; auto.
  - rewrite E' at 1 2. cbn. repeat split. right.
    exists info, (finalZoom this img), a, b. split; [exact Hi|].
    split; [apply finalZoom_bounds | exact Hd].
Qed.

Lemma release_ends_the_session_witness :
  exists this' page',
    handleDocumentMouseUp running_session (idle_page upgraded_tag) (pointer_at 330 120)
    = Ok (this', page')
    /\ isDragging this' = false /\ mouseup_listener page' = false.
Proof.
  destruct (handleDocumentMouseUp running_session (idle_page upgraded_tag) (pointer_at 330 120))
    as [[this' page']|] eqn:E.
  - exists this', page'. split; [reflexivity|].
    pose proof (release_ends_the_session _ _ _ _ _ E) as (H1 & _ & _ & _ & _ & H2 & _).
    split; [exact H1 | exact H2].
  - vm_compute in E. discriminate E.
Defined.

(** X18.  Preview and commit agree: when a pointer move has previewed a zoom
    on a running session, a release that follows and rewrites the document
    inserts the tag with that very zoom, whatever the baseline was; the move
    itself leaves the page as it is. *)
Theorem release_commits_the_preview
        (Math_sqrt : Q -> Q) (this : t) (page : Page) (move release : MouseEvent)
        (img : HTMLImageElement) (lineInfo : LineDetails) (info : DraggedImageInfo) :
  isDragging this = true ->
  activeImgElement this = Some img ->
  lineInfoAtDragStart this = Some lineInfo ->
  draggedImageInfo this = Some info ->
  truthy_opt (dragged_path info) = true ->
  exists this1,
    handleDocumentMouseMove Math_sqrt this page move = (this1, page)
    /\ forall this' page',
         handleDocumentMouseUp this1 page release = Ok (this', page') ->
         view page' = view page
         \/ exists a b,
              dispatch (view page)
                (update_with (view page) a b
                   (newImgTag info
                      (Z.to_N (newZoom this (distanceToCenter Math_sqrt (imageCenterX this)
                                                              (imageCenterY this) move)))))
              = Ok (view page').
Proof.
  intros Hd Ha Hl Hi Hp. unfold handleDocumentMouseMove.
  rewrite Ha, Hl, Hi, Hd, Hp. cbn [andb].
  eexists. split; [reflexivity|].
  intros this' page' H.
  destruct (release_cases _ _ _ _ _ H) as [E|(img1 & info1 & a & b & Ha1 & Hi1 & Hd1 & E)].
  - left. injection E as _ ->. reflexivity.
  - right. exists a, b. cbn in Ha1, Hi1. injection Ha1 as <-.
    assert (info1 = info) as -> by congruence.
    rewrite <- Hd1. do 3 f_equal.
    unfold finalZoom. cbn [style_zoom activeImgElement]. rewrite zoom_read_back.
    cbn [currentZoomPercent].
    pose proof (clamp_bounds
      (Math_round (inject_Z (Z.of_N (currentZoomPercent this))
                   + (distanceToCenter Math_sqrt (imageCenterX this) (imageCenterY this) move
                      - initialDistanceToCenter this) * zoomSensitivity)%Q)) as B.
    unfold newZoom in *. cbv zeta. lia.
Qed.

Lemma release_commits_the_preview_witness :
  exists this1,
    handleDocumentMouseMove integer_sqrt running_session (idle_page upgraded_tag) (pointer_at 580 120)
    = (this1, idle_page upgraded_tag)
    /\ forall this' page',
         handleDocumentMouseUp this1 (idle_page upgraded_tag) (pointer_at 580 120) = Ok (this', page') ->
         view page' = view (idle_page upgraded_tag)
         \/ exists a b,
              dispatch (view (idle_page upgraded_tag))
                (update_with (view (idle_page upgraded_tag)) a b
                   (newImgTag {| dragged_path := Some (chars "img.png");
                                 dragged_altText := Some (chars "cap");
                                 sourceWidth := None; sourceHeight := None |}
                      (Z.to_N (newZoom running_session
                                 (distanceToCenter integer_sqrt 170 120 (pointer_at 580 120))))))
              = Ok (view page').
Proof.
  exact (release_commits_the_preview integer_sqrt running_session (idle_page upgraded_tag)
           (pointer_at 580 120) (pointer_at 580 120) (an_image "ew-resize" 0)
           {| pos := 0; lineText := markdown_line; lineFrom := 0; lineTo := 15 |}
           {| dragged_path := Some (chars "img.png"); dragged_altText := Some (chars "cap");
              sourceWidth := None; sourceHeight := None |}
           eq_refl eq_refl eq_refl eq_refl eq_refl).
Defined.

(** X20.  When the line at the snapshot's offset still starts at that
    offset and holds an img tag for the session's path, the release changes
    the document in exactly one place: the first such tag on the line is
    replaced by the tag rebuilt from the session's image data at the
    committed zoom, and the selection head is kept.  It throws, and rewrites
    nothing, exactly when the selection head lies beyond the end of the
    document so rewritten, which takes a new tag shorter than the old
    one. *)
Theorem release_rewrites_only_the_tag
        (this : t) (page : Page) (event : MouseEvent)
        (img : HTMLImageElement) (lineInfo : LineDetails) (info : DraggedImageInfo)
        (line : Line) (found : MatchResult) :
  isDragging this = true ->
  activeImgElement this = Some img ->
  lineInfoAtDragStart this = Some lineInfo ->
  draggedImageInfo this = Some info ->
  lineAt (view page) (lineFrom lineInfo) = Ok line ->
  from line = lineFrom lineInfo ->
  exec (imgTagToReplaceRegex (match dragged_path info with Some p => p | None => [] end))
       (text line) = Some found ->
  exists pre post,
    doc (view page) = pre ++ matched found ++ post
    /\ List.length pre = lineFrom lineInfo + index found
    /\ (selection_head (view page)
          <= List.length (pre ++ newImgTag info (finalZoom this img) ++ post) ->
        exists this' page',
          handleDocumentMouseUp this page event = Ok (this', page')
          /\ doc (view page') = pre ++ newImgTag info (finalZoom this img) ++ post
          /\ selection_head (view page') = selection_head (view page)
          /\ dispatched (view page')
             = dispatched (view page)
               ++ [update_with (view page) (lineFrom lineInfo + index found)
                     (lineFrom lineInfo + index found + List.length (matched found))
                     (newImgTag info (finalZoom this img))])
    /\ (List.length (pre ++ newImgTag info (finalZoom this img) ++ post)
          < selection_head (view page) ->
        handleDocumentMouseUp this page event = RangeError
        /\ List.length (newImgTag info (finalZoom this img)) < List.length (matched found)).
Proof.
  intros Hd Ha Hl Hi Hline Hfrom Hre.
  destruct (dispatch_on_match _ _ _ _ _ (newImgTag info (finalZoom this img))
              "image.resize.update" Hline Hre) as (pre & post & Hdoc & Hlen & Hin & Hout).
  rewrite Hfrom in Hlen, Hin, Hout. unfold replacement in Hin, Hout.
  exists pre, post. split; [exact Hdoc|]. split; [exact Hlen|].
  unfold handleDocumentMouseUp.
  rewrite Ha, Hl, Hi, Hd, Hline. cbv zeta. rewrite Hre. fold (finalZoom this img).
  split.
  - intros Hsel. destruct (Hin Hsel) as (v' & -> & Hdoc' & Hhead & Hlog).
    eexists. eexists. split; [reflexivity|]. cbn.
    split; [exact Hdoc'|]. split; [exact Hhead | exact Hlog].
  - intros Hsel. rewrite (Hout Hsel). split; [reflexivity|].
    pose proof (selection_inside (view page)) as Hs.
    rewrite Hdoc in Hs. rewrite !length_app in Hs. rewrite !length_app in Hsel. lia.
Qed.

Lemma app_same_length {A} (u u' v v' : list A) :
  u ++ v = u' ++ v' -> List.length u = List.length u' -> u = u' /\ v = v'.
Proof.
  revert u'. induction u as [|a u IH]; intros [|a' u'] H Hl; try discriminate.
  - auto.
  - injection H as -> H. injection Hl as Hl. destruct (IH _ H Hl) as [-> ->]. auto.
Qed.

Lemma release_rewrites_only_the_tag_witness :
  exists this' page',
    handleDocumentMouseUp running_session (idle_page tag_in_text) (pointer_at 330 120)
    = Ok (this', page')
    /\ doc (view page') = tag_in_text
    /\ List.length (dispatched (view page')) = 1.
Proof.
  destruct (release_rewrites_only_the_tag running_session
              (idle_page tag_in_text) (pointer_at 330 120)
              (an_image "ew-resize" 0)
              {| pos := 0; lineText := markdown_line; lineFrom := 0; lineTo := 15 |}
              {| dragged_path := Some (chars "img.png"); dragged_altText := Some (chars "cap");
                 sourceWidth := None; sourceHeight := None |}
              {| from := 0; to := 58; text := tag_in_text |}
              {| index := 4; matched := upgraded_tag; groups := [] |}
              eq_refl eq_refl eq_refl eq_refl eq_refl eq_refl eq_refl)
    as (pre & post & Hdoc & Hlen & Hin & _).
  destruct (app_same_length (chars "see ") pre (upgraded_tag ++ chars " here")
              (upgraded_tag ++ post) Hdoc (eq_sym Hlen)) as [<- Hrest].
  apply app_inv_head in Hrest. subst post.
  destruct (Hin (Nat.le_0_l _)) as (this' & page' & Hup & Hdoc' & _ & Hlog).
  exists this', page'. split; [exact Hup|]. split.
  - rewrite Hdoc'. reflexivity.
  - rewrite Hlog. reflexivity.
Defined.

Example release_with_cursor_at_end_throws :
  handleDocumentMouseUp
    {| isDragging := true; initialImageWidth := 320; initialImageHeight := 0;
       currentZoomPercent := 100;
       lineInfoAtDragStart := lineInfoAtDragStart running_session;
       draggedImageInfo := draggedImageInfo running_session;
       imageCenterX := 170; imageCenterY := 120; initialDistanceToCenter := 160;
       activeImgElement := Some shrunk_image |}
    {| view := {| doc := upgraded_tag; selection_head := 49; dispatched := [];
                  head_in_doc := eq_refl |};
       mousemove_listener := true; mouseup_listener := true |}
    (pointer_at 180 120)
  = RangeError.
Proof. vm_compute. reflexivity. Qed.

(** ** The move: previewing *)

(** X17.  The preview is a function of the last pointer position alone:
    a pointer move never touches the view, and a second move gives what it
    would have given without the first, the baseline zoom and the initial
    distance staying those of the press. *)
Theorem preview_depends_on_last_move
        (Math_sqrt : Q -> Q) (this : t) (page : Page) (first last : MouseEvent) :
  view (snd (handleDocumentMouseMove Math_sqrt this page first)) = view page
  /\ handleDocumentMouseMove Math_sqrt
       (fst (handleDocumentMouseMove Math_sqrt this page first))
       (snd (handleDocumentMouseMove Math_sqrt this page first)) last
     = handleDocumentMouseMove Math_sqrt this page last.
Proof.
  destruct this as [d w h z li info cx cy dist img].
  unfold handleDocumentMouseMove, resetState. cbn.
  destruct img as [img|]; [|cbn; auto].
  destruct li as [li|]; [|cbn; auto].
  destruct info as [info|]; [|cbn; auto].
  destruct d; [|cbn; auto]. cbn.
  destruct (truthy_opt (dragged_path info)) eqn:Hp; [|cbn; auto].
  cbn. rewrite Hp. split; reflexivity.
Qed.

(** ** Document changes during a drag *)

(** X21.  [update] dispatches nothing and leaves the view as it is.  It
    ends a running session in two cases only: the active element has left
    the page, or the position of the line snapshot lies beyond the end of
    the document.  In every other case controller and page stay as they
    were; in particular a change to the text of the line alone never ends
    the drag. *)
Theorem update_ends_session_only_on_loss
        (this : t) (page : Page) (docChanged : bool) (inBody : HTMLImageElement -> bool) :
  let detached := match activeImgElement this with
                  | Some imgElement => negb (inBody imgElement)
                  | None => false
                  end in
  let beyond := match lineInfoAtDragStart this with
                | Some lineInfo => List.length (doc (view page)) <? pos lineInfo
                | None => false
                end in
  view (snd (update this page docChanged inBody)) = view page
  /\ update this page docChanged inBody
     = if isDragging this && docChanged && (detached || beyond)
       then resetState this page
       else (this, page).
Proof.
  cbv zeta. unfold update.
  destruct (isDragging this && docChanged); [|auto].
  cbn [andb].
  destruct (match activeImgElement this with
            | Some imgElement => negb (inBody imgElement)
            | None => false
            end); [cbn; auto|].
  cbn [orb].
  destruct (lineInfoAtDragStart this) as [lineInfo|]; [|auto].
  destruct (Nat.ltb_spec (List.length (doc (view page))) (pos lineInfo)) as [Hlt|Hle].
  - rewrite (lineAt_beyond _ _ Hlt). cbn. auto.
  - destruct (lineAt_total _ _ Hle) as (line & ->). auto.
Qed.

(** ** The hover: which cursor an image shows *)

Lemma Qlt_bool_iff (x y : Q) : Qlt_bool x y = true <-> (x < y)%Q.
Proof.
  unfold Qlt_bool. rewrite negb_true_iff. split.
  - intros H. apply Qnot_le_lt. intros Hle. apply Qle_bool_iff in Hle. congruence.
  - intros H. destruct (Qle_bool y x) eqn:E; [|reflexivity].
    apply Qle_bool_iff in E. exfalso. exact (Qlt_not_le _ _ H E).
Qed.

Lemma edgeCursor_resize (rect : DOMRect) (event : MouseEvent) :
  includes (edgeCursor rect event) (chars "-resize") = true <-> near_an_edge rect event.
Proof.
  unfold near_an_edge, edgeCursor, sensitivity. cbv zeta.
  rewrite <- !Qlt_bool_iff.
  destruct (Qlt_bool (clientX event - left rect) 8),
           (Qlt_bool (width rect - 8) (clientX event - left rect)),
           (Qlt_bool (clientY event - top rect) 8),
           (Qlt_bool (height rect - 8) (clientY event - top rect));
    cbn [andb orb]; (split; [intros H; try (vm_compute in H; discriminate); tauto
                            | intros H; try (vm_compute; reflexivity);
                              destruct H as [H|[H|[H|H]]]; discriminate]).
Qed.

Lemma edgeCursor_grab (rect : DOMRect) (event : MouseEvent) :
  ~ near_an_edge rect event -> edgeCursor rect event = chars "grab".
Proof.
  intros Hn. unfold near_an_edge in Hn. rewrite <- !Qlt_bool_iff in Hn.
  unfold edgeCursor, sensitivity. cbv zeta.
  destruct (Qlt_bool (clientX event - left rect) 8),
           (Qlt_bool (width rect - 8) (clientX event - left rect)),
           (Qlt_bool (clientY event - top rect) 8),
           (Qlt_bool (height rect - 8) (clientY event - top rect));
    try reflexivity; exfalso; apply Hn; tauto.
Qed.

(** X13.  While no drag runs, a pointer move over an image gives the image
    a resize cursor exactly when the pointer is less than eight pixels
    inside one of the edges of the image rectangle (or outside of it), and
    the cursor [grab] otherwise; nothing else about the element changes. *)
Theorem hover_shows_resize_cursor_near_edges
        (resizeController : t) (event : MouseEvent) (imgElement : HTMLImageElement) :
  isDragging resizeController = false ->
  let hovered := handleImageSpecificMouseMove resizeController event imgElement in
  (includes (style_cursor hovered) (chars "-resize") = true
   <-> near_an_edge (boundingClientRect imgElement) event)
  /\ (~ near_an_edge (boundingClientRect imgElement) event
      -> style_cursor hovered = chars "grab")
  /\ hovered = set_cursor imgElement (style_cursor hovered).
Proof.
  intros Hd. cbv zeta. unfold handleImageSpecificMouseMove, getIsDragging. rewrite Hd.
  cbn [style_cursor set_cursor]. split; [apply edgeCursor_resize|]. split; [|reflexivity].
  apply edgeCursor_grab.
Qed.

Lemma hover_shows_resize_cursor_near_edges_witness :
  (includes (style_cursor (handleImageSpecificMouseMove init (pointer_at 12 120) (an_image "" 0)))
            (chars "-resize") = true
   <-> near_an_edge (boundingClientRect (an_image "" 0)) (pointer_at 12 120))
  /\ style_cursor (handleImageSpecificMouseMove init (pointer_at 12 120) (an_image "" 0))
     = chars "ew-resize".
Proof.
  split; [|reflexivity].
  exact (proj1 (hover_shows_resize_cursor_near_edges init (pointer_at 12 120) (an_image "" 0)
                  eq_refl)).
Defined.

(** X14.  A press that follows a hover well inside the image is ignored:
    when the last pointer move over the image was at least eight pixels
    away from every edge, the press arms nothing and changes neither the
    controller nor the page. *)
Theorem press_inside_the_image_is_ignored
        (Math_sqrt : Q -> Q) (resizeController : t) (page : Page)
        (hover press : MouseEvent) (imgElement : HTMLImageElement) :
  isDragging resizeController = false ->
  ~ near_an_edge (boundingClientRect imgElement) hover ->
  handleImageSpecificMouseDown Math_sqrt resizeController page press
    (handleImageSpecificMouseMove resizeController hover imgElement)
  = Ok (resizeController, page).
Proof.
  intros Hd Hn.
  unfold handleImageSpecificMouseDown, handleImageSpecificMouseMove, getIsDragging.
  rewrite Hd. cbn [style_cursor set_cursor]. rewrite (edgeCursor_grab _ _ Hn). reflexivity.
Qed.

Lemma press_inside_the_image_is_ignored_witness :
  handleImageSpecificMouseDown integer_sqrt init (idle_page markdown_line) (pointer_at 100 100)
    (handleImageSpecificMouseMove init (pointer_at 100 100) (an_image "" 0))
  = Ok (init, idle_page markdown_line).
Proof.
  apply press_inside_the_image_is_ignored; [reflexivity|].
  unfold near_an_edge. cbn. unfold Qlt. cbn. lia.
Defined.

(** ** Text in front of a reference *)

Lemma star_greedy_shift q d k k' :
  shifted d k k' -> shifted d (star_greedy q k) (star_greedy q k').
Proof.
  intros Hk j s. revert j. induction s as [|a s IH]; intros j c; simpl.
  - apply Hk.
  - destruct (q a); [|apply Hk].
    change (S (j + d)) with (S j + d). rewrite IH.
    destruct (star_greedy q k (S j) s c) as [[e c']|]; [reflexivity|]. apply Hk.
Qed.

Lemma star_lazy_shift q d k k' :
  shifted d k k' -> shifted d (star_lazy q k) (star_lazy q k').
Proof.
  intros Hk j s. revert j. induction s as [|a s IH]; intros j c; simpl; rewrite Hk.
  - destruct (k j [] c) as [[e c']|]; reflexivity.
  - destruct (k j (a :: s) c) as [[e c']|]; [reflexivity|]. simpl.
    destruct (q a); [|reflexivity].
    change (S (j + d)) with (S j + d). apply IH.
Qed.

Lemma one_shift q d k k' : shifted d k k' -> shifted d (one q k) (one q k').
Proof.
  intros Hk j s c. destruct s as [|a s]; [reflexivity|]. rewrite !one_cons.
  destruct (q a); [|reflexivity]. change (S (j + d)) with (S j + d). apply Hk.
Qed.

(** A pattern without [^] matches the same way wherever the text is said
    to start. *)
Lemma m_shift (r : regex) :
  unanchored r = true -> forall d k k', shifted d k k' -> shifted d (m r k) (m r k').
Proof.
  induction r as [|q|r1 IH1 r2 IH2|r1 IH1 r2 IH2|g q|g q|r IH|n r IH| |];
    cbn [unanchored]; intros Hu d k k' Hk j s c.
  - rewrite !m_Empty. apply Hk.
  - rewrite !m_Class. now apply one_shift.
  - apply andb_true_iff in Hu. destruct Hu as [H1 H2].
    rewrite !m_Seq. apply IH1; [assumption|]. apply IH2; assumption.
  - apply andb_true_iff in Hu. destruct Hu as [H1 H2].
    rewrite !m_Alt, (IH1 H1 d k k' Hk).
    destruct (m r1 k j s c) as [[e c']|]; [reflexivity|]. simpl. now apply IH2.
  - rewrite !m_Star. destruct g; [now apply star_greedy_shift | now apply star_lazy_shift].
  - rewrite !m_Plus. apply one_shift.
    destruct g; [now apply star_greedy_shift | now apply star_lazy_shift].
  - rewrite !m_Opt.
    assert (Hn : shifted d (nonempty_since j k) (nonempty_since (j + d) k')).
    { intros j' s' c'. unfold nonempty_since.
      destruct (Nat.eqb_spec j' j) as [->|Hne].
      - now rewrite Nat.eqb_refl.
      - destruct (Nat.eqb_spec (j' + d) (j + d)) as [E|_]; [lia|]. apply Hk. }
    rewrite (IH Hu d _ _ Hn).
    destruct (m r (nonempty_since j k) j s c) as [[e c']|]; [reflexivity|]. apply Hk.
  - rewrite !m_Group. apply IH; [assumption|].
    intros j' s' c'. unfold close_group.
    replace (j' + d - (j + d)) with (j' - j) by lia. apply Hk.
  - discriminate.
  - rewrite !m_Eol. destruct s; [apply Hk | reflexivity].
Qed.

Lemma search_shift (r : regex) (d : nat) (s : jsstring) :
  unanchored r = true ->
  forall i, search r (i + d) s = option_map (moved d) (search r i s).
Proof.
  intros Hu.
  assert (Ha : shifted d accept accept) by (intros j s' c; reflexivity).
  induction s as [|a s IH]; intros i.
  - cbn [search]. rewrite (m_shift r Hu d accept accept Ha).
    destruct (m r accept i [] []) as [[e c]|]; [|reflexivity].
    simpl. unfold moved. simpl. now rewrite !firstn_nil.
  - rewrite !search_cons, (m_shift r Hu d accept accept Ha).
    destruct (m r accept i (a :: s) []) as [[e c]|].
    + simpl. unfold moved. simpl. do 2 f_equal.
      now replace (e + d - (i + d)) with (e - i) by lia.
    + simpl. change (S (i + d)) with (S i + d). apply IH.
Qed.

Lemma search_skips (r : regex) (pre rest : jsstring) :
  forall i,
    (forall j, j < List.length pre -> m r accept (i + j) (skipn j (pre ++ rest)) [] = None) ->
    search r i (pre ++ rest) = search r (i + List.length pre) rest.
Proof.
  induction pre as [|a pre IH]; intros i H.
  - simpl. now rewrite Nat.add_0_r.
  - change ((a :: pre) ++ rest) with (a :: pre ++ rest). rewrite search_cons.
    pose proof (H 0 (Nat.lt_0_succ _)) as H0. rewrite Nat.add_0_r in H0. simpl in H0.
    rewrite H0. rewrite IH.
    + simpl. now rewrite Nat.add_succ_r.
    + intros j Hj. specialize (H (S j)). rewrite Nat.add_succ_r in H. apply H. simpl. lia.
Qed.

(** An occurrence that starts inside [u] and would run into [v] needs the
    first character of [v] to fit a later class of the pattern. *)
Lemma occurs_at_straddle (pat : pattern) (u v : jsstring) :
  u <> [] -> foreign_head (tl pat) v ->
  occurs_at pat (u ++ v) = true -> occurs_at pat u = true.
Proof.
  intros Hu Hv H. destruct pat as [|q pat]; [reflexivity|].
  destruct u as [|x u]; [contradiction|]. simpl in *.
  apply andb_true_iff in H. destruct H as [-> H]. simpl.
  now apply (occurs_at_app_foreign pat u v).
Qed.

Lemma no_start_in_prefix (pat : pattern) (pre rest : jsstring) (j : nat) :
  occurs pat pre = false -> foreign_head (tl pat) rest -> j < List.length pre ->
  occurs_at pat (skipn j (pre ++ rest)) = false.
Proof.
  intros Hp Hr Hj. rewrite skipn_app.
  replace (j - List.length pre) with 0 by lia. simpl skipn.
  apply (occurs_skipn _ _ j) in Hp.
  assert (Hne : skipn j pre <> []).
  { intros E. apply (f_equal (@List.length ascii)) in E. rewrite length_skipn in E.
    simpl in E. lia. }
  destruct (occurs_at pat (skipn j pre ++ rest)) eqn:E; [|reflexivity].
  apply occurs_at_straddle in E; [|assumption|assumption].
  destruct (skipn j pre) as [|x u]; [contradiction|].
  apply occurs_cons in Hp. destruct Hp as [Hp _]. congruence.
Qed.

(** A pattern that opens with a literal, searched in text that follows a
    prefix in which the literal does not start. *)
Lemma exec_after_prefix (w : string) (r : regex) (pre rest : jsstring) :
  unanchored r = true ->
  occurs (exactly w) pre = false -> foreign_head (tl (exactly w)) rest ->
  exec (Seq (lit w) r) (pre ++ rest)
  = option_map (moved (List.length pre)) (exec (Seq (lit w) r) rest).
Proof.
  intros Hu Hp Hr. unfold exec. rewrite search_skips.
  - apply (search_shift _ (List.length pre) rest).
    cbn [unanchored]. rewrite Hu, andb_true_r. unfold lit.
    induction (chars w) as [|a [|b l] IH]; [reflexivity | reflexivity |].
    change (unanchored (Seq (Class (is_char a)) (seq (map (fun c => Class (is_char c)) (b :: l)))) = true).
    cbn [unanchored]. exact IH.
  - intros j Hj. rewrite m_Seq, m_lit. simpl Nat.add.
    now rewrite (no_start_in_prefix _ _ _ _ Hp Hr Hj).
Qed.

Lemma lit_i_unanchored (w : jsstring) : unanchored (lit_i w) = true.
Proof.
  unfold lit_i. induction w as [|a [|b l] IH]; [reflexivity | reflexivity |].
  change (unanchored (Seq (Class (is_char_i a)) (seq (map (fun c => Class (is_char_i c)) (b :: l)))) = true).
  cbn [unanchored]. exact IH.
Qed.

Lemma exec_after_prefix_i (n : nat) (w : jsstring) (r : regex) (pre rest : jsstring) :
  unanchored r = true ->
  occurs (exactly_i w) pre = false -> foreign_head (tl (exactly_i w)) rest ->
  exec (Group n (Seq (lit_i w) r)) (pre ++ rest)
  = option_map (moved (List.length pre)) (exec (Group n (Seq (lit_i w) r)) rest).
Proof.
  intros Hu Hp Hr. unfold exec. rewrite search_skips.
  - apply (search_shift _ (List.length pre) rest).
    cbn [unanchored]. now rewrite Hu, andb_true_r, lit_i_unanchored.
  - intros j Hj. rewrite m_Group, m_Seq, m_lit_i. simpl Nat.add.
    now rewrite (no_start_in_prefix _ _ _ _ Hp Hr Hj).
Qed.

Lemma opens_reference_foreign (pat : pattern) (rest : jsstring) :
  opens_reference rest ->
  foreign pat "!" = true -> foreign pat "<" = true -> foreign_head pat rest.
Proof.
  destruct rest as [|a t]; [contradiction|]. simpl. now intros [->| ->].
Qed.

Lemma parseMarkdown_after_prefix (pre rest : jsstring) :
  occurs bang_bracket pre = false -> opens_reference rest ->
  parseMarkdown (pre ++ rest) = option_map (at_offset (List.length pre)) (parseMarkdown rest).
Proof.
  intros Hp Hr. unfold parseMarkdown, markdownRegex. cbn [seq].
  rewrite (exec_after_prefix "![" _ pre rest); [|reflexivity|exact Hp|].
  - destruct (exec _ rest) as [mt|]; reflexivity.
  - apply opens_reference_foreign; [assumption|reflexivity|reflexivity].
Qed.

Lemma parseWikilink_after_prefix (pre rest : jsstring) :
  occurs bang_bracket pre = false -> opens_reference rest ->
  parseWikilink (pre ++ rest) = option_map (at_offset (List.length pre)) (parseWikilink rest).
Proof.
  intros Hp Hr. unfold parseWikilink, wikilinkRegex. cbn [seq].
  rewrite (exec_after_prefix "![[" _ pre rest); [|reflexivity| |].
  - destruct (exec _ rest) as [mt|]; reflexivity.
  - apply (occurs_longer bang_bracket [is_char "["] pre Hp).
  - apply opens_reference_foreign; [assumption|reflexivity|reflexivity].
Qed.

Lemma parseHtml_after_prefix (pre rest : jsstring) :
  occurs img_open pre = false -> opens_reference rest ->
  parseHtml (pre ++ rest) = option_map (at_offset (List.length pre)) (parseHtml rest).
Proof.
  intros Hp Hr. unfold parseHtml, htmlImgRegex. cbn [seq].
  rewrite (exec_after_prefix_i 1 (chars "<img") _ pre rest); [|reflexivity|exact Hp|].
  - destruct (exec _ rest) as [mt|]; [|reflexivity].
    cbn [option_map]. cbv zeta.
    change (group 2 (moved (List.length pre) mt)) with (group 2 mt).
    change (group 3 (moved (List.length pre) mt)) with (group 3 mt).
    destruct (or_else (group 2 mt) (group 3 mt)) as [p|]; [|reflexivity].
    destruct (truthy p); reflexivity.
  - apply opens_reference_foreign; [assumption|reflexivity|reflexivity].
Qed.

(** X3.  Text in front of a reference only moves the reported index.
    When a line is made of a prefix in which neither [![] nor, in any letter
    case, [<img] occurs, followed by text that starts with [!] or [<], the
    line parses as that text does -- same notation, same path, same
    alternative text, dimensions, zoom and matched text -- and the index is
    the length of the prefix further on. *)
Theorem prefix_only_moves_the_index (pre rest : jsstring) :
  occurs bang_bracket pre = false -> occurs img_open pre = false ->
  opens_reference rest ->
  parseImageSyntaxFromLine (pre ++ rest)
  = option_map (at_offset (List.length pre)) (parseImageSyntaxFromLine rest).
Proof.
  intros Hb Hi Hr. unfold parseImageSyntaxFromLine.
  rewrite (parseMarkdown_after_prefix _ _ Hb Hr), (parseWikilink_after_prefix _ _ Hb Hr),
    (parseHtml_after_prefix _ _ Hi Hr).
  destruct (parseMarkdown rest); [reflexivity|].
  destruct (parseWikilink rest); reflexivity.
Qed.

Lemma prefix_only_moves_the_index_witness :
  parseImageSyntaxFromLine (chars "see " ++ chars "![[a.png|30x40]] there")
  = Some {| path := chars "a.png"; altText := None; specifiedWidth := Some 30%N;
            specifiedHeight := Some 40%N; originalMatch := chars "![[a.png|30x40]]";
            startIndexInLine := 0 + 4; isHtml := false; Utils.currentZoomPercent := None |}.
Proof.
  rewrite (prefix_only_moves_the_index (chars "see ") (chars "![[a.png|30x40]] there")
             eq_refl eq_refl (or_introl eq_refl)).
  vm_compute. reflexivity.
Defined.

(** ** The Markdown pattern on [![alt|WxH](path)] *)

Lemma markdownRegex_unfold :
  markdownRegex = Seq (lit "![") (Seq (Opt (Group 1 (Star false is_dot))) markdown_tail).
Proof. reflexivity. Qed.

Lemma markdown_tail_rejects (b : ascii) (t : jsstring) (k : cont) j c :
  not_pipe_bracket b = true -> m markdown_tail k j (b :: t) c = None.
Proof.
  intros Hb. unfold markdown_tail.
  assert (H1 : Ascii.eqb b "|" = false /\ Ascii.eqb b "]" = false).
  { unfold not_pipe_bracket, none_of in Hb. simpl in Hb.
    destruct (Ascii.eqb b "|"), (Ascii.eqb b "]"); simpl in Hb; try discriminate. auto. }
  destruct H1 as [Hbar Hbr].
  rewrite m_Seq, m_Opt, m_Seq, m_lit. simpl occurs_at. unfold is_char at 1. rewrite Hbar.
  simpl. rewrite m_Seq, m_lit. simpl occurs_at. unfold is_char at 1. rewrite Hbr. reflexivity.
Qed.

Lemma digit_not_rbracket_bar a :
  is_digit a = true -> Ascii.eqb a "]" = false /\ Ascii.eqb a "|" = false /\ alt_char a = true.
Proof. intros H. case_char a; repeat split. Qed.

Lemma path_and_close (p0 : ascii) (p' : jsstring) j c :
  not_rparen p0 = true -> all not_rparen p' ->
  m (Seq (lit "](") (Seq (Group 3 (Plus true not_rparen)) (lit ")"))) accept j
    (chars "](" ++ (p0 :: p') ++ chars ")") c
  = Some (j + 2 + S (List.length p') + 1, (3, p0 :: p') :: c).
Proof.
  intros H0 Hp. apply take_seq. rewrite m_lit. cbn.
  apply take_seq, take_group.
  apply (plus_greedy_run not_rparen _ p0 p' (chars ")")); [assumption|assumption|reflexivity|].
  unfold close_group. rewrite m_lit. cbn. unfold accept.
  change (p0 :: p' ++ [")"%char]) with ((p0 :: p') ++ [")"%char]).
  rewrite firstn_span by (simpl; lia). reflexivity.
Qed.

Lemma firstn_prefix {A} (u x v : list A) (n : nat) :
  x = u ++ v -> n = List.length u -> firstn n x = u.
Proof. intros -> ->. apply firstn_exact. Qed.

Ltac take_prefix :=
  first [ eapply firstn_prefix;
          [ repeat (progress (simpl; rewrite <- ?app_assoc)); reflexivity
          | simpl; rewrite ?length_app; simpl; lia ]
        | f_equal; take_prefix ].

(** The tail of the pattern on the three texts a pair of dimensions has. *)
Lemma markdown_tail_exec (d : option (jsstring * option jsstring)) (p0 : ascii) (p' : jsstring) j c :
  dims_ok d -> not_rparen p0 = true -> all not_rparen p' ->
  m markdown_tail accept j (dims_text d ++ chars "](" ++ (p0 :: p') ++ chars ")") c
  = Some (j + List.length (dims_text d) + 2 + S (List.length p') + 1,
          (3, p0 :: p') :: dims_captures d ++ c).
Proof.
  intros Hd H0 Hp. unfold markdown_tail. rewrite m_Seq.
  destruct d as [[w [h|]]|]; cbn [dims_text dims_captures dims_ok List.tl] in *.
  - destruct Hd as [Hw Hh].
    destruct (digits_inv _ Hw) as (w0 & w' & -> & Hw0 & Hw').
    destruct (digits_inv _ Hh) as (h0 & h' & -> & Hh0 & Hh').
    apply take_opt, take_seq. rewrite m_lit. cbn.
    apply take_group, take_seq.
    rewrite <- app_assoc. cbn [app].
    apply (plus_greedy_run is_digit _ w0 w'); [assumption|assumption|reflexivity|].
    apply take_opt, take_seq. rewrite m_lit. cbn.
    apply (plus_greedy_run is_digit _ h0 h' (chars "](" ++ (p0 :: p') ++ chars ")"));
      [assumption|assumption|reflexivity|].
    apply take_nonempty; [lia|]. unfold close_group. apply take_nonempty; [lia|].
    rewrite path_and_close by assumption.
    f_equal. f_equal.
    + rewrite ?length_app. simpl. rewrite ?length_app. simpl. lia.
    + f_equal. f_equal. f_equal. take_prefix.
  - destruct (digits_inv _ Hd) as (w0 & w' & -> & Hw0 & Hw').
    apply take_opt, take_seq. rewrite m_lit. cbn.
    apply take_group, take_seq.
    apply (plus_greedy_run is_digit _ w0 w' (chars "](" ++ (p0 :: p') ++ chars ")"));
      [assumption|assumption|reflexivity|].
    apply skip_opt; [rewrite m_Seq, m_lit; reflexivity|].
    unfold close_group. apply take_nonempty; [lia|].
    rewrite path_and_close by assumption.
    f_equal. f_equal.
    + simpl. lia.
    + f_equal. f_equal. f_equal. take_prefix.
  - apply skip_opt; [rewrite m_Seq, m_lit; reflexivity|].
    etransitivity; [exact (path_and_close p0 p' j c H0 Hp)|]. f_equal. f_equal. simpl. lia.
Qed.

(** A lazy star stops at the first position where what follows matches. *)
Lemma star_lazy_run q (k : cont) (u rest : jsstring) : forall i c v,
  all q u ->
  (forall n, n < List.length u -> k (i + n) (skipn n (u ++ rest)) c = None) ->
  k (i + List.length u) rest c = Some v ->
  star_lazy q k i (u ++ rest) c = Some v.
Proof.
  induction u as [|a u IH]; intros i c v Hu Hn Hk.
  - simpl in *. rewrite Nat.add_0_r in Hk. now apply star_lazy_here.
  - inversion Hu as [|? ? Ha Hu']; subst.
    change ((a :: u) ++ rest) with (a :: u ++ rest). cbn [star_lazy].
    pose proof (Hn 0 (Nat.lt_0_succ _)) as H0. rewrite Nat.add_0_r in H0. simpl in H0.
    change ((a :: u) ++ rest) with (a :: u ++ rest) in H0.
    rewrite H0, Ha. apply IH; [assumption | |].
    + intros n Hlt. specialize (Hn (S n)). rewrite Nat.add_succ_r in Hn. apply Hn. simpl. lia.
    + simpl in Hk. now rewrite Nat.add_succ_r in Hk.
Qed.

(** The whole pattern on a line whose alternative text has at least one
    character and, after the first one, no bar and no closing bracket. *)
Lemma markdownRegex_exec (a0 : ascii) (a' : jsstring) (d : option (jsstring * option jsstring))
      (p0 : ascii) (p' : jsstring) :
  is_dot a0 = true -> all alt_char a' -> dims_ok d ->
  not_rparen p0 = true -> all not_rparen p' ->
  exec markdownRegex (markdown_ref (a0 :: a') (dims_text d) (p0 :: p'))
  = Some {| index := 0;
            matched := markdown_ref (a0 :: a') (dims_text d) (p0 :: p');
            groups := (3, p0 :: p') :: dims_captures d ++ [(1, a0 :: a')] |}.
Proof.
  intros Ha0 Ha' Hd Hp0 Hp'.
  set (tail := dims_text d ++ chars "](" ++ (p0 :: p') ++ chars ")").
  assert (Hm : m markdownRegex accept 0 (markdown_ref (a0 :: a') (dims_text d) (p0 :: p')) []
               = Some (List.length (markdown_ref (a0 :: a') (dims_text d) (p0 :: p')),
                       (3, p0 :: p') :: dims_captures d ++ [(1, a0 :: a')])).
  { rewrite markdownRegex_unfold. unfold markdown_ref.
    apply take_seq. rewrite m_lit. cbn [occurs_at exactly chars list_ascii_of_string map
      is_char Ascii.eqb Bool.eqb andb app List.length skipn Nat.add].
    cbn. apply take_seq, take_opt, take_group. rewrite m_Star. unfold star.
    change (a0 :: a' ++ dims_text d ++ "]"%char :: "("%char :: p0 :: p' ++ [")"%char])
      with ((a0 :: a') ++ tail).
    apply star_lazy_run.
    - constructor; [assumption|]. eapply Forall_impl; [|exact Ha'].
      intros x Hx. unfold alt_char in Hx. now apply andb_true_iff in Hx.
    - intros n Hn. unfold close_group, nonempty_since.
      destruct n as [|n]; [now rewrite Nat.add_0_r, Nat.eqb_refl|].
      destruct (Nat.eqb_spec (2 + S n) 2) as [E|_]; [lia|].
      simpl in Hn. apply Nat.succ_lt_mono in Hn.
      cbn [skipn app]. rewrite skipn_app.
      replace (n - List.length a') with 0 by lia. simpl (skipn 0 _).
      destruct (skipn n a') as [|b t] eqn:Es.
      { apply (f_equal (@List.length ascii)) in Es. rewrite length_skipn in Es. simpl in Es. lia. }
      assert (Hb : alt_char b = true).
      { pose proof Ha' as Hs. unfold all in Hs. rewrite <- (firstn_skipn n a') in Hs.
        apply Forall_app in Hs. destruct Hs as [_ Hs]. rewrite Es in Hs.
        now inversion Hs. }
      unfold alt_char in Hb. apply andb_true_iff in Hb. destruct Hb as [_ Hb].
      cbn [app]. now apply markdown_tail_rejects.
    - unfold close_group. apply take_nonempty; [simpl; lia|].
      unfold tail. rewrite (markdown_tail_exec d p0 p' _ _ Hd Hp0 Hp').
      f_equal. f_equal.
      + simpl. rewrite !length_app. simpl. rewrite !length_app. simpl. lia.
      + f_equal. f_equal. f_equal. f_equal. take_prefix. }
  rewrite (exec_at_start _ _ _ _ Hm), Nat.sub_0_r, firstn_all. reflexivity.
Qed.

Lemma split_acc_run (sep : ascii) (u rest acc : jsstring) :
  all (fun ch => negb (Ascii.eqb ch sep)) u ->
  split_acc sep acc (u ++ rest) = split_acc sep (rev u ++ acc) rest.
Proof.
  intros Hu. revert acc. induction Hu as [|a u Ha _ IH]; intros acc; [reflexivity|].
  simpl. apply negb_true_iff in Ha. rewrite Ha, IH. now rewrite <- app_assoc.
Qed.

Lemma digits_no_x (w : jsstring) : all is_digit w -> all (fun ch => negb (Ascii.eqb ch "x")) w.
Proof.
  intros H. eapply Forall_impl; [|exact H]. intros a Ha.
  now rewrite (digit_is_not_x a Ha).
Qed.

Lemma split_width (w : jsstring) : all is_digit w -> split "x" w = [w].
Proof.
  intros Hw. unfold split. rewrite <- (List.app_nil_r w) at 1.
  rewrite (split_acc_run _ _ _ _ (digits_no_x _ Hw)). simpl.
  now rewrite List.app_nil_r, rev_involutive.
Qed.

Lemma split_width_height (w h : jsstring) :
  all is_digit w -> all is_digit h -> split "x" (w ++ "x"%char :: h) = [w; h].
Proof.
  intros Hw Hh. unfold split.
  rewrite (split_acc_run _ _ _ _ (digits_no_x _ Hw)). simpl.
  rewrite List.app_nil_r, rev_involutive. f_equal.
  rewrite <- (List.app_nil_r h) at 1.
  rewrite (split_acc_run _ _ _ _ (digits_no_x _ Hh)). simpl.
  now rewrite List.app_nil_r, rev_involutive.
Qed.

Lemma parseMarkdown_ref (a0 : ascii) (a' : jsstring) (d : option (jsstring * option jsstring))
      (p0 : ascii) (p' : jsstring) :
  is_dot a0 = true -> all alt_char a' -> dims_ok d ->
  not_rparen p0 = true -> all not_rparen p' ->
  parseMarkdown (markdown_ref (a0 :: a') (dims_text d) (p0 :: p'))
  = Some (markdown_parse (a0 :: a') d (p0 :: p')).
Proof.
  intros Ha0 Ha' Hd Hp0 Hp'. unfold parseMarkdown.
  rewrite markdownRegex_exec by assumption. unfold markdown_parse, group_of, group.
  cbn [groups index matched]. f_equal.
  destruct d as [[w [h|]]|]; cbn [dims_captures dims_text dims_ok List.tl capture Nat.eqb app] in *.
  - destruct Hd as [Hw Hh].
    rewrite split_width_height by (apply Hw || apply Hh).
    destruct (digits_inv _ Hw) as (w0 & w' & -> & _ & _).
    destruct (digits_inv _ Hh) as (h0 & h' & -> & _ & _). reflexivity.
  - rewrite split_width by apply Hd.
    destruct (digits_inv _ Hd) as (w0 & w' & -> & _ & _). reflexivity.
  - reflexivity.
Qed.

(** X5.  A Markdown reference [![alt](path)], [![alt|W](path)] or
    [![alt|WxH](path)] that makes up a line -- the alternative text not
    empty and, after its first character, free of bars and closing
    brackets; W and H decimal digits; the path not empty and free of closing
    parentheses -- parses as Markdown: the alternative text as written, the
    path trimmed, the dimensions as numbers, the whole line as matched text
    at index 0, no zoom. *)
Theorem markdown_reference_parses
        (a p : jsstring) (d : option (jsstring * option jsstring)) :
  a <> [] -> all is_dot (firstn 1 a) -> all alt_char (List.tl a) -> dims_ok d ->
  p <> [] -> all not_rparen p ->
  parseImageSyntaxFromLine (markdown_ref a (dims_text d) p) = Some (markdown_parse a d p).
Proof.
  intros Ha H0 Ha' Hd Hp Hp'.
  destruct a as [|a0 a']; [contradiction|]. destruct p as [|p0 p']; [contradiction|].
  inversion H0; subst. inversion Hp'; subst. simpl in Ha'.
  unfold parseImageSyntaxFromLine. now rewrite parseMarkdown_ref.
Qed.

Lemma markdown_reference_parses_witness :
  parseImageSyntaxFromLine (chars "![a cat|30x40]( cat.png )")
  = Some {| path := chars "cat.png"; altText := Some (chars "a cat");
            specifiedWidth := Some 30%N; specifiedHeight := Some 40%N;
            originalMatch := chars "![a cat|30x40]( cat.png )"; startIndexInLine := 0;
            isHtml := false; Utils.currentZoomPercent := None |}.
Proof.
  apply (markdown_reference_parses (chars "a cat") (chars " cat.png ")
           (Some (chars "30", Some (chars "40")))).
  - discriminate.
  - repeat constructor.
  - repeat constructor.
  - split; split; try discriminate; repeat constructor.
  - discriminate.
  - repeat constructor.
Defined.

(** X6.  Dimensions with no alternative text in front of the bar are not
    read as dimensions: on the line [![|W](path)] or [![|WxH](path)] the
    parser reports the bar and the numbers as the alternative text and no
    width and no height.  The optional group for the alternative text may
    not match the empty string, so it grows until the closing bracket. *)
Theorem bar_without_alt_is_alt_text (w p : jsstring) (h : option jsstring) :
  digits w -> match h with Some h' => digits h' | None => True end ->
  p <> [] -> all not_rparen p ->
  let suffix := "|"%char :: w ++ match h with Some h' => "x"%char :: h' | None => [] end in
  parseImageSyntaxFromLine (chars "![" ++ suffix ++ chars "](" ++ p ++ chars ")")
  = Some {| path := trim p; altText := Some suffix;
            specifiedWidth := None; specifiedHeight := None;
            originalMatch := chars "![" ++ suffix ++ chars "](" ++ p ++ chars ")";
            startIndexInLine := 0; isHtml := false; Utils.currentZoomPercent := None |}.
Proof.
  intros Hw Hh Hp Hp'. cbv zeta.
  destruct p as [|p0 p']; [contradiction|]. inversion Hp'; subst.
  assert (Ha : all alt_char (w ++ match h with Some h' => "x"%char :: h' | None => [] end)).
  { apply Forall_app. split.
    - eapply Forall_impl; [|apply Hw]. intros x Hx. now apply digit_not_rbracket_bar.
    - destruct h as [h'|]; [|constructor]. constructor; [reflexivity|].
      eapply Forall_impl; [|apply Hh]. intros x Hx. now apply digit_not_rbracket_bar. }
  pose proof (parseMarkdown_ref "|" _ None p0 p' eq_refl Ha I H1 H2) as E.
  unfold parseImageSyntaxFromLine.
  match goal with
  | |- context [parseMarkdown ?line] =>
      assert (E' : parseMarkdown line
                   = Some (markdown_parse ("|"%char :: w ++ match h with
                                                            | Some h' => "x"%char :: h'
                                                            | None => []
                                                            end) None (p0 :: p')))
        by exact E;
      rewrite E'
  end.
  reflexivity.
Qed.

Lemma bar_without_alt_is_alt_text_witness :
  parseImageSyntaxFromLine (chars "![|100x200](a.png)")
  = Some {| path := chars "a.png"; altText := Some (chars "|100x200");
            specifiedWidth := None; specifiedHeight := None;
            originalMatch := chars "![|100x200](a.png)";
            startIndexInLine := 0; isHtml := false; Utils.currentZoomPercent := None |}.
Proof.
  apply (bar_without_alt_is_alt_text (chars "100") (chars "a.png") (Some (chars "200"))).
  - split; [discriminate | repeat constructor].
  - split; [discriminate | repeat constructor].
  - discriminate.
  - repeat constructor.
Defined.

(** ** References without alternative text or suffix *)

Lemma markdown_tail_dead (s : jsstring) :
  occurs bracket_paren s = false -> dead (m markdown_tail accept) s.
Proof.
  intros H n j c. unfold markdown_tail. rewrite m_Seq. apply m_dead. apply dead_skipn.
  now apply dead_lit.
Qed.

(** X7.  With nothing between the brackets, [![](path)] parses as Markdown
    with no alternative text and no dimension, provided the path is not
    empty, has no closing parenthesis and nowhere holds a closing bracket
    followed by an opening parenthesis. *)
Theorem markdown_without_alt_parses (p : jsstring) :
  p <> [] -> all not_rparen p -> occurs bracket_paren p = false ->
  parseImageSyntaxFromLine (chars "![](" ++ p ++ chars ")")
  = Some {| path := trim p; altText := None;
            specifiedWidth := None; specifiedHeight := None;
            originalMatch := chars "![](" ++ p ++ chars ")";
            startIndexInLine := 0; isHtml := false; Utils.currentZoomPercent := None |}.
Proof.
  intros Hne Hp Ho. destruct p as [|p0 p']; [contradiction|]. inversion Hp; subst.
  assert (Hdead : dead (m markdown_tail accept) ("("%char :: (p0 :: p') ++ chars ")")).
  { apply markdown_tail_dead. apply occurs_cons. split; [reflexivity|].
    apply occurs_app; [reflexivity | assumption | reflexivity]. }
  assert (Hm : m markdownRegex accept 0 (chars "![](" ++ (p0 :: p') ++ chars ")") []
               = Some (List.length (chars "![](" ++ (p0 :: p') ++ chars ")"), [(3, p0 :: p')])).
  { rewrite markdownRegex_unfold. apply take_seq. rewrite m_lit. cbn.
    apply take_seq, skip_opt.
    - rewrite m_Group, m_Star. apply star_fails. intros n Hn.
      unfold close_group, nonempty_since.
      destruct n as [|n]; [now rewrite Nat.add_0_r, Nat.eqb_refl|].
      destruct (Nat.eqb_spec (2 + S n) 2) as [E|_]; [lia|].
      cbn [skipn]. apply (Hdead n).
    - etransitivity; [exact (markdown_tail_exec None p0 p' 2 [] I H1 H2)|].
      f_equal. f_equal. simpl. rewrite !length_app. simpl. lia. }
  unfold parseImageSyntaxFromLine, parseMarkdown.
  rewrite (exec_at_start _ _ _ _ Hm), Nat.sub_0_r, firstn_all. reflexivity.
Qed.

Lemma markdown_without_alt_parses_witness :
  parseImageSyntaxFromLine (chars "![](a b.png)")
  = Some {| path := chars "a b.png"; altText := None;
            specifiedWidth := None; specifiedHeight := None;
            originalMatch := chars "![](a b.png)";
            startIndexInLine := 0; isHtml := false; Utils.currentZoomPercent := None |}.
Proof.
  apply (markdown_without_alt_parses (chars "a b.png")).
  - discriminate.
  - repeat constructor.
  - reflexivity.
Defined.

Lemma no_bracket_paren_in_run (u v : jsstring) :
  all not_pipe_bracket u -> occurs bracket_paren v = false ->
  occurs bracket_paren (u ++ v) = false.
Proof.
  intros Hu Hv. apply occurs_rejected_run; [|exact Hv].
  eapply Forall_impl; [|exact Hu]. apply not_pipe_bracket_rejects.
Qed.

(** X8.  A Wikilink without a suffix, [![[path]]], the path not empty and
    free of bars and closing brackets, parses as a Wikilink with the path
    trimmed and neither alternative text nor dimensions. *)
Theorem wikilink_without_suffix_parses (p : jsstring) :
  p <> [] -> all not_pipe_bracket p ->
  parseImageSyntaxFromLine (bare_wikilink p)
  = Some {| path := trim p; altText := None;
            specifiedWidth := None; specifiedHeight := None;
            originalMatch := bare_wikilink p;
            startIndexInLine := 0; isHtml := false; Utils.currentZoomPercent := None |}.
Proof.
  intros Hne Hp. destruct p as [|a p]; [contradiction|].
  inversion Hp as [|? ? Ha Hp']; subst.
  assert (Hmd : parseMarkdown (bare_wikilink (a :: p)) = None).
  { apply parseMarkdown_needs_bracket_paren. unfold bare_wikilink.
    apply (occurs_rejected_run (is_char "]") _ (chars "![[")); [repeat constructor|].
    apply no_bracket_paren_in_run; [assumption | reflexivity]. }
  assert (Hm : m wikilinkRegex accept 0 (bare_wikilink (a :: p)) []
               = Some (List.length (bare_wikilink (a :: p)), [(1, a :: p)])).
  { unfold wikilinkRegex, bare_wikilink. cbn [seq].
    apply take_seq. rewrite m_lit. cbn.
    apply take_seq, take_group.
    apply (plus_greedy_run not_pipe_bracket _ a p (chars "]]"));
      [assumption | assumption | reflexivity |].
    unfold close_group. apply take_seq, skip_opt; [rewrite m_Seq, m_lit; reflexivity|].
    rewrite m_lit. cbn. unfold accept. f_equal. f_equal.
    - rewrite !length_app. simpl. lia.
    - f_equal. f_equal. take_prefix. }
  unfold parseImageSyntaxFromLine. rewrite Hmd. unfold parseWikilink.
  rewrite (exec_at_start _ _ _ _ Hm), Nat.sub_0_r, firstn_all. reflexivity.
Qed.

Lemma wikilink_without_suffix_parses_witness :
  parseImageSyntaxFromLine (chars "![[ a.png ]]")
  = Some {| path := chars "a.png"; altText := None;
            specifiedWidth := None; specifiedHeight := None;
            originalMatch := chars "![[ a.png ]]";
            startIndexInLine := 0; isHtml := false; Utils.currentZoomPercent := None |}.
Proof.
  apply (wikilink_without_suffix_parses (chars " a.png ")).
  - discriminate.
  - repeat constructor.
Defined.

(** ** The deprecated path extractor *)

Lemma not_pipe_bracket_not_rbracket (s : jsstring) :
  all not_pipe_bracket s -> all not_rbracket s.
Proof.
  intros H. eapply Forall_impl; [|exact H]. intros a Ha.
  apply not_pipe_bracket_rejects in Ha. unfold is_char in Ha.
  unfold not_rbracket, none_of. simpl. now rewrite orb_false_r.
Qed.

Lemma extract_wikilinkRegex_exec (p s : jsstring) :
  p <> [] -> all not_pipe_bracket p -> all not_pipe_bracket s ->
  exec extract_wikilinkRegex (wikilink p s) =
    Some {| index := 0; matched := wikilink p s; groups := [(1, p)] |}.
Proof.
  intros Hne Hp Hs.
  destruct p as [|a p]; [contradiction|]. inversion Hp as [|? ? Ha Hp']; subst.
  assert (Hm : m extract_wikilinkRegex accept 0 (wikilink (a :: p) s) [] =
               Some (List.length (wikilink (a :: p) s), [(1, a :: p)])).
  { unfold extract_wikilinkRegex, wikilink. cbn [seq].
    apply take_seq. rewrite m_lit. cbn.
    apply take_seq, take_group.
    apply (plus_greedy_run not_pipe_bracket _ a p ("|"%char :: s ++ chars "]]"));
      [assumption | assumption | reflexivity |].
    unfold close_group at 1.
    apply take_seq, take_opt, take_seq. rewrite m_lit. cbn.
    apply (take_star_greedy not_rbracket _ s (chars "]]"));
      [now apply not_pipe_bracket_not_rbracket | reflexivity |].
    apply take_nonempty; [lia|].
    rewrite m_lit. cbn. unfold accept.
    f_equal. f_equal.
    - rewrite !length_app. simpl. rewrite !length_app. simpl. lia.
    - f_equal. f_equal. take_prefix. }
  rewrite (exec_at_start _ _ _ _ Hm), Nat.sub_0_r, firstn_all. reflexivity.
Qed.

(** X9.  On a Wikilink line [![[path|suffix]]] in which [<img] does not
    occur, the deprecated [extractFirstImagePath] returns the path the
    parser reports: the text before the bar, trimmed. *)
Theorem extractFirstImagePath_on_wikilink (p s : jsstring) :
  p <> [] -> all not_pipe_bracket p -> all not_pipe_bracket s ->
  occurs img_open (wikilink p s) = false ->
  extractFirstImagePath (wikilink p s) = Some (trim p)
  /\ option_map path (parseImageSyntaxFromLine (wikilink p s)) = Some (trim p).
Proof.
  intros Hne Hp Hs Hi. split.
  - unfold extractFirstImagePath. change (truthy (wikilink p s)) with true. cbv iota.
    assert (Hh : exec extract_htmlRegex (wikilink p s) = None).
    { unfold exec, extract_htmlRegex. cbn [seq]. apply search_dead. now apply dead_lit_i. }
    assert (Hmd : exec extract_markdownRegex (wikilink p s) = None).
    { unfold exec, extract_markdownRegex. cbn [seq]. apply search_dead.
      intros n j c. rewrite m_Seq. apply m_dead. apply dead_skipn.
      intros n1 j1 c1. rewrite m_Seq. apply m_dead. apply dead_skipn.
      apply dead_lit. unfold wikilink.
      apply (occurs_rejected_run (is_char "]") _ (chars "![[")); [repeat constructor|].
      apply no_bracket_paren_in_run; [assumption|].
      apply (occurs_rejected_run (is_char "]") _ (chars "|")); [repeat constructor|].
      apply no_bracket_paren_in_run; [assumption | reflexivity]. }
    rewrite Hh, Hmd, extract_wikilinkRegex_exec by assumption. cbv zeta.
    unfold group. cbn [groups capture Nat.eqb truthy_opt].
    destruct p as [|a p]; [contradiction|]. reflexivity.
  - unfold parseImageSyntaxFromLine.
    rewrite parseMarkdown_wikilink, parseWikilink_suffix by assumption. reflexivity.
Qed.

Lemma extractFirstImagePath_on_wikilink_witness :
  extractFirstImagePath (chars "![[ a.png |150x80]]") = Some (chars "a.png")
  /\ option_map path (parseImageSyntaxFromLine (chars "![[ a.png |150x80]]"))
     = Some (chars "a.png").
Proof.
  apply (extractFirstImagePath_on_wikilink (chars " a.png ") (chars "150x80")).
  - discriminate.
  - repeat constructor.
  - repeat constructor.
  - reflexivity.
Defined.

(** ** Escaping *)

Lemma replaceAll_app c w u v : replaceAll c w (u ++ v) = replaceAll c w u ++ replaceAll c w v.
Proof. unfold replaceAll. apply flat_map_app. Qed.

Lemma escapeHtml_app (u v : jsstring) : escapeHtml (u ++ v) = escapeHtml u ++ escapeHtml v.
Proof. unfold escapeHtml. now rewrite !replaceAll_app. Qed.

Lemma escapeHtml_one (ch : ascii) : escapeHtml [ch] = entity ch.
Proof. case_char ch. Qed.

Lemma unescapeHtml_entity (ch : ascii) (t : jsstring) :
  unescapeHtml 0 (entity ch ++ t) = ch :: unescapeHtml 0 t.
Proof. case_char ch. Qed.

(** X11.  [escapeHtml] rewrites each character on its own: the result is
    the concatenation of one entity per special character and of the other
    characters as they are, so that the ampersand of an entity is never
    escaped a second time, escaping distributes over concatenation, and the
    text can be read back: different texts have different escapings. *)
Theorem escapeHtml_is_characterwise :
  (forall s, escapeHtml s = flat_map entity s)
  /\ (forall u v, escapeHtml (u ++ v) = escapeHtml u ++ escapeHtml v)
  /\ (forall s, unescapeHtml 0 (escapeHtml s) = s)
  /\ (forall u v, escapeHtml u = escapeHtml v -> u = v).
Proof.
  assert (H1 : forall s, escapeHtml s = flat_map entity s).
  { induction s as [|ch s IH]; [reflexivity|].
    change (ch :: s) with ([ch] ++ s). rewrite escapeHtml_app, escapeHtml_one, IH. reflexivity. }
  assert (H3 : forall s, unescapeHtml 0 (escapeHtml s) = s).
  { intros s. rewrite H1. induction s as [|ch s IH]; [reflexivity|].
    cbn [flat_map]. now rewrite unescapeHtml_entity, IH. }
  split; [exact H1|]. split; [exact escapeHtml_app|]. split; [exact H3|].
  intros u v E. rewrite <- (H3 u), <- (H3 v). now rewrite E.
Qed.

Lemma escapeHtml_is_characterwise_witness :
  escapeHtml (chars "a<b") = chars "a&lt;b"
  /\ unescapeHtml 0 (escapeHtml (chars "a<b")) = chars "a<b".
Proof.
  split; [reflexivity|].
  exact (proj1 (proj2 (proj2 escapeHtml_is_characterwise)) (chars "a<b")).
Defined.

Lemma escapeRegExp_app (u v : jsstring) :
  escapeRegExp (u ++ v) = escapeRegExp u ++ escapeRegExp v.
Proof. unfold escapeRegExp. apply flat_map_app. Qed.

(** X12.  [escapeRegExp] acts on each character on its own: it writes a
    backslash and the character for each of the fourteen metacharacters and
    any other character as it is.  So every occurrence of a metacharacter
    gets its backslash, and nothing else is added; a string without
    metacharacters is left as it is; read as a pattern text, where a
    backslash makes the next character literal, the result spells the
    original string, so different strings give different patterns. *)
Theorem escapeRegExp_spells_the_string :
  (forall ch, In ch metacharacters -> escapeRegExp [ch] = ["\"%char; ch])
  /\ (forall ch, ~ In ch metacharacters -> escapeRegExp [ch] = [ch])
  /\ (forall u v, escapeRegExp (u ++ v) = escapeRegExp u ++ escapeRegExp v)
  /\ (forall u ch v, In ch metacharacters ->
                     escapeRegExp (u ++ ch :: v)
                     = escapeRegExp u ++ "\"%char :: ch :: escapeRegExp v)
  /\ (forall u ch v, ~ In ch metacharacters ->
                     escapeRegExp (u ++ ch :: v) = escapeRegExp u ++ ch :: escapeRegExp v)
  /\ (forall s, (forall ch, In ch s -> ~ In ch metacharacters) -> escapeRegExp s = s)
  /\ (forall s, unescapeRegExp (escapeRegExp s) = s)
  /\ (forall u v, escapeRegExp u = escapeRegExp v -> u = v).
Proof.
  assert (Hyes : forall ch, In ch metacharacters -> escapeRegExp [ch] = ["\"%char; ch]).
  { intros ch Hin. unfold escapeRegExp. cbn [flat_map]. rewrite List.app_nil_r.
    replace (existsb (Ascii.eqb ch) regexp_special) with true; [reflexivity|].
    symmetry. apply existsb_exists. exists ch. split; [exact Hin | apply Ascii.eqb_refl]. }
  assert (Hno : forall ch, ~ In ch metacharacters -> escapeRegExp [ch] = [ch]).
  { intros ch Hin. unfold escapeRegExp. cbn [flat_map]. rewrite List.app_nil_r.
    destruct (existsb (Ascii.eqb ch) regexp_special) eqn:E; [|reflexivity].
    exfalso. apply existsb_exists in E. destruct E as (x & Hx & Hc).
    apply Ascii.eqb_eq in Hc. subst x. exact (Hin Hx). }
  assert (H1 : forall s, unescapeRegExp (escapeRegExp s) = s).
  { induction s as [|ch s IH]; [reflexivity|].
    unfold escapeRegExp in *. cbn [flat_map].
    destruct (existsb (Ascii.eqb ch) regexp_special) eqn:E.
    - cbn [app unescapeRegExp]. change (Ascii.eqb "\" "\") with true. cbv iota.
      now rewrite IH.
    - cbn [app unescapeRegExp].
      destruct (Ascii.eqb_spec ch "\") as [->|_]; [discriminate E|]. now rewrite IH. }
  split; [exact Hyes|]. split; [exact Hno|]. split; [exact escapeRegExp_app|].
  split; [|split; [|split; [|split]]].
  - intros u ch v Hin. change (ch :: v) with ([ch] ++ v).
    now rewrite !escapeRegExp_app, (Hyes ch Hin).
  - intros u ch v Hin. change (ch :: v) with ([ch] ++ v).
    now rewrite !escapeRegExp_app, (Hno ch Hin).
  - induction s as [|ch s IH]; intros Hs; [reflexivity|].
    change (ch :: s) with ([ch] ++ s). rewrite escapeRegExp_app, Hno, IH; [reflexivity | |].
    + intros c Hc. apply Hs. now right.
    + apply Hs. now left.
  - exact H1.
  - intros u v E. rewrite <- (H1 u), <- (H1 v). now rewrite E.
Qed.

Lemma escapeRegExp_spells_the_string_witness :
  escapeRegExp (chars "a.b.c") = chars "a\.b\.c"
  /\ escapeRegExp (chars "a.b" ++ "."%char :: chars "c")
     = escapeRegExp (chars "a.b") ++ "\"%char :: "."%char :: escapeRegExp (chars "c").
Proof.
  split; [reflexivity|].
  apply (proj1 (proj2 (proj2 (proj2 escapeRegExp_spells_the_string)))).
  simpl. tauto.
Defined.

(** ** Parsing back the tag of a reference without dimensions *)

Lemma digits_run_foreign (pat : pattern) (u v : jsstring) :
  (forall d, is_digit d = true -> foreign pat d = true) ->
  digits u -> occurs pat v = false ->
  foreign_head pat (u ++ v) /\ occurs pat (u ++ v) = false.
Proof.
  intros Hdig Hu Hov. destruct (digits_inv u Hu) as [d [u' [-> [Hd Hu']]]]. split.
  - simpl. now apply Hdig.
  - apply occurs_foreign_run; [|assumption].
    constructor; [now apply Hdig|].
    eapply Forall_impl; [|exact Hu']. exact Hdig.
Qed.

Lemma occurs_zoom_style (pat : pattern) (z : jsstring) :
  (forall d, is_digit d = true -> foreign pat d = true) ->
  occurs pat (chars "zoom: ") = false -> occurs pat (chars "%;") = false ->
  digits z -> occurs pat (zoom_style z) = false.
Proof.
  intros Hdig Hzm Hpc Hz. unfold zoom_style.
  destruct (digits_run_foreign pat z (chars "%;") Hdig Hz Hpc) as [H1 H2].
  exact (occurs_app pat (chars "zoom: ") _ H1 Hzm H2).
Qed.

Lemma occurs_in_zoom_tag (pat : pattern) (head p ea z : jsstring) :
  foreign pat dq = true ->
  (forall d, is_digit d = true -> foreign pat d = true) ->
  occurs pat head = false ->
  occurs pat (chars " alt=") = false ->
  occurs pat (chars " style=") = false ->
  occurs pat (chars "zoom: ") = false ->
  occurs pat (chars "%;") = false ->
  occurs pat (chars ">") = false ->
  occurs pat p = false -> occurs pat ea = false ->
  digits z ->
  occurs pat (head ++ dq :: p ++ dq :: chars " alt=" ++ dq :: ea ++ dq
                :: chars " style=" ++ dq :: zoom_style z ++ dq :: chars ">") = false.
Proof.
  intros Hdq Hdig Hhead Halt Hstyle Hzm Hpc Hgt Hp Hea Hz.
  pose proof (occurs_zoom_style pat z Hdig Hzm Hpc Hz) as Hst.
  apply occurs_sep; [assumption | assumption |].
  apply occurs_sep; [assumption | assumption |].
  apply occurs_sep; [assumption | assumption |].
  apply occurs_sep; [assumption | assumption |].
  apply occurs_sep; [assumption | assumption |].
  apply occurs_sep; assumption.
Qed.

Lemma digit_foreign_width d : is_digit d = true -> foreign (exactly_i (chars "width:")) d = true.
Proof. intros H. case_char d. Qed.

Lemma digit_foreign_height d : is_digit d = true -> foreign (exactly_i (chars "height:")) d = true.
Proof. intros H. case_char d. Qed.

Lemma no_width_in_zoom_style (z : jsstring) :
  digits z -> captured_int (exec widthRegex (zoom_style z)) = None.
Proof.
  intros Hz. unfold exec, widthRegex. cbn [seq]. rewrite search_dead; [reflexivity|].
  apply dead_lit_i. apply occurs_zoom_style; try reflexivity; try assumption.
  apply digit_foreign_width.
Qed.

Lemma no_height_in_zoom_style (z : jsstring) :
  digits z -> captured_int (exec heightRegex (zoom_style z)) = None.
Proof.
  intros Hz. unfold exec, heightRegex. cbn [seq]. rewrite search_dead; [reflexivity|].
  apply dead_lit_i. apply occurs_zoom_style; try reflexivity; try assumption.
  apply digit_foreign_height.
Qed.

Lemma zoom_of_zoom_style (z : jsstring) :
  digits z -> captured_int (exec zoomRegex (zoom_style z)) = Some (parseInt z).
Proof.
  intros Hz. destruct (digits_inv z Hz) as [f [z' [-> [Hf Hz']]]].
  unfold exec, zoomRegex, zoom_style. cbn [seq].
  match goal with
  | |- captured_int (search ?r ?i ?s) = _ =>
      assert (Hm : exists n, m r accept i s [] = Some (n, [(1, f :: z')]))
  end.
  { eexists. apply take_seq. rewrite m_lit_i. cbn.
    apply take_seq.
    apply (take_star_greedy is_space _ [" "%char] (f :: z' ++ chars "%;"));
      [repeat constructor | simpl; now apply digit_not_space |].
    apply take_seq, take_group.
    apply (plus_greedy_run is_digit _ f z' (chars "%;")); [assumption | assumption | reflexivity |].
    unfold close_group. apply take_opt. rewrite m_lit_i. cbn.
    apply take_nonempty; [lia|]. unfold accept.
    f_equal. f_equal. f_equal. f_equal. take_prefix. }
  destruct Hm as [n Hm]. rewrite (search_here _ _ _ _ _ Hm). reflexivity.
Qed.

Lemma zoom_style_not_quote (z : jsstring) : digits z -> all not_quote (zoom_style z).
Proof.
  intros [_ Hz]. unfold zoom_style.
  repeat (apply Forall_app; split);
    try (repeat constructor);
    eapply Forall_impl; try eassumption; apply digit_not_quote.
Qed.

Lemma undimensioned_shape (p a : jsstring) (Z : N) :
  newImgTag (undimensioned p a) Z = img_tag p (escapeHtml a) (zoom_style (toString Z)).
Proof.
  unfold undimensioned, newImgTag, safeAltText, styleString, img_tag, quoted.
  cbn [dragged_path dragged_altText sourceWidth sourceHeight app].
  assert (Hst : trim (chars "zoom: " ++ toString Z ++ chars "%;") = zoom_style (toString Z)).
  { unfold zoom_style.
    change (chars "zoom: " ++ toString Z ++ chars "%;")
      with ("z"%char :: (chars "oom: " ++ toString Z ++ chars "%;")).
    replace (chars "oom: " ++ toString Z ++ chars "%;")
      with ((chars "oom: " ++ toString Z ++ chars "%") ++ [";"%char])
      by (repeat (progress (simpl; rewrite <- ?app_assoc)); reflexivity).
    now apply trim_keeps. }
  rewrite Hst.
  assert (Halt : (if truthy a then escapeHtml a else []) = escapeHtml a)
    by (destruct a; reflexivity).
  rewrite Halt. repeat (progress (simpl; rewrite <- ?app_assoc)). reflexivity.
Qed.

(** X10.  The tag written for a reference without dimensions parses back:
    for a path that is not empty, has no blank at either end and no quote,
    and when neither the path nor the alternative text holds a blank
    followed by [src=] or the characters [![] in a row, the tag rendered at
    zoom Z is read as an img tag with that path, that zoom, no width and no
    height, the escaped alternative text, and the whole tag as the matched
    text at index 0. *)
Theorem undimensioned_tag_round_trips (p a : jsstring) (Z : N) :
  p <> [] -> trim p = p -> all not_quote p ->
  occurs blank_src p = false -> occurs blank_src a = false ->
  occurs bang_bracket p = false -> occurs bang_bracket a = false ->
  parseImageSyntaxFromLine (newImgTag (undimensioned p a) Z)
  = Some {| path := p;
            altText := if truthy a then Some (trim (escapeHtml a)) else None;
            specifiedWidth := None;
            specifiedHeight := None;
            originalMatch := newImgTag (undimensioned p a) Z;
            startIndexInLine := 0;
            isHtml := true;
            Utils.currentZoomPercent := Some Z |}.
Proof.
  intros Hp Htrim Hqp Hbp Hba Hmp Hma.
  rewrite undimensioned_shape.
  pose proof (toString_digits Z) as Hz.
  assert (Hbang : occurs bang_bracket (img_tag p (escapeHtml a) (zoom_style (toString Z))) = false).
  { apply (occurs_in_zoom_tag bang_bracket (chars "<img src=") p (escapeHtml a));
      try reflexivity; try assumption.
    - apply digit_foreign_bang_bracket.
    - apply occurs_escapeHtml; try assumption; foreign_chars. }
  unfold parseImageSyntaxFromLine.
  rewrite parseMarkdown_needs_bang_bracket, parseWikilink_needs_bang_bracket by assumption.
  assert (Hst : zoom_style (toString Z) <> []) by discriminate.
  unfold parseHtml. rewrite htmlImgRegex_exec; try assumption.
  - unfold group. cbn [groups capture Nat.eqb index matched].
    unfold or_else. cbn [truthy_opt].
    assert (Htp : truthy p = true) by (destruct p; [contradiction | reflexivity]).
    assert (Hts : truthy (zoom_style (toString Z)) = true) by reflexivity.
    rewrite ?Htp, ?Hts. cbn [truthy_opt]. rewrite ?Htp, ?Hts.
    rewrite no_width_in_zoom_style, no_height_in_zoom_style, zoom_of_zoom_style by assumption.
    rewrite Htrim, parseInt_toString.
    destruct a as [|a0 a'].
    + reflexivity.
    + assert (Hte : truthy (escapeHtml (a0 :: a')) = true).
      { change (a0 :: a') with ([a0] ++ a'). rewrite escapeHtml_app, escapeHtml_one.
        unfold entity. repeat match goal with |- context [if ?b then _ else _] => destruct b end;
          reflexivity. }
      cbn [truthy truthy_opt]. rewrite Hte. cbn [truthy_opt]. rewrite !Hte. reflexivity.
  - apply escapeHtml_not_quote.
  - now apply zoom_style_not_quote.
  - apply (occurs_in_zoom_tag blank_src (chars "src=") p (escapeHtml a));
      try reflexivity; try assumption.
    + apply digit_foreign_blank_src.
    + apply occurs_escapeHtml; try assumption; foreign_chars.
Qed.

Lemma undimensioned_tag_round_trips_witness :
  parseImageSyntaxFromLine (newImgTag (undimensioned (chars "my image.png") (chars "a <b> & c")) 150)
  = Some {| path := chars "my image.png";
            altText := Some (chars "a &lt;b&gt; &amp; c");
            specifiedWidth := None;
            specifiedHeight := None;
            originalMatch :=
              newImgTag (undimensioned (chars "my image.png") (chars "a <b> & c")) 150;
            startIndexInLine := 0;
            isHtml := true;
            Utils.currentZoomPercent := Some 150%N |}.
Proof.
  apply (undimensioned_tag_round_trips (chars "my image.png") (chars "a <b> & c") 150);
    try reflexivity.
  - discriminate.
  - repeat constructor.
Defined.

(** ** How the matched text begins *)

Lemma search_found (r : regex) (s : jsstring) : forall i mt,
  search r i s = Some mt ->
  exists d e c,
    m r accept (i + d) (skipn d s) [] = Some (e, c)
    /\ matched mt = firstn (e - (i + d)) (skipn d s).
Proof.
  induction s as [|a s IH]; intros i mt H.
  - cbn [search] in H. destruct (m r accept i [] []) as [[e c]|] eqn:E; [|discriminate].
    injection H as <-. exists 0, e, c. rewrite Nat.add_0_r. auto.
  - rewrite search_cons in H. destruct (m r accept i (a :: s) []) as [[e c]|] eqn:E.
    + injection H as <-. exists 0, e, c. rewrite Nat.add_0_r. auto.
    + destruct (IH _ _ H) as (d & e & c & Hm & Hmt).
      exists (S d), e, c. rewrite Nat.add_succ_r. auto.
Qed.

Lemma occurs_at_firstn (pat : pattern) : forall (s : jsstring) n,
  List.length pat <= n -> occurs_at pat s = true -> occurs_at pat (firstn n s) = true.
Proof.
  induction pat as [|q pat IH]; intros s n Hn H; [now destruct (firstn n s)|].
  destruct s as [|b s]; [discriminate|]. destruct n as [|n]; [simpl in Hn; lia|].
  simpl in *. apply andb_true_iff in H. destruct H as [-> H]. simpl.
  apply IH; [lia | assumption].
Qed.

Lemma matched_starts_with (pat : pattern) (r : regex) (s : jsstring) (mt : MatchResult) :
  (forall k j t c, m r k j t c =
                   if occurs_at pat t
                   then m r k j t c
                   else None) ->
  List.length pat <= min_length r ->
  exec r s = Some mt -> occurs_at pat (matched mt) = true.
Proof.
  intros Hr Hlen H. destruct (search_found _ _ _ _ H) as (d & e & c & Hm & ->).
  destruct (m_reach _ _ _ _ _ _ Hm) as (n & c' & Hmin & Hn & Hk).
  unfold accept in Hk. injection Hk as <- _.
  rewrite Hr in Hm. destruct (occurs_at pat (skipn d s)) eqn:E; [|discriminate].
  apply occurs_at_firstn; [lia | exact E].
Qed.

Lemma lit_guard (w : string) (r : regex) k j t c :
  m (Seq (lit w) r) k j t c
  = if occurs_at (exactly w) t then m (Seq (lit w) r) k j t c else None.
Proof. rewrite m_Seq, m_lit. now destruct (occurs_at (exactly w) t). Qed.

Lemma lit_i_guard (n : nat) (w : jsstring) (r : regex) k j t c :
  m (Group n (Seq (lit_i w) r)) k j t c
  = if occurs_at (exactly_i w) t then m (Group n (Seq (lit_i w) r)) k j t c else None.
Proof. rewrite m_Group, m_Seq, m_lit_i. now destruct (occurs_at (exactly_i w) t). Qed.

(** X4.  The two kinds of result are told apart by how the matched text
    begins.  A result flagged as HTML matched text that opens with [<img]
    (in any letter case); a result not so flagged matched text that opens
    with [![] and carries no zoom. *)
Theorem parse_kind_shows_in_the_match (line : jsstring) (r : ParsedImageInfo) :
  parseImageSyntaxFromLine line = Some r ->
  if isHtml r
  then occurs_at img_open (originalMatch r) = true
  else occurs_at bang_bracket (originalMatch r) = true
       /\ Utils.currentZoomPercent r = None.
Proof.
  unfold parseImageSyntaxFromLine. intros H.
  destruct (parseMarkdown line) as [r1|] eqn:E1.
  - injection H as <-. unfold parseMarkdown in E1.
    destruct (exec markdownRegex line) as [mt|] eqn:E; [|discriminate].
    injection E1 as <-. cbn. split; [|reflexivity].
    apply (matched_starts_with bang_bracket markdownRegex line mt); [|simpl; lia|exact E].
    intros. apply (lit_guard "![").
  - destruct (parseWikilink line) as [r2|] eqn:E2.
    + injection H as <-. unfold parseWikilink in E2.
      destruct (exec wikilinkRegex line) as [mt|] eqn:E; [|discriminate].
      injection E2 as <-. cbn. split; [|reflexivity].
      apply (occurs_at_longer bang_bracket [is_char "["]).
      apply (matched_starts_with (exactly "![[") wikilinkRegex line mt); [|simpl; lia|exact E].
      intros. apply (lit_guard "![[").
    + unfold parseHtml in H.
      destruct (exec htmlImgRegex line) as [mt|] eqn:E; [|discriminate].
      cbv zeta in H.
      destruct (or_else (group 2 mt) (group 3 mt)) as [p|]; [|discriminate].
      destruct (truthy p); [|discriminate].
      injection H as <-. cbn.
      apply (matched_starts_with img_open htmlImgRegex line mt); [|simpl; lia|exact E].
      intros. apply (lit_i_guard 1 (chars "<img")).
Qed.

Lemma parse_kind_shows_in_the_match_witness :
  occurs_at img_open (chars "<IMG src=a.png>") = true.
Proof.
  exact (parse_kind_shows_in_the_match (chars "text <IMG src=a.png> more")
           {| path := chars "a.png"; altText := None; specifiedWidth := None;
              specifiedHeight := None; originalMatch := chars "<IMG src=a.png>";
              startIndexInLine := 5; isHtml := true; Utils.currentZoomPercent := None |}
           eq_refl).
Defined.

(** ** The baseline of an armed session *)

(** X16.  When [startResize] returns, the session runs and every field of
    the controller is fixed by the parse, the element and the press: the
    image data are the path, the alternative text and the dimensions as
    parsed; the baseline width is never zero -- the parsed width if it is
    not zero, else the rendered width if that is not zero, else 200 -- and
    the baseline height is not touched; the baseline zoom is 100 unless an
    img tag recorded a zoom; the centre is the centre of the image
    rectangle, and the initial distance is the distance from the press to
    that centre.  For an img tag the view is left as it is. *)
Theorem armed_session_holds_the_parse
        (Math_sqrt : Q -> Q) (this this' : t) (page page' : Page) (event : MouseEvent)
        (imgElement : HTMLImageElement) (lineInfo : LineDetails) (parsedInfo : ParsedImageInfo) :
  startResize Math_sqrt this page event imgElement lineInfo parsedInfo = Ok (this', page') ->
  isDragging this' = true
  /\ mousemove_listener page' = true /\ mouseup_listener page' = true
  /\ activeImgElement this' = Some imgElement
  /\ lineInfoAtDragStart this' = Some lineInfo
  /\ draggedImageInfo this'
     = Some {| dragged_path := Some (path parsedInfo);
               dragged_altText := altText parsedInfo;
               sourceWidth := specifiedWidth parsedInfo;
               sourceHeight := specifiedHeight parsedInfo |}
  /\ initialImageWidth this' <> 0%N
  /\ initialImageWidth this'
     = (match specifiedWidth parsedInfo with
        | Some w => if (w =? 0)%N
                    then if (offsetWidth imgElement =? 0)%N then 200 else offsetWidth imgElement
                    else w
        | None => if (offsetWidth imgElement =? 0)%N then 200 else offsetWidth imgElement
        end)%N
  /\ initialImageHeight this' = initialImageHeight this
  /\ currentZoomPercent this'
     = (if isHtml parsedInfo
        then match Utils.currentZoomPercent parsedInfo with Some z => z | None => 100 end
        else 100)%N
  /\ imageCenterX this'
     = (left (boundingClientRect imgElement) + width (boundingClientRect imgElement) / 2)%Q
  /\ imageCenterY this'
     = (top (boundingClientRect imgElement) + height (boundingClientRect imgElement) / 2)%Q
  /\ initialDistanceToCenter this'
     = Math_sqrt ((clientX event - imageCenterX this') * (clientX event - imageCenterX this')
                  + (clientY event - imageCenterY this') * (clientY event - imageCenterY this'))%Q
  /\ (isHtml parsedInfo = true -> view page' = view page).
Proof.
  unfold startResize. intros H.
  assert (Hw : forall w0 : N, (if (w0 =? 0)%N then 200%N else w0) <> 0%N).
  { intros w0. destruct (N.eqb_spec w0 0); [discriminate | assumption]. }
  destruct (isHtml parsedInfo).
  - injection H as <- <-. cbn. repeat split; try apply Hw.
    destruct (specifiedWidth parsedInfo) as [w|]; [|reflexivity].
    destruct (N.eqb_spec w 0) as [->|Hn]; [reflexivity|].
    now apply N.eqb_neq in Hn as ->.
  - destruct (dispatch _ _) as [v|]; [|discriminate].
    injection H as <- <-. cbn. repeat split; try apply Hw; try discriminate.
    destruct (specifiedWidth parsedInfo) as [w|]; [|reflexivity].
    destruct (N.eqb_spec w 0) as [->|Hn]; [reflexivity|].
    now apply N.eqb_neq in Hn as ->.
Qed.

Lemma armed_session_holds_the_parse_witness :
  exists this' page',
    startResize integer_sqrt init (idle_page markdown_line) (pointer_at 330 120)
      (an_image "ew-resize" 0)
      {| pos := 0; lineText := markdown_line; lineFrom := 0; lineTo := 15 |}
      (markdown_parse (chars "cap") None (chars "img.png"))
    = Ok (this', page')
    /\ initialImageWidth this' = 320%N /\ currentZoomPercent this' = 100%N.
Proof.
  destruct (startResize integer_sqrt init (idle_page markdown_line) (pointer_at 330 120)
              (an_image "ew-resize" 0)
              {| pos := 0; lineText := markdown_line; lineFrom := 0; lineTo := 15 |}
              (markdown_parse (chars "cap") None (chars "img.png")))
    as [[this' page']|] eqn:E.
  - exists this', page'. split; [reflexivity|].
    pose proof (armed_session_holds_the_parse _ _ _ _ _ _ _ _ _ E)
      as (_ & _ & _ & _ & _ & _ & _ & Hw & _ & Hz & _).
    split; [exact Hw | exact Hz].
  - vm_compute in E. discriminate E.
Defined.

(** ** An img tag with nothing but a source *)

Lemma quote_cases (q : ascii) : quote q = true -> q = dq \/ q = "'"%char.
Proof.
  unfold quote. intros H. apply orb_true_iff in H.
  destruct H as [H|H]; apply Ascii.eqb_eq in H; auto.
Qed.

Lemma occurs_in_bare_tag (pat : pattern) (head p : jsstring) (q1 q2 : ascii) :
  foreign pat dq = true -> foreign pat "'" = true ->
  quote q1 = true -> quote q2 = true ->
  occurs pat head = false -> occurs pat (chars ">") = false -> occurs pat p = false ->
  occurs pat (head ++ q1 :: p ++ q2 :: chars ">") = false.
Proof.
  intros Hd Hs H1 H2 Hh Hg Hp.
  assert (F : forall q, quote q = true -> foreign pat q = true).
  { intros q Hq. destruct (quote_cases q Hq) as [-> | ->]; assumption. }
  apply occurs_sep; [now apply F | assumption |].
  apply occurs_sep; [now apply F | assumption | assumption].
Qed.

Lemma htmlImgRegex_bare (q1 q2 : ascii) (p : jsstring) :
  quote q1 = true -> quote q2 = true ->
  p <> [] -> all not_quote p -> occurs blank_src p = false ->
  exec htmlImgRegex (bare_tag q1 p q2) =
    Some {| index := 0; matched := bare_tag q1 p q2;
            groups := [(1, bare_tag q1 p q2); (2, p)] |}.
Proof.
  intros H1 H2 Hp Hqp Hfree.
  destruct p as [|a p]; [contradiction|]. inversion Hqp as [|? ? Ha Hqp']; subst.
  assert (Hm : m htmlImgRegex accept 0 (bare_tag q1 (a :: p) q2) [] =
               Some (List.length (bare_tag q1 (a :: p) q2),
                     [(1, bare_tag q1 (a :: p) q2); (2, a :: p)])).
  { unfold htmlImgRegex. cbn [seq]. apply take_group.
    apply take_seq. rewrite m_lit_i.
    change (occurs_at (exactly_i (chars "<img")) (bare_tag q1 (a :: p) q2)) with true.
    cbv iota.
    change (skipn (List.length (chars "<img")) (bare_tag q1 (a :: p) q2))
      with ([" "%char] ++ (chars "src=" ++ q1 :: (a :: p) ++ q2 :: chars ">")).
    apply take_seq.
    apply (plus_greedy_run is_space _ " "%char [] (chars "src=" ++ q1 :: (a :: p) ++ q2 :: chars ">"));
      [reflexivity | constructor | reflexivity |].
    apply take_seq. unfold html_before_src. cbn [seq].
    apply skip_opt.
    { apply before_src_fail.
      - intros j t c Ht. unfold nonempty_since.
        destruct (Nat.eqb j _); [reflexivity|].
        now rewrite m_Seq, m_lit_i, Ht.
      - apply (occurs_in_bare_tag blank_src (chars "src=")); try reflexivity; assumption. }
    apply take_seq. rewrite m_lit_i. cbn.
    apply take_seq. unfold html_src_value. cbn [seq].
    apply take_left. apply take_seq. apply take_class; [assumption|].
    apply take_seq. apply take_group.
    apply (plus_greedy_run not_quote _ a p (q2 :: chars ">")); [assumption | assumption | |].
    { simpl. unfold not_quote, none_of. simpl.
      destruct (quote_cases q2 H2) as [-> | ->]; reflexivity. }
    unfold close_group at 1.
    apply take_class; [assumption|].
    apply take_seq. unfold html_alt_attr. cbn [seq].
    apply skip_opt; [rewrite m_Seq, m_Plus; reflexivity|].
    apply take_seq. unfold html_style_attr. cbn [seq].
    apply skip_opt; [rewrite m_Seq, m_Plus; reflexivity|].
    apply take_seq, take_star_lazy. rewrite m_lit_i. cbn.
    unfold close_group, accept.
    f_equal. f_equal.
    - unfold bare_tag. simpl. rewrite !length_app. simpl. lia.
    - f_equal.
      + f_equal. unfold bare_tag. take_prefix.
      + f_equal. f_equal. take_prefix. }
  rewrite (exec_at_start _ _ _ _ Hm), Nat.sub_0_r, firstn_all. reflexivity.
Qed.

(** X22.  An img tag that has nothing but a quoted source parses as an img
    tag with the trimmed source as path and neither alternative text nor
    width, height or zoom.  The source is not empty, has no quote, no blank
    followed by [src=] and no [![]; the two quotes around it may each be the
    double or the single one, and need not be the same. *)
Theorem bare_tag_parses (q1 q2 : ascii) (p : jsstring) :
  quote q1 = true -> quote q2 = true ->
  p <> [] -> all not_quote p ->
  occurs blank_src p = false -> occurs bang_bracket p = false ->
  parseImageSyntaxFromLine (bare_tag q1 p q2)
  = Some {| path := trim p; altText := None;
            specifiedWidth := None; specifiedHeight := None;
            originalMatch := bare_tag q1 p q2;
            startIndexInLine := 0; isHtml := true; Utils.currentZoomPercent := None |}.
Proof.
  intros H1 H2 Hp Hqp Hb Hm.
  assert (Hbang : occurs bang_bracket (bare_tag q1 p q2) = false).
  { apply (occurs_in_bare_tag bang_bracket (chars "<img src=")); try reflexivity; assumption. }
  unfold parseImageSyntaxFromLine.
  rewrite parseMarkdown_needs_bang_bracket, parseWikilink_needs_bang_bracket by assumption.
  unfold parseHtml. rewrite htmlImgRegex_bare by assumption.
  unfold group. cbn [groups capture Nat.eqb index matched]. unfold or_else. cbn [truthy_opt].
  destruct p as [|a p]; [contradiction|]. reflexivity.
Qed.

Lemma bare_tag_parses_witness :
  parseImageSyntaxFromLine (chars "<img src='my image.png" ++ dq :: chars ">")
  = Some {| path := chars "my image.png"; altText := None;
            specifiedWidth := None; specifiedHeight := None;
            originalMatch := chars "<img src='my image.png" ++ dq :: chars ">";
            startIndexInLine := 0; isHtml := true; Utils.currentZoomPercent := None |}.
Proof.
  apply (bare_tag_parses "'" dq (chars "my image.png")); try reflexivity.
  - discriminate.
  - repeat constructor.
Defined.

(** ** The line under an image *)

(** X23.  [getLineInfoFromElement] never throws.  It returns nothing
    exactly when the element has no document position or that position lies
    beyond the end of the document; otherwise the details it returns bracket
    the position -- [lineFrom <= pos <= lineTo] -- and describe a stretch of
    the document: [lineText] is the text between [lineFrom] and [lineTo]. *)
Theorem line_info_brackets_the_position (v : EditorView) (element : HTMLImageElement) :
  match getLineInfoFromElement v element with
  | None => posAtDOM element = None
            \/ exists p, posAtDOM element = Some p /\ List.length (doc v) < p
  | Some info =>
      posAtDOM element = Some (pos info)
      /\ lineFrom info <= pos info <= lineTo info
      /\ lineTo info = lineFrom info + List.length (lineText info)
      /\ lineTo info <= List.length (doc v)
      /\ slice (doc v) (lineFrom info) (lineTo info) = lineText info
  end.
Proof.
  unfold getLineInfoFromElement.
  destruct (posAtDOM element) as [p|]; [|now left].
  destruct (Nat.le_gt_cases p (List.length (doc v))) as [Hle|Hgt].
  - destruct (lineAt_total v p Hle) as (line & Hl). rewrite Hl.
    destruct (lineAt_spec _ _ _ Hl) as (pre & post & Hdoc & Hfrom & Hto & Hpos).
    cbn [pos lineFrom lineTo lineText]. split; [reflexivity|]. split; [exact Hpos|].
    split; [exact Hto|]. split.
    + rewrite Hdoc, !length_app. lia.
    + unfold slice. rewrite Hto, Hdoc, Hfrom.
      replace (List.length pre + List.length (text line) - List.length pre)
        with (List.length (text line)) by lia.
      rewrite skipn_app, skipn_all, Nat.sub_diag. simpl. apply firstn_exact.
  - rewrite (lineAt_beyond v p Hgt). right. exists p. auto.
Qed.
